(** * gcs-admin: the document processor ([src/lib/document-processor.ts])

    A shallow embedding of the document-to-clean-HTML pipeline: the format
    dispatcher [processDocument], the markup normalizer [cleanHtml], the
    title extractor [extractTitleFromContent] and the two frontmatter
    functions [processMarkdown] and [extractFrontmatter].

    The TypeScript code is a sequence of regular-expression rewrites on
    strings.  The embedding therefore has three layers:

    - JavaScript strings, as lists of UTF-16 code units;
    - the part of the ECMAScript regular-expression semantics the source
      uses (a backtracking matcher in continuation-passing style, the way
      the language definition gives it), with [String.prototype.replace],
      [match], [trim], [split], [indexOf], [slice] and [endsWith];
    - the functions of the source, one definition per function, every
      regular expression written as the syntax tree of its literal.

    The same layers carry the other string functions of the application:
    [generateSlug] ([src/app/api/auto-publish/route.ts]),
    [extractDriveFileId] ([src/lib/google-drive.ts]), and
    [getContentRepoData], [normalizeForComparison] and
    [findRowByDocumentName] ([src/lib/google-sheets.ts]). *)

From Stdlib Require Import List NArith Arith Lia Bool String Ascii.
From stdpp Require Import gmap list.
Import ListNotations.

Local Open Scope nat_scope.

(** ** Strings *)

(** A JavaScript string is a sequence of 16-bit code units.  A code unit
    is kept as a number; no function below does arithmetic on it. *)
(** String literals of the source, written as Rocq strings. *)
Definition str (s : string) : list N :=
  map N_of_ascii (list_ascii_of_string s).

(** The double quote and the line feed, which a Rocq literal cannot hold
    conveniently. *)
Definition dq : list N := [34%N].
Definition nl : list N := [10%N].

Definition in_range (lo hi c : N) : bool := (N.leb lo c && N.leb c hi)%bool.

(** [WhiteSpace] and [LineTerminator] of ECMAScript: what [\s] matches and
    what [trim] removes. *)
Definition is_space (c : N) : bool :=
  (in_range 9 13 c || N.eqb c 32 || N.eqb c 160 || N.eqb c 5760
   || in_range 8192 8202 c || N.eqb c 8232 || N.eqb c 8233
   || N.eqb c 8239 || N.eqb c 8287 || N.eqb c 12288 || N.eqb c 65279)%bool.

Definition is_digit (c : N) : bool := in_range 48 57 c.
Definition is_upper (c : N) : bool := in_range 65 90 c.
Definition is_lower (c : N) : bool := in_range 97 122 c.

(** [\b] looks at the word characters [A-Za-z0-9_]. *)
Definition is_word (c : N) : bool :=
  (is_upper c || is_lower c || is_digit c || N.eqb c 95)%bool.

Definition to_upper (c : N) : N := if is_lower c then (c - 32)%N else c.
Definition to_lower (c : N) : N := if is_upper c then (c + 32)%N else c.

(** ** Regular expressions *)

(** Every pattern character of the source is ASCII.  Under the [i] flag
    ECMAScript compares [Canonicalize(ch)], and a code unit of 128 or more
    never canonicalizes to an ASCII one, so for these patterns the flag
    is plain ASCII case folding. *)
Definition char_eq (ci : bool) (a c : N) : bool :=
  if ci then N.eqb (to_upper a) (to_upper c) else N.eqb a c.

(** Members of a character class [[...]]. *)
Inductive class_item : Type :=
  | CChar (c : N)              (* a single character *)
  | CRange (lo hi : N)         (* a-z *)
  | CSpace                     (* \s *)
  | CNotSpace                  (* \S *)
  | CDigit.                    (* \d *)

Definition item_mem (ci : bool) (it : class_item) (c : N) : bool :=
  match it with
  | CChar a => char_eq ci a c
  | CRange lo hi =>
      (in_range lo hi c
       || (ci && (in_range lo hi (to_upper c) || in_range lo hi (to_lower c))))%bool
  | CSpace => is_space c
  | CNotSpace => negb (is_space c)
  | CDigit => is_digit c
  end.

Definition class_mem (ci : bool) (neg : bool) (items : list class_item) (c : N) : bool :=
  xorb neg (existsb (fun it => item_mem ci it c) items).

Inductive regex : Type :=
  | Eps                                        (* the empty pattern *)
  | Chr (c : N)                                (* a literal character *)
  | Cls (neg : bool) (items : list class_item) (* [...] and [^...] *)
  | Seq (a b : regex)                          (* ab *)
  | Alt (a b : regex)                          (* a|b *)
  | Star (greedy : bool) (a : regex)           (* a* and a*? *)
  | AtLeast (n : nat) (a : regex)              (* a{n,}; a+ is a{1,} *)
  | Opt (a : regex)                            (* a? *)
  | Group (i : nat) (a : regex)                (* the i-th capturing (...) *)
  | Bol                                        (* ^ (no m flag) *)
  | Eol                                        (* $ (no m flag) *)
  | WordB.                                     (* \b *)

Declare Scope regex_scope.
Delimit Scope regex_scope with re.
Bind Scope regex_scope with regex.
Infix "⋅" := Seq (at level 40, left associativity) : regex_scope.
Infix "∣" := Alt (at level 45, left associativity) : regex_scope.

(** A literal run of characters. *)
Fixpoint lit (cs : list N) : regex :=
  match cs with
  | [] => Eps
  | c :: cs' => Seq (Chr c) (lit cs')
  end.

(** [\s], [\d], [[\s\S]] and [[^c]]. *)
Definition ws : regex := Cls false [CSpace].
Definition digit : regex := Cls false [CDigit].
Definition any : regex := Cls false [CSpace; CNotSpace].
Definition notc (cs : list N) : regex := Cls true (map CChar cs).
Definition oneof (cs : list N) : regex := Cls false (map CChar cs).

(** ** The matcher *)

(** A match state is the end index reached so far and the captures made
    so far ([x]'s [endIndex] and [captures] in ECMAScript).  The capture
    made last for a group is the one nearest the head. *)
Record mstate : Type := MState { pos : nat; caps : list (nat * (nat * nat)) }.

Definition advance (x : mstate) : mstate := MState (S (pos x)) (caps x).
Definition set_cap (i from : nat) (x : mstate) : mstate :=
  MState (pos x) ((i, (from, pos x)) :: caps x).

Definition orelse {A} (a b : option A) : option A :=
  match a with Some _ => a | None => b end.

Section Matcher.
Variable ci : bool.        (* the i flag *)
Variable s : list N.       (* the input *)

Definition char_at (i : nat) : option N := nth_error s i.

Definition word_at (i : nat) : bool :=
  match char_at i with Some c => is_word c | None => false end.

Definition step_if (p : N -> bool) (x : mstate)
    (k : mstate -> option mstate) : option mstate :=
  match char_at (pos x) with
  | Some c => if p c then k (advance x) else None
  | None => None
  end.

(** The loop of [a*] ([RepeatMatcher] with min 0 and no max): an
    iteration that consumes nothing is rejected (its empty check), so
    the remaining input [n] bounds the number of iterations. *)
Fixpoint star_loop (body : mstate -> (mstate -> option mstate) -> option mstate)
    (greedy : bool) (k : mstate -> option mstate) (n : nat) (x : mstate)
    {struct n} : option mstate :=
  match n with
  | 0 => k x
  | S n' =>
      let iter :=
        body x (fun y => if pos y =? pos x then None else star_loop body greedy k n' y) in
      if greedy then orelse iter (k x) else orelse (k x) iter
  end.

(** The [m] compulsory iterations of [a{m,}], then the greedy loop. *)
Fixpoint rep_loop (body : mstate -> (mstate -> option mstate) -> option mstate)
    (k : mstate -> option mstate) (m : nat) (x : mstate) {struct m} : option mstate :=
  match m with
  | S m' => body x (fun y => rep_loop body k m' y)
  | 0 => star_loop body true k (length s - pos x) x
  end.

(** The matcher of a pattern takes a state and a continuation and
    answers with the final state of the first successful path, in the
    backtracking order of the language definition. *)
Fixpoint rmatch (r : regex) (x : mstate) (k : mstate -> option mstate)
    {struct r} : option mstate :=
  match r with
  | Eps => k x
  | Chr c => step_if (char_eq ci c) x k
  | Cls neg items => step_if (class_mem ci neg items) x k
  | Seq a b => rmatch a x (fun y => rmatch b y k)
  | Alt a b => orelse (rmatch a x k) (rmatch b x k)
  | Star greedy a => star_loop (rmatch a) greedy k (length s - pos x) x
  | AtLeast m a => rep_loop (rmatch a) k m x
  | Opt a =>
      orelse (rmatch a x (fun y => if pos y =? pos x then None else k y)) (k x)
  | Group i a => rmatch a x (fun y => k (set_cap i (pos x) y))
  | Bol => if pos x =? 0 then k x else None
  | Eol => if pos x =? length s then k x else None
  | WordB =>
      let a := match pos x with 0 => false | S j => word_at j end in
      let b := word_at (pos x) in
      if xorb a b then k x else None
  end.

(** One attempt at index [i] ([RegExpBuiltinExec] calls the matcher
    with the empty capture list and the continuation that accepts). *)
Definition match_at (r : regex) (i : nat) : option mstate :=
  rmatch r (MState i []) Some.
End Matcher.

(** ** The string library *)

Definition substring (s : list N) (from to : nat) : list N :=
  take (to - from) (drop from s).

(** A regular-expression object: the pattern and its [g] and [i] flags. *)
Record regexp : Type := RegExp { source : regex; global : bool; ignoreCase : bool }.

(** [/…/], [/…/i], [/…/g] and [/…/gi]. *)
Definition re_ (r : regex) : regexp := RegExp r false false.
Definition re_i (r : regex) : regexp := RegExp r false true.
Definition re_g (r : regex) : regexp := RegExp r true false.
Definition re_gi (r : regex) : regexp := RegExp r true true.

Definition exec_at (rx : regexp) (s : list N) (i : nat) : option mstate :=
  match_at (ignoreCase rx) s (source rx) i.

(** [RegExpBuiltinExec] from index [i]: the first index at or after [i],
    up to the length of the input, where the matcher succeeds.  [n] is
    the number of further indexes to try. *)
Fixpoint search_from (rx : regexp) (s : list N) (n i : nat) : option (nat * mstate) :=
  match exec_at rx s i with
  | Some y => Some (i, y)
  | None =>
      match n with
      | 0 => None
      | S n' => search_from rx s n' (S i)
      end
  end.

Definition search (rx : regexp) (s : list N) : option (nat * mstate) :=
  search_from rx s (length s) 0.

(** The text of capture [i] of a finished match; a group that did not
    take part reads as the empty string, as in a replacement template.
    (ECMAScript resets the groups of a repeated sub-pattern at every
    iteration; in the patterns of the source such a group is set again by
    every iteration, so keeping the last capture is the same.) *)
Fixpoint find_cap (i : nat) (cs : list (nat * (nat * nat))) : option (nat * nat) :=
  match cs with
  | [] => None
  | (j, span) :: cs' => if i =? j then Some span else find_cap i cs'
  end.

Definition group_text (s : list N) (y : mstate) (i : nat) : list N :=
  match find_cap i (caps y) with
  | Some (from, to) => substring s from to
  | None => []
  end.

(** What a replacement produces from the matched text and the groups:
    a callback of the source, or a template. *)
Definition replacer : Type := list N -> (nat -> list N) -> list N.

(** A replacement template: literal text and [$i] references. *)
Inductive titem : Type :=
  | TLit (l : list N)
  | TCap (i : nat).

Fixpoint expand (tmpl : list titem) : replacer :=
  fun matched groups =>
    match tmpl with
    | [] => []
    | TLit l :: t => l ++ expand t matched groups
    | TCap i :: t => groups i ++ expand t matched groups
    end.

Definition char_list (s : list N) (i : nat) : list N :=
  match nth_error s i with Some c => [c] | None => [] end.

(** The loop of [replace] for a global pattern: at a match the
    replacement is emitted and the scan goes on at the end of the match;
    after an empty match, and where there is no match, the character at
    the index is copied and the scan goes on one further.  No attempt is
    made beyond the length of the input. *)
Fixpoint replace_loop (rx : regexp) (f : replacer) (s : list N) (n i : nat) : list N :=
  match n with
  | 0 => []
  | S n' =>
      if length s <? i then [] else
      match exec_at rx s i with
      | Some y =>
          f (substring s i (pos y)) (group_text s y)
            ++ (if pos y <=? i
                then char_list s i ++ replace_loop rx f s n' (S i)
                else replace_loop rx f s n' (pos y))
      | None => char_list s i ++ replace_loop rx f s n' (S i)
      end
  end.

(** [s.replace(rx, f)]: every match for a global pattern, the first
    match otherwise. *)
Definition replace_with (rx : regexp) (f : replacer) (s : list N) : list N :=
  if global rx then replace_loop rx f s (S (length s)) 0
  else
    match search rx s with
    | Some (i, y) =>
        take i s ++ f (substring s i (pos y)) (group_text s y) ++ drop (pos y) s
    | None => s
    end.

Definition replace (rx : regexp) (tmpl : list titem) (s : list N) : list N :=
  replace_with rx (expand tmpl) s.

(** [s.match(rx)] for a pattern without [g]: the index, [match[0]] and
    the groups, or nothing. *)
Record jsmatch : Type := JsMatch { mindex : nat; mstr : list N; mgroup : nat -> list N }.

Definition js_match (rx : regexp) (s : list N) : option jsmatch :=
  match search rx s with
  | Some (i, y) => Some (JsMatch i (substring s i (pos y)) (group_text s y))
  | None => None
  end.

Fixpoint is_prefix (p s : list N) : bool :=
  match p, s with
  | [], _ => true
  | a :: p', b :: s' => (N.eqb a b && is_prefix p' s')%bool
  | _ :: _, [] => false
  end.

(** [s.indexOf(p)]; [None] stands for -1. *)
Fixpoint index_of (p s : list N) : option nat :=
  if is_prefix p s then Some 0
  else match s with
       | [] => None
       | _ :: s' => option_map S (index_of p s')
       end.

(** [s.replace(p, r)] for a string [p] and a replacement [r] without
    [$]: the first occurrence only. *)
Definition replace_str (p r s : list N) : list N :=
  match index_of p s with
  | Some i => take i s ++ r ++ drop (i + length p) s
  | None => s
  end.

Fixpoint trim_start (s : list N) : list N :=
  match s with
  | c :: s' => if is_space c then trim_start s' else s
  | [] => []
  end.

Definition trim_end (s : list N) : list N := rev (trim_start (rev s)).
Definition trim (s : list N) : list N := trim_end (trim_start s).

Definition ends_with (s suffix : list N) : bool := is_prefix (rev suffix) (rev s).

(** [s.split(c)] for a separator of one character. *)
Fixpoint split_on (c : N) (s : list N) : list (list N) :=
  match s with
  | [] => [[]]
  | d :: s' =>
      if N.eqb d c then [] :: split_on c s'
      else match split_on c s' with
           | l :: ls => (d :: l) :: ls
           | [] => [[d]]
           end
  end.

(** ** The source: [processMarkdown] *)

(** The literal text [t] as a pattern. *)
Definition l (t : string) : regex := lit (str t).

Definition LF : regex := Chr 10.
Definition DQ : N := 34%N.
Definition SQ : N := 39%N.

(** [/^---\n[\s\S]*?\n---\n/] *)
Definition frontmatterRegex_strip : regexp :=
  re_ (Bol ⋅ l "---" ⋅ LF ⋅ Star false any ⋅ LF ⋅ l "---" ⋅ LF).

Definition processMarkdown (content : list N) : list N :=
  trim (replace frontmatterRegex_strip [] content).

(** ** The source: [cleanHtml] *)

(** [/<hr[^>]*>[\s\S]*$/gi] *)
Definition hrMarker : regex := l "<hr" ⋅ Star true (notc (str ">")) ⋅ l ">".

Definition metaHeadings : list (list N) :=
  map str
    ["meta information"; "meta info"; "article meta"; "post meta";
     "seo information"; "seo info"; "seo details"; "seo";
     "metadata"; "meta data"; "article information";
     "keywords"; "tags"; "categories";
     "notes"; "internal notes"; "editor notes";
     "---"]%string.

(** The pattern text [heading.replace(/\s+/g, '\\s*')] as a pattern: every
    run of white space of the label becomes [\s*], every other character
    stands for itself (the labels hold letters, blanks and hyphens only,
    none of which is special in a pattern).  [in_ws] tells that the run
    the scan is in has been turned into [\s*] already. *)
Fixpoint heading_re (in_ws : bool) (h : list N) : regex :=
  match h with
  | [] => Eps
  | c :: h' =>
      if is_space c
      then (if in_ws then heading_re true h' else Star true ws ⋅ heading_re true h')
      else Chr c ⋅ heading_re false h'
  end.

(** [<p[^>]*>[\s]*LABEL[\s]*:?[\s]*<\/p>]: a paragraph that holds the
    label only. *)
Definition pMarker (heading : list N) : regex :=
  l "<p" ⋅ Star true (notc (str ">")) ⋅ l ">" ⋅ Star true ws
    ⋅ heading_re false heading ⋅ Star true ws ⋅ Opt (l ":") ⋅ Star true ws ⋅ l "</p>".

(** [<h\d[^>]*>[\s]*LABEL[\s]*:?[\s]*<\/h\d>]: a heading that holds the
    label only. *)
Definition hMarker (heading : list N) : regex :=
  l "<h" ⋅ digit ⋅ Star true (notc (str ">")) ⋅ l ">" ⋅ Star true ws
    ⋅ heading_re false heading ⋅ Star true ws ⋅ Opt (l ":") ⋅ Star true ws
    ⋅ l "</h" ⋅ digit ⋅ l ">".

(** [<p[^>]*>[\s]*<(?:strong|b)>[\s]*LABEL[\s]*:?[\s]*<\/(?:strong|b)>]:
    a paragraph that starts with the label in bold. *)
Definition bMarker (heading : list N) : regex :=
  l "<p" ⋅ Star true (notc (str ">")) ⋅ l ">" ⋅ Star true ws
    ⋅ l "<" ⋅ (l "strong" ∣ l "b") ⋅ l ">" ⋅ Star true ws
    ⋅ heading_re false heading ⋅ Star true ws ⋅ Opt (l ":") ⋅ Star true ws
    ⋅ l "</" ⋅ (l "strong" ∣ l "b") ⋅ l ">".

(** [MARKER[\s\S]*$]: the marker and all that follows it. *)
Definition to_end (marker : regex) : regex := marker ⋅ Star true any ⋅ Eol.

Definition hrPattern : regexp := re_gi (to_end hrMarker).

(** [new RegExp(`…[\\s\\S]*$`, 'gi')] for the three patterns of a label. *)
Definition pPattern (heading : list N) : regexp := re_gi (to_end (pMarker heading)).
Definition hPattern (heading : list N) : regexp := re_gi (to_end (hMarker heading)).
Definition bPattern (heading : list N) : regexp := re_gi (to_end (bMarker heading)).

(** The body of [for (const heading of metaHeadings)]. *)
Definition removeMetaHeading (cleaned heading : list N) : list N :=
  let cleaned := replace (pPattern heading) [] cleaned in
  let cleaned := replace (hPattern heading) [] cleaned in
  let cleaned := replace (bPattern heading) [] cleaned in
  cleaned.

(** [/[-_=]{3,}[\s\S]*$/g] and [/\*{3,}[\s\S]*$/g] *)
Definition dashMarker : regex := AtLeast 3 (oneof (str "-_=")).
Definition starMarker : regex := AtLeast 3 (l "*").
Definition dashPattern : regexp := re_g (to_end dashMarker).
Definition starPattern : regexp := re_g (to_end starMarker).

(** Step 1: remove common meta information sections at the end. *)
Definition cleanHtml_step1 (html : list N) : list N :=
  let cleaned := html in
  let cleaned := replace hrPattern [] cleaned in
  let cleaned := fold_left removeMetaHeading metaHeadings cleaned in
  let cleaned := replace dashPattern [] cleaned in
  let cleaned := replace starPattern [] cleaned in
  cleaned.

(** [/<script[\s\S]*?<\/script>/gi], [/<style[\s\S]*?<\/style>/gi] and
    [/<!--[\s\S]*?-->/g] *)
Definition scriptPattern : regexp := re_gi (l "<script" ⋅ Star false any ⋅ l "</script>").
Definition stylePattern : regexp := re_gi (l "<style" ⋅ Star false any ⋅ l "</style>").
Definition commentPattern : regexp := re_g (l "<!--" ⋅ Star false any ⋅ l "-->").

(** [/<a\s+[^>]*href=Q(R)Q[^>]*>/gi], where [Q] is the class of the double
    and the single quote and [R] is any run of characters outside [Q] *)
Definition anchorPattern : regexp :=
  re_gi (l "<a" ⋅ AtLeast 1 ws ⋅ Star true (notc (str ">")) ⋅ l "href="
         ⋅ oneof [DQ; SQ] ⋅ Group 1 (Star true (notc [DQ; SQ])) ⋅ oneof [DQ; SQ]
         ⋅ Star true (notc (str ">")) ⋅ l ">").

(** [/<(p|h[1-6]|strong|b|em|i|ul|ol|li|br|div|span)\s+[^>]*>/gi] *)
Definition attrPattern : regexp :=
  re_gi (l "<"
         ⋅ Group 1 (l "p" ∣ l "h" ⋅ Cls false [CRange 49 54] ∣ l "strong" ∣ l "b"
                    ∣ l "em" ∣ l "i" ∣ l "ul" ∣ l "ol" ∣ l "li" ∣ l "br"
                    ∣ l "div" ∣ l "span")
         ⋅ AtLeast 1 ws ⋅ Star true (notc (str ">")) ⋅ l ">").

(** [/<div[^>]*>/gi], [/<\/div>/gi], [/<span[^>]*>/gi] and [/<\/span>/gi] *)
Definition divOpenPattern : regexp := re_gi (l "<div" ⋅ Star true (notc (str ">")) ⋅ l ">").
Definition divClosePattern : regexp := re_gi (l "</div>").
Definition spanOpenPattern : regexp := re_gi (l "<span" ⋅ Star true (notc (str ">")) ⋅ l ">").
Definition spanClosePattern : regexp := re_gi (l "</span>").

Definition allowedTags : list (list N) :=
  map str ["p"; "h1"; "h2"; "h3"; "h4"; "h5"; "h6"; "strong"; "b"; "em"; "i";
           "ul"; "ol"; "li"; "br"; "a"]%string.

(** [/<\/?(NAME)\b[^>]*>/gi], where [NAME] is [[a-z][a-z0-9]*] *)
Definition tagPattern : regexp :=
  re_gi (l "<" ⋅ Opt (l "/")
         ⋅ Group 1 (Cls false [CRange 97 122]
                    ⋅ Star true (Cls false [CRange 97 122; CRange 48 57]))
         ⋅ WordB ⋅ Star true (notc (str ">")) ⋅ l ">").

Definition string_eqb (a b : list N) : bool :=
  (length a =? length b) && is_prefix a b.

(** [list.includes(x)] *)
Definition includes (xs : list (list N)) (x : list N) : bool :=
  existsb (string_eqb x) xs.

(** [tagName.toLowerCase()]; the tag name is a match of [[a-z][a-z0-9]*]
    under the [i] flag, hence ASCII. *)
Definition toLowerCase (t : list N) : list N := map to_lower t.

(** The callback [(match, tagName) => …] of the last replacement. *)
Definition keepAllowed : replacer :=
  fun matched groups =>
    let tagName := groups 1 in
    if includes allowedTags (toLowerCase tagName) then matched else [].

(** Step 2: remove everything except allowed tags. *)
Definition cleanHtml_step2 (cleaned : list N) : list N :=
  let cleaned := replace scriptPattern [] cleaned in
  let cleaned := replace stylePattern [] cleaned in
  let cleaned := replace commentPattern [] cleaned in
  let cleaned :=
    replace anchorPattern [TLit (str "<a href=" ++ dq); TCap 1; TLit (dq ++ str ">")] cleaned in
  let cleaned := replace attrPattern [TLit (str "<"); TCap 1; TLit (str ">")] cleaned in
  let cleaned := replace divOpenPattern [TLit (str "<p>")] cleaned in
  let cleaned := replace divClosePattern [TLit (str "</p>")] cleaned in
  let cleaned := replace spanOpenPattern [] cleaned in
  let cleaned := replace spanClosePattern [] cleaned in
  let cleaned := replace_with tagPattern keepAllowed cleaned in
  cleaned.

(** [/[ \t]+/g], [/>\s+/g], [/\s+</g] *)
Definition blanksPattern : regexp := re_g (AtLeast 1 (oneof [32%N; 9%N])).
Definition afterTagPattern : regexp := re_g (l ">" ⋅ AtLeast 1 ws).
Definition beforeTagPattern : regexp := re_g (AtLeast 1 ws ⋅ l "<").

(** [/<p><\/p>/gi] and [/<p>\s*<\/p>/gi] *)
Definition emptyParaPattern : regexp := re_gi (l "<p></p>").
Definition blankParaPattern : regexp := re_gi (l "<p>" ⋅ Star true ws ⋅ l "</p>").

(** [/(BR){3,}/gi], where [BR] is [<br\s*\/?>\s*] *)
Definition breaksPattern : regexp :=
  re_gi (AtLeast 3 (Group 1 (l "<br" ⋅ Star true ws ⋅ Opt (l "/") ⋅ l ">" ⋅ Star true ws))).

(** [/(<\/p>\s*<p>)+/gi] *)
Definition paraRunPattern : regexp :=
  re_gi (AtLeast 1 (Group 1 (l "</p>" ⋅ Star true ws ⋅ l "<p>"))).

(** [/<\/p><p>/g], [/<\/h(\d)><p>/g] and [/<\/p><h(\d)>/g] *)
Definition paraParaPattern : regexp := re_g (l "</p><p>").
Definition headParaPattern : regexp := re_g (l "</h" ⋅ Group 1 digit ⋅ l "><p>").
Definition paraHeadPattern : regexp := re_g (l "</p><h" ⋅ Group 1 digit ⋅ l ">").

(** Step 3: clean up whitespace. *)
Definition cleanHtml_step3 (cleaned : list N) : list N :=
  let cleaned := replace blanksPattern [TLit (str " ")] cleaned in
  let cleaned := replace afterTagPattern [TLit (str ">")] cleaned in
  let cleaned := replace beforeTagPattern [TLit (str "<")] cleaned in
  let cleaned := replace emptyParaPattern [] cleaned in
  let cleaned := replace blankParaPattern [] cleaned in
  let cleaned := replace breaksPattern [TLit (str "<br><br>")] cleaned in
  let cleaned := replace paraRunPattern [TLit (str "</p><p>")] cleaned in
  let cleaned := replace paraParaPattern [TLit (str "</p>" ++ nl ++ nl ++ str "<p>")] cleaned in
  let cleaned :=
    replace headParaPattern [TLit (str "</h"); TCap 1; TLit (str ">" ++ nl ++ nl ++ str "<p>")]
      cleaned in
  let cleaned :=
    replace paraHeadPattern [TLit (str "</p>" ++ nl ++ nl ++ str "<h"); TCap 1; TLit (str ">")]
      cleaned in
  cleaned.

(** [/^[^<]*/] *)
Definition leadingPattern : regexp := re_ (Bol ⋅ Star true (notc (str "<"))).

(** Step 4: remove any leading/trailing non-content. *)
Definition cleanHtml_step4 (cleaned : list N) : list N :=
  let cleaned := replace leadingPattern [] cleaned in
  trim cleaned.

Definition cleanHtml (html : list N) : list N :=
  cleanHtml_step4 (cleanHtml_step3 (cleanHtml_step2 (cleanHtml_step1 html))).

(** ** The source: [cleanGoogleDocsHtml] *)

(** [/<body[^>]*>(ALL)<\/body>/i], where [ALL] is [[\s\S]*] *)
Definition bodyPattern : regexp :=
  re_i (l "<body" ⋅ Star true (notc (str ">")) ⋅ l ">" ⋅ Group 1 (Star true any) ⋅ l "</body>").

(** [<TAG[^>]*class=Q[^Q]*WORD[^Q]*Q[^>]*>], with [Q] the double quote: an
    opening tag whose class attribute holds [word]. *)
Definition withClass (tag word : string) : regex :=
  l tag ⋅ Star true (notc (str ">")) ⋅ l "class=" ⋅ Chr DQ ⋅ Star true (notc [DQ])
    ⋅ l word ⋅ Star true (notc [DQ]) ⋅ Chr DQ ⋅ Star true (notc (str ">")) ⋅ l ">".

(** [/<p[^>]*class=…title…[^>]*>[\s\S]*?<\/p>/gi], the same for [h1], and
    [/<div[^>]*class=…doc-content…[^>]*>/gi] *)
Definition titleParaPattern : regexp :=
  re_gi (withClass "<p" "title" ⋅ Star false any ⋅ l "</p>").
Definition titleHeadPattern : regexp :=
  re_gi (withClass "<h1" "title" ⋅ Star false any ⋅ l "</h1>").
Definition docContentPattern : regexp := re_gi (withClass "<div" "doc-content").

Definition cleanGoogleDocsHtml (html : list N) : list N :=
  let content := html in
  let bodyMatch := js_match bodyPattern content in
  let content :=
    match bodyMatch with
    | Some m => mgroup m 1
    | None => content
    end in
  let content := replace titleParaPattern [] content in
  let content := replace titleHeadPattern [] content in
  let content := replace docContentPattern [] content in
  cleanHtml content.

(** ** The source: [extractTitleFromContent] *)

Record TitleExtractionResult : Type :=
  { title : option (list N); contentWithoutTitle : list N }.

(** [/<h1[^>]*>(INNER)<\/h1>/i] and [/<h2[^>]*>(INNER)<\/h2>/i], where
    [INNER] is [[\s\S]*?] *)
Definition h1Pattern : regexp :=
  re_i (l "<h1" ⋅ Star true (notc (str ">")) ⋅ l ">" ⋅ Group 1 (Star false any) ⋅ l "</h1>").
Definition h2Pattern : regexp :=
  re_i (l "<h2" ⋅ Star true (notc (str ">")) ⋅ l ">" ⋅ Group 1 (Star false any) ⋅ l "</h2>").

(** [/<[^>]+>/g] *)
Definition nestedTagPattern : regexp :=
  re_g (l "<" ⋅ AtLeast 1 (notc (str ">")) ⋅ l ">").

(** [/&nbsp;/g], [/&amp;/g], … : a literal entity, everywhere. *)
Definition entity (name : string) : regexp := re_g (l name).

(** The chain of replacements and the [trim] applied to [match[1]]. *)
Definition titleText (titleHtml : list N) : list N :=
  let t := replace nestedTagPattern [] titleHtml in
  let t := replace (entity "&nbsp;") [TLit (str " ")] t in
  let t := replace (entity "&amp;") [TLit (str "&")] t in
  let t := replace (entity "&lt;") [TLit (str "<")] t in
  let t := replace (entity "&gt;") [TLit (str ">")] t in
  let t := replace (entity "&quot;") [TLit dq] t in
  let t := replace (entity "&#39;") [TLit (str "'")] t in
  trim t.

(** [x || null] for a string [x]: the empty string is falsy. *)
Definition or_null (x : list N) : option (list N) :=
  match x with [] => None | _ => Some x end.

Definition extractTitleFromContent (html : list N) : TitleExtractionResult :=
  let h1Match := js_match h1Pattern html in
  let h2Match := js_match h2Pattern html in
  let match_ := orelse h1Match h2Match in
  match match_ with
  | None => {| title := None; contentWithoutTitle := html |}
  | Some m =>
      let titleHtml := mgroup m 1 in
      let title := titleText titleHtml in
      let contentWithoutTitle := trim (replace_str (mstr m) [] html) in
      {| title := or_null title; contentWithoutTitle := contentWithoutTitle |}
  end.

(** ** The source: [extractFrontmatter] *)

(** [/^---\n(INNER)\n---/], where [INNER] is [[\s\S]*?] *)
Definition frontmatterRegex_extract : regexp :=
  re_ (Bol ⋅ l "---" ⋅ LF ⋅ Group 1 (Star false any) ⋅ LF ⋅ l "---").

(** [/^Q|Q$/g], where [Q] is the class of the double and the single quote *)
Definition quotePattern : regexp :=
  re_g (Bol ⋅ oneof [DQ; SQ] ∣ oneof [DQ; SQ] ⋅ Eol).

(** [frontmatter[key] = value] on a plain object, for strings: a new or
    overwritten own property, except that the inherited setter of
    [__proto__] ignores a value that is a string. *)
Definition set_property (key value : list N) (o : gmap (list N) (list N))
    : gmap (list N) (list N) :=
  if string_eqb key (str "__proto__") then o else <[key := value]> o.

(** The body of [for (const line of lines)]. *)
Definition frontmatterLine (frontmatter : gmap (list N) (list N)) (line : list N)
    : gmap (list N) (list N) :=
  match index_of (str ":") line with
  | Some colonIndex =>
      if 0 <? colonIndex then
        let key := trim (take colonIndex line) in
        let value := replace quotePattern [] (trim (drop (colonIndex + 1) line)) in
        set_property key value frontmatter
      else frontmatter
  | None => frontmatter
  end.

Definition extractFrontmatter (content : list N) : option (gmap (list N) (list N)) :=
  match js_match frontmatterRegex_extract content with
  | None => None
  | Some m =>
      let lines := split_on 10 (mgroup m 1) in
      Some (fold_left frontmatterLine lines ∅)
  end.

(** ** The source: [processDocument] *)

(** The content handed to the dispatcher is a string or a [Buffer]. *)
Inductive content : Type :=
  | CString (text : list N)
  | CBuffer (bytes : list N).

(** What a call can throw: the [Error] the dispatcher makes, with its
    message; whatever a collaborator throws; and the [TypeError] of a
    string method called on a [Buffer]. *)
Inductive failure (E : Type) : Type :=
  | Error (message : list N)
  | Thrown (e : E)
  | TypeError.
Arguments Error {E} message.
Arguments Thrown {E} e.
Arguments TypeError {E}.

(** The [UnsupportedFormat] failure: [new Error(`Unsupported file type: ${mimeType}`)]. *)
Definition UnsupportedFormat {E} (mimeType : list N) : failure E :=
  Error (str "Unsupported file type: " ++ mimeType).

Section Dispatcher.
(** The collaborators: [mammoth.convertToHtml({ buffer })] with the
    [value] of its result, [pdfParse(buffer)] with the [text] of its
    result, and [Buffer.prototype.toString]. *)
Variable E : Type.
Variable mammoth_convertToHtml : content -> E + list N.
Variable pdfParse : content -> E + list N.
Variable Buffer_toString : list N -> list N.

Definition toString (c : content) : list N :=
  match c with
  | CString text => text
  | CBuffer bytes => Buffer_toString bytes
  end.

Definition processWordDocument (buffer : content) : failure E + list N :=
  match mammoth_convertToHtml buffer with
  | inl e => inl (Thrown e)
  | inr value => inr (cleanHtml value)
  end.

Definition processPdfDocument (buffer : content) : failure E + list N :=
  match pdfParse buffer with
  | inl e => inl (Thrown e)
  | inr text => inr text
  end.

(** [switch (mimeType)] compares with [===], case by case. *)
Definition processDocument (c : content) (mimeType fileName : list N)
    : failure E + list N :=
  if string_eqb mimeType (str "application/vnd.google-apps.document") then
    match c with
    | CString html => inr (cleanGoogleDocsHtml html)
    | CBuffer _ => inl TypeError
    end
  else if string_eqb mimeType
            (str "application/vnd.openxmlformats-officedocument.wordprocessingml.document")
          || string_eqb mimeType (str "application/msword") then
    processWordDocument c
  else if string_eqb mimeType (str "application/pdf") then
    processPdfDocument c
  else if string_eqb mimeType (str "text/markdown")
          || string_eqb mimeType (str "text/x-markdown") then
    inr (processMarkdown (toString c))
  else if string_eqb mimeType (str "text/plain") then
    inr (toString c)
  else if ends_with fileName (str ".md") then
    inr (processMarkdown (toString c))
  else
    inl (UnsupportedFormat mimeType).
End Dispatcher.
Arguments processWordDocument {E}.
Arguments processPdfDocument {E}.
Arguments processDocument {E}.

(** ** Definitions used by the statements *)

(** The seven content types the dispatcher has a case for. *)
Definition recognizedTypes : list (list N) :=
  map str
    ["application/vnd.google-apps.document";
     "application/vnd.openxmlformats-officedocument.wordprocessingml.document";
     "application/msword";
     "application/pdf";
     "text/markdown";
     "text/x-markdown";
     "text/plain"]%string.

(** [sub] occurs in [s]. *)
Definition contains (s sub : list N) : bool :=
  match index_of sub s with Some _ => true | None => false end.

(** The frontmatter example of the specification:
    three hyphens, [key: v], three hyphens and [Body], one per line. *)
Definition frontmatterExample : list N :=
  str "---" ++ nl ++ str "key: v" ++ nl ++ str "---" ++ nl ++ str "Body".

(** Collaborators that always fail, for closed examples. *)
Definition noConverter : content -> unit + list N := fun _ => inl tt.

(** ** What a pattern matches *)

(** [Matches ci s r i j]: the text of [s] between the indexes [i] and [j]
    is a match of the pattern [r], whatever the order in which the
    matcher tries the alternatives.  An iteration of a loop is taken to
    consume something, as in the matcher. *)
Inductive Matches (ci : bool) (s : list N) : regex -> nat -> nat -> Prop :=
  | M_Eps i : Matches ci s Eps i i
  | M_Chr c d i :
      nth_error s i = Some d -> char_eq ci c d = true -> Matches ci s (Chr c) i (S i)
  | M_Cls neg items d i :
      nth_error s i = Some d -> class_mem ci neg items d = true ->
      Matches ci s (Cls neg items) i (S i)
  | M_Seq a b i j k :
      Matches ci s a i j -> Matches ci s b j k -> Matches ci s (Seq a b) i k
  | M_AltL a b i j : Matches ci s a i j -> Matches ci s (Alt a b) i j
  | M_AltR a b i j : Matches ci s b i j -> Matches ci s (Alt a b) i j
  | M_Star0 g a i : Matches ci s (Star g a) i i
  | M_StarS g a i j k :
      Matches ci s a i j -> i < j -> Matches ci s (Star g a) j k ->
      Matches ci s (Star g a) i k
  | M_AtLeast0 a i k : Matches ci s (Star true a) i k -> Matches ci s (AtLeast 0 a) i k
  | M_AtLeastS n a i j k :
      Matches ci s a i j -> Matches ci s (AtLeast n a) j k ->
      Matches ci s (AtLeast (S n) a) i k
  | M_Opt0 a i : Matches ci s (Opt a) i i
  | M_Opt1 a i j : Matches ci s a i j -> i < j -> Matches ci s (Opt a) i j
  | M_Group n a i j : Matches ci s a i j -> Matches ci s (Group n a) i j
  | M_Bol : Matches ci s Bol 0 0
  | M_Eol : Matches ci s Eol (length s) (length s)
  | M_WordB i :
      xorb (match i with 0 => false | S j => word_at s j end) (word_at s i) = true ->
      Matches ci s WordB i i.

(** ** The words of a pattern *)

(** [Word ci r w]: the text [w], taken on its own, is a match of the
    pattern [r].  Only for patterns without [^], [$] and [\b], which look
    outside the text they match. *)
Inductive Word (ci : bool) : regex -> list N -> Prop :=
  | W_Eps : Word ci Eps []
  | W_Chr c d : char_eq ci c d = true -> Word ci (Chr c) [d]
  | W_Cls neg items d : class_mem ci neg items d = true -> Word ci (Cls neg items) [d]
  | W_Seq a b u v : Word ci a u -> Word ci b v -> Word ci (Seq a b) (u ++ v)
  | W_AltL a b u : Word ci a u -> Word ci (Alt a b) u
  | W_AltR a b u : Word ci b u -> Word ci (Alt a b) u
  | W_Star0 g a : Word ci (Star g a) []
  | W_StarS g a u v :
      Word ci a u -> u <> [] -> Word ci (Star g a) v -> Word ci (Star g a) (u ++ v)
  | W_AtLeast0 a w : Word ci (Star true a) w -> Word ci (AtLeast 0 a) w
  | W_AtLeastS n a u v :
      Word ci a u -> Word ci (AtLeast n a) v -> Word ci (AtLeast (S n) a) (u ++ v)
  | W_Opt0 a : Word ci (Opt a) []
  | W_Opt1 a u : Word ci a u -> u <> [] -> Word ci (Opt a) u
  | W_Group n a u : Word ci a u -> Word ci (Group n a) u.


(** A pattern without [^], [$] and [\b]: whether it matches a piece of
    text does not depend on what is around the piece. *)
Fixpoint local (r : regex) : bool :=
  match r with
  | Eps | Chr _ | Cls _ _ => true
  | Seq a b | Alt a b => local a && local b
  | Star _ a | AtLeast _ a | Opt a | Group _ a => local a
  | Bol | Eol | WordB => false
  end.

(** What the two halves of the correctness of the matcher say of a
    matcher [body] for the pattern [a]: a success is a match followed by
    a success of the continuation; and where there is a match after which
    the continuation succeeds, the matcher succeeds. *)
Definition sound_body (ci : bool) (s : list N) (a : regex)
    (body : mstate -> (mstate -> option mstate) -> option mstate) : Prop :=
  forall x k z, body x k = Some z ->
    exists y, Matches ci s a (pos x) (pos y) /\ k y = Some z.

Definition complete_body (ci : bool) (s : list N) (a : regex)
    (body : mstate -> (mstate -> option mstate) -> option mstate) : Prop :=
  forall i j, Matches ci s a i j ->
  forall x k, pos x = i -> (forall y, pos y = j -> k y <> None) -> body x k <> None.

(** A replacer keeps [P] when its result holds [P] as soon as the
    matched text and the groups do. *)
Definition keeps (P : N -> Prop) (f : replacer) : Prop :=
  forall m g, Forall P m -> (forall i, Forall P (g i)) -> Forall P (f m g).

(** The literal text of a template. *)
Fixpoint template_text (tmpl : list titem) : list N :=
  match tmpl with
  | [] => []
  | TLit t :: tmpl' => t ++ template_text tmpl'
  | TCap _ :: tmpl' => template_text tmpl'
  end.

(** The character [<]. *)
Definition LT : N := 60%N.

(** A sufficient syntactic test that every match of a pattern holds the
    character [<]. *)
Fixpoint needs_lt (r : regex) : bool :=
  match r with
  | Chr c => N.eqb c LT
  | Seq a b => needs_lt a || needs_lt b
  | Alt a b => needs_lt a && needs_lt b
  | AtLeast n a => (0 <? n) && needs_lt a
  | Group _ a => needs_lt a
  | _ => false
  end.


(** [t] starts with the literal text [cs], up to case when [ci] is set:
    what the pattern [lit cs] asks of the input. *)
Fixpoint lit_prefix (ci : bool) (cs t : list N) : bool :=
  match cs, t with
  | [], _ => true
  | c :: cs', d :: t' => char_eq ci c d && lit_prefix ci cs' t'
  | _ :: _, [] => false
  end.

(** [processMarkdown] finds a frontmatter block to remove. *)
Definition stripsBlock (content : list N) : bool :=
  match search frontmatterRegex_strip content with Some _ => true | None => false end.

(** The frontmatter example without anything after the closing hyphens. *)
Definition frontmatterOnly : list N :=
  str "---" ++ nl ++ str "key: v" ++ nl ++ str "---".


(** The rest of a pattern that starts with [^]. *)
Fixpoint after_bol (r : regex) : option regex :=
  match r with
  | Bol => Some Eps
  | Seq a b =>
      match after_bol a with
      | Some a' => Some (Seq a' b)
      | None => None
      end
  | _ => None
  end.


(** ** The markers of the first step *)

(** A marker is a pattern together with its [i] flag. *)
Definition marker : Type := (bool * regex)%type.

(** The global pattern that removes a marker and all that follows. *)
Definition passPattern (m : marker) : regexp := RegExp (to_end (snd m)) true (fst m).

(** The markers of the first step, in the order of its replacements. *)
Definition markers : list marker :=
  (true, hrMarker)
    :: flat_map (fun h => [(true, pMarker h); (true, hMarker h); (true, bMarker h)])
         metaHeadings
    ++ [(false, dashMarker); (false, starMarker)].

(** A marker matches at index [p]. *)
Definition marker_at (s : list N) (m : marker) (p : nat) : bool :=
  match match_at (fst m) s (snd m) p with Some _ => true | None => false end.

Definition any_marker_at (s : list N) (p : nat) : bool :=
  existsb (fun m => marker_at s m p) markers.

(** The first index from [i] on, among [n], where [f] holds; [i + n] when
    there is none. *)
Fixpoint first_index (f : nat -> bool) (n i : nat) : nat :=
  match n with
  | 0 => i
  | S n' => if f i then i else first_index f n' (S i)
  end.

(** The index of the earliest marker of any kind; the length of the input
    when there is none. *)
Definition earliest (s : list N) : nat := first_index (any_marker_at s) (length s) 0.

(** The first step as the specification words it: everything from the
    earliest marker on is removed. *)
Definition truncate_at_earliest (s : list N) : list N := take (earliest s) s.

(** The earliest marker is in the clear: there is no marker at all, or
    some marker matches at the earliest index and no marker starts
    inside that match. *)
Definition clear_span (s : list N) : bool :=
  let e := earliest s in
  (e =? length s)
  || existsb
       (fun m =>
          match match_at (fst m) s (snd m) e with
          | Some y => forallb (fun t => negb (any_marker_at s t)) (seq (S e) (pos y - S e))
          | None => false
          end)
       markers.

(** A sufficient syntactic test that a pattern matches no empty text. *)
Fixpoint nonnull (r : regex) : bool :=
  match r with
  | Chr _ | Cls _ _ => true
  | Seq a b => nonnull a || nonnull b
  | Alt a b => nonnull a && nonnull b
  | AtLeast n a => (0 <? n) && nonnull a
  | Group _ a => nonnull a
  | _ => false
  end.


(** * The other string functions of the application *)

(** ** The source: [generateSlug] ([auto-publish/route.ts] and two more files) *)

(** [/[^a-z0-9\s-]/g], [/\s+/g] and [/-+/g] *)
Definition slugClass : list class_item := [CRange 97 122; CRange 48 57; CSpace; CChar 45].
Definition nonSlugPattern : regexp := re_g (Cls true slugClass).
Definition spacesPattern : regexp := re_g (AtLeast 1 ws).
Definition hyphensPattern : regexp := re_g (AtLeast 1 (Chr 45)).

(** [/\.[^/.]+$/] and [/[^a-z0-9\s]/g] *)
Definition extensionPattern : regexp :=
  re_ (Chr 46 ⋅ AtLeast 1 (Cls true [CChar 47; CChar 46]) ⋅ Eol).
Definition plainClass : list class_item := [CRange 97 122; CRange 48 57; CSpace].
Definition nonPlainPattern : regexp := re_g (Cls true plainClass).

Section CaseMapping.
(** [String.prototype.toLowerCase], which follows the Unicode tables. *)
Variable String_toLowerCase : list N -> list N.

Definition generateSlug (title : list N) : list N :=
  let t := String_toLowerCase title in
  let t := replace nonSlugPattern [] t in
  let t := replace spacesPattern [TLit (str "-")] t in
  let t := replace hyphensPattern [TLit (str "-")] t in
  trim t.

(** [normalizeForComparison] of [google-sheets.ts]. *)
Definition normalizeForComparison (s : list N) : list N :=
  let t := String_toLowerCase s in
  let t := trim t in
  let t := replace extensionPattern [] t in
  let t := replace nonPlainPattern [] t in
  let t := replace spacesPattern [TLit (str " ")] t in
  t.
End CaseMapping.

(** A run of characters with [p] becomes the one character [d]; [in_run]
    tells that the scan is inside a run. *)
Fixpoint squeeze (p : N -> bool) (d : N) (in_run : bool) (s : list N) : list N :=
  match s with
  | [] => []
  | c :: s' =>
      if p c then (if in_run then squeeze p d true s' else d :: squeeze p d true s')
      else c :: squeeze p d false s'
  end.

(** The characters of a slug: [a-z], [0-9] and the hyphen. *)
Definition slug_char (c : N) : bool := is_lower c || is_digit c || N.eqb c 45.

(** The characters of a normalized name: [a-z], [0-9] and the blank. *)
Definition plain_char (c : N) : bool := is_lower c || is_digit c || N.eqb c 32.

(** No two neighbours in [s] both satisfy [p]. *)
Fixpoint no_adjacent (p : N -> bool) (s : list N) : bool :=
  match s with
  | [] => true
  | c :: t =>
      match t with
      | c' :: _ => negb (p c && p c')
      | [] => true
      end && no_adjacent p t
  end.

Definition is_hyphen (c : N) : bool := N.eqb 45 c.

(** ** The source: [extractDriveFileId] ([google-drive.ts]) *)

(** [[a-zA-Z0-9_-]] *)
Definition idClass : list class_item :=
  [CRange 97 122; CRange 65 90; CRange 48 57; CChar 95; CChar 45].

(** [/\/file\/d\/(ID)/], [/\/open\?id=(ID)/] and [/[?&]id=(ID)/], where
    [ID] is [[a-zA-Z0-9_-]+]; and [/^[a-zA-Z0-9_-]{20,}$/] *)
Definition fileIdPattern : regexp :=
  re_ (l "/file/d/" ⋅ Group 1 (AtLeast 1 (Cls false idClass))).
Definition openIdPattern : regexp :=
  re_ (l "/open?id=" ⋅ Group 1 (AtLeast 1 (Cls false idClass))).
Definition queryIdPattern : regexp :=
  re_ (oneof (str "?&") ⋅ l "id=" ⋅ Group 1 (AtLeast 1 (Cls false idClass))).
Definition rawIdPattern : regexp :=
  re_ (Bol ⋅ AtLeast 20 (Cls false idClass) ⋅ Eol).

(** [rx.test(s)] for a pattern without [g]. *)
Definition test (rx : regexp) (s : list N) : bool :=
  match search rx s with Some _ => true | None => false end.

Definition extractDriveFileId (driveUrl : list N) : option (list N) :=
  match driveUrl with
  | [] => None
  | _ =>
      match js_match fileIdPattern driveUrl with
      | Some fileMatch => Some (mgroup fileMatch 1)
      | None =>
          match js_match openIdPattern driveUrl with
          | Some openMatch => Some (mgroup openMatch 1)
          | None =>
              match js_match queryIdPattern driveUrl with
              | Some queryMatch => Some (mgroup queryMatch 1)
              | None =>
                  if test rawIdPattern (trim driveUrl) then Some (trim driveUrl)
                  else None
              end
          end
      end
  end.

(** The characters of a file id. *)
Definition id_char (c : N) : bool :=
  is_lower c || is_upper c || is_digit c || N.eqb c 95 || N.eqb c 45.

(** A sufficient syntactic test that every match of a pattern, taken
    without the [i] flag, holds a character outside [p]. *)
Fixpoint needs_outside (p : N -> bool) (r : regex) : bool :=
  match r with
  | Chr c => negb (p c)
  | Cls false items =>
      forallb (fun it => match it with CChar c => negb (p c) | _ => false end) items
  | Seq a b => needs_outside p a || needs_outside p b
  | Alt a b => needs_outside p a && needs_outside p b
  | AtLeast n a => (0 <? n) && needs_outside p a
  | Group _ a => needs_outside p a
  | _ => false
  end.

(** The usual link to a file of the drive, up to the id. *)
Definition driveFileLink : list N := str "https://drive.google.com/file/d/".

(** ** The source: the rows of the sheet ([google-sheets.ts]) *)

Module Sheets.

Record SheetRow : Type :=
  { rowIndex : nat;
    blogPost : list N;
    title : list N;
    category : list N;
    metaTitle : list N;
    metaDescription : list N;
    slug : list N;
    primaryKeyword : list N;
    featuredImageAlt : list N;
    status : list N;
    postDate : list N;
    blogLink : list N;
    photoLink : list N;
    wordpressId : list N }.

(** [row[i] || '']: a cell that is missing reads as the empty string. *)
Definition cell (row : list (list N)) (i : nat) : list N := nth i row [].

(** The callback [(row, index) => ({ … })] of [getContentRepoData]. *)
Definition toSheetRow (row : list (list N)) (index : nat) : SheetRow :=
  {| rowIndex := index + 2;
     blogPost := cell row 0;
     title := cell row 1;
     category := cell row 2;
     metaTitle := cell row 3;
     metaDescription := cell row 4;
     slug := cell row 5;
     primaryKeyword := cell row 6;
     featuredImageAlt := cell row 7;
     status := cell row 8;
     postDate := cell row 9;
     blogLink := cell row 10;
     photoLink := cell row 11;
     wordpressId := cell row 12 |}.

(** [xs.map((x, index) => f(x, index))], counting from [i]. *)
Fixpoint map_index {A B} (f : A -> nat -> B) (i : nat) (xs : list A) : list B :=
  match xs with
  | [] => []
  | x :: xs' => f x i :: map_index f (S i) xs'
  end.

Definition fetchFailed : list N :=
  str "Failed to fetch data from Google Sheets. Make sure you have access to the Content Repo.".

(** [getContentRepoData], given what [sheets.spreadsheets.values.get]
    answers: a failure, or [response.data.values], which can be missing. *)
Definition getContentRepoData {E} (response : E + option (list (list (list N))))
    : failure E + list SheetRow :=
  match response with
  | inl _ => inl (Error fetchFailed)
  | inr values =>
      let rows := match values with Some rows => rows | None => [] end in
      if length rows <=? 1 then inr []
      else inr (map_index toSheetRow 0 (drop 1 rows))
  end.

Section FindRow.
Variable String_toLowerCase : list N -> list N.

(** [normalizeForComparison] with the case mapping at hand. *)
Definition normalize : list N -> list N := normalizeForComparison String_toLowerCase.

(** [findRowByDocumentName], given the same answer of the sheet. *)
Definition findRowByDocumentName {E} (response : E + option (list (list (list N))))
    (documentName : list N) : failure E + option SheetRow :=
  match getContentRepoData response with
  | inl e => inl e
  | inr rows =>
      let normalizedName := normalize documentName in
      let match_ := find (fun row => string_eqb (normalize (blogPost row)) normalizedName) rows in
      match match_ with
      | Some row => inr (Some row)
      | None =>
      let match_ := find (fun row => string_eqb (normalize (title row)) normalizedName) rows in
      match match_ with
      | Some row => inr (Some row)
      | None =>
      let match_ :=
        find (fun row => contains (normalize (blogPost row)) normalizedName
                         || contains normalizedName (normalize (blogPost row))) rows in
      match match_ with
      | Some row => inr (Some row)
      | None =>
      let match_ :=
        find (fun row => contains (normalize (title row)) normalizedName
                         || contains normalizedName (normalize (title row))) rows in
      inr match_
      end end end
  end.
End FindRow.

End Sheets.

(** ** Definitions used by the further statements *)

(** The length of the longest prefix of [t] whose characters satisfy [p]. *)
Fixpoint run (p : N -> bool) (t : list N) : nat :=
  match t with
  | c :: t' => if p c then S (run p t') else 0
  | [] => 0
  end.

(** The opening and the closing line of a frontmatter block. *)
Definition OPENING : list N := str "---" ++ nl.
Definition CLOSING : list N := nl ++ str "---" ++ nl.

(** Where a leading frontmatter block ends, told without patterns: the
    text starts with the opening line, and the block runs to the end of
    the first closing line that begins after the opening line. *)
Definition frontmatterEnd (content : list N) : option nat :=
  if is_prefix OPENING content then
    match index_of CLOSING (drop (length OPENING) content) with
    | Some j => Some (length OPENING + j + length CLOSING)
    | None => None
    end
  else None.

(** A character other than [<]. *)
Definition not_lt (c : N) : bool := negb (N.eqb LT c).

(** The lines that [extractFrontmatter] reads, told without patterns: the
    text between the opening line and the first line feed after it that
    is followed by three hyphens. *)
Definition frontmatterInner (content : list N) : option (list N) :=
  if is_prefix OPENING content then
    match index_of (nl ++ str "---") (drop (length OPENING) content) with
    | Some j => Some (take j (drop (length OPENING) content))
    | None => None
    end
  else None.

(** A marker that does not look around its match and matches no empty
    text, as every marker of the first step is. *)
Definition marker_ok (m : marker) : bool := local (snd m) && nonnull (snd m).

(** ** The order of the replacements of the first step *)

(** No marker of [before] matches at an index strictly between [e] and [q]. *)
Definition free_between (s : list N) (before : list marker) (e q : nat) : bool :=
  forallb (fun t => negb (existsb (fun m => marker_at s m t) before))
    (seq (S e) (q - S e)).

(** Some marker of [ms] matches at [e], and none of the markers whose
    replacement runs before its own matches strictly inside that match;
    [before] holds the markers ahead of [ms], in order. *)
Fixpoint unobstructed_in (s : list N) (e : nat) (before ms : list marker) : bool :=
  match ms with
  | [] => false
  | M :: rest =>
      match match_at (fst M) s (snd M) e with
      | Some y => free_between s before e (pos y)
      | None => false
      end
      || unobstructed_in s e (before ++ [M]) rest
  end.

(** The earliest marker is not obstructed: there is no marker at all, or
    a marker matches at the earliest index whose match no replacement that
    runs earlier cuts into. *)
Definition unobstructed (s : list N) : bool :=
  (earliest s =? length s) || unobstructed_in s (earliest s) [] markers.

(** The two examples of the first step: the one of the specification and
    a paragraph with a label whose tag holds the start of an [hr] tag. *)
Definition metaExample : list N := str "<p>Intro</p><hr><p>SEO Title: X</p>".
Definition obstructedExample : list N := str "<p>a</p><p title='<hr'>Notes</p>".

(** ** The title text, told without patterns *)








(** * Properties *)

(** ** Strings *)

Lemma is_prefix_spec (p s : list N) :
  is_prefix p s = true <-> exists t, s = p ++ t.
Proof.
  revert s. induction p as [|a p IH]; intros s; simpl.
  - split; [intros _; now exists s | reflexivity].
  - destruct s as [|b s].
    + split; [discriminate | intros [t Ht]; discriminate].
    + rewrite andb_true_iff, N.eqb_eq, IH. split.
      * intros [-> [t ->]]. now exists t.
      * intros [t Ht]. injection Ht as -> ->. split; [reflexivity | now exists t].
Qed.

Lemma drop_nth_error (s : list N) i c :
  nth_error s i = Some c -> drop i s = c :: drop (S i) s.
Proof.
  revert i. induction s as [|d s IH]; intros [|i] H; simpl in *; try discriminate.
  - now injection H as ->.
  - now apply IH.
Qed.

Lemma string_eqb_eq (a b : list N) : string_eqb a b = true <-> a = b.
Proof.
  unfold string_eqb. rewrite andb_true_iff, Nat.eqb_eq, is_prefix_spec. split.
  - intros [Hlen [t ->]]. rewrite length_app in Hlen.
    destruct t; [now rewrite app_nil_r | simpl in Hlen; lia].
  - intros ->. split; [reflexivity | exists []; now rewrite app_nil_r].
Qed.

Lemma string_eqb_neq (a b : list N) : string_eqb a b = false <-> a <> b.
Proof.
  rewrite <- string_eqb_eq. destruct (string_eqb a b); split; congruence.
Qed.

(** ** The matcher and the relation *)

Lemma orelse_some {A} (a b : option A) (z : A) :
  orelse a b = Some z -> a = Some z \/ (a = None /\ b = Some z).
Proof. destruct a; simpl; intros H; [now left | now right]. Qed.

Lemma orelse_not_none {A} (a b : option A) :
  orelse a b <> None <-> a <> None \/ b <> None.
Proof.
  destruct a; simpl.
  - split; [intros _; left; discriminate | intros _; discriminate].
  - split; [intros H; now right | intros [H|H]; [congruence | exact H]].
Qed.

Lemma orelse_none {A} (a b : option A) :
  orelse a b = None <-> a = None /\ b = None.
Proof.
  destruct a; simpl.
  - split; [discriminate | intros [H _]; discriminate].
  - split; [intros H; now split | intros [_ H]; exact H].
Qed.

Section MatcherFacts.
Variable ci : bool.
Variable s : list N.

Lemma nth_error_lt (d : N) i : nth_error s i = Some d -> i < length s.
Proof. intros H. apply nth_error_Some. congruence. Qed.

Lemma Matches_le r i j :
  Matches ci s r i j -> i <= j /\ (i < j -> j <= length s).
Proof.
  induction 1;
    repeat match goal with
    | H : _ /\ _ |- _ => destruct H
    | H : nth_error s _ = Some _ |- _ => apply nth_error_lt in H
    end;
    split; lia.
Qed.

Lemma Matches_le1 r i j : Matches ci s r i j -> i <= j.
Proof. intros H. now apply Matches_le in H. Qed.

Lemma Matches_le2 r i j : Matches ci s r i j -> i <= length s -> j <= length s.
Proof. intros H Hi. apply Matches_le in H. lia. Qed.

(** *** Soundness: a success of the matcher is a match *)

Lemma star_loop_sound a g body :
  sound_body ci s a body ->
  forall n x k z, star_loop body g k n x = Some z ->
    exists y, Matches ci s (Star g a) (pos x) (pos y) /\ k y = Some z.
Proof.
  intros Hbody. induction n as [|n IH]; intros x k z H; simpl in H.
  - exists x. split; [constructor | exact H].
  - assert (Hiter : forall z,
      body x (fun y => if pos y =? pos x then None else star_loop body g k n y) = Some z ->
      exists y, Matches ci s (Star g a) (pos x) (pos y) /\ k y = Some z).
    { intros z' Hz. apply Hbody in Hz as [y [Hm Hy]].
      destruct (pos y =? pos x) eqn:He; [discriminate|].
      apply Nat.eqb_neq in He. apply IH in Hy as [y' [Hm' Hy']].
      exists y'. split; [|exact Hy'].
      apply M_StarS with (pos y); auto. apply Matches_le1 in Hm. lia. }
    destruct g; apply orelse_some in H as [H|[_ H]]; auto;
      exists x; (split; [constructor | exact H]).
Qed.

Lemma rep_loop_sound a body :
  sound_body ci s a body ->
  forall m x k z, rep_loop s body k m x = Some z ->
    exists y, Matches ci s (AtLeast m a) (pos x) (pos y) /\ k y = Some z.
Proof.
  intros Hbody. induction m as [|m IH]; intros x k z H; simpl in H.
  - apply (star_loop_sound a true body Hbody) in H as [y [Hm Hy]].
    exists y. split; [now constructor | exact Hy].
  - apply Hbody in H as [y [Hm Hy]]. apply IH in Hy as [y' [Hm' Hy']].
    exists y'. split; [econstructor; eauto | exact Hy'].
Qed.

Lemma step_if_some p x k z :
  step_if s p x k = Some z ->
  exists d, nth_error s (pos x) = Some d /\ p d = true /\ k (advance x) = Some z.
Proof.
  unfold step_if, char_at. destruct (nth_error s (pos x)) as [d|]; [|discriminate].
  destruct (p d) eqn:Hp; [|discriminate]. intros H. now exists d.
Qed.

Theorem rmatch_sound r : sound_body ci s r (rmatch ci s r).
Proof.
  induction r; intros x k z H; simpl in H.
  - exists x. split; [constructor | exact H].
  - apply step_if_some in H as [d [Hd [Hp Hk]]].
    exists (advance x). split; [econstructor; eauto | exact Hk].
  - apply step_if_some in H as [d [Hd [Hp Hk]]].
    exists (advance x). split; [econstructor; eauto | exact Hk].
  - apply IHr1 in H as [y [Hm Hy]]. apply IHr2 in Hy as [y' [Hm' Hy']].
    exists y'. split; [econstructor; eauto | exact Hy'].
  - apply orelse_some in H as [H|[_ H]].
    + apply IHr1 in H as [y [Hm Hy]]. exists y. split; [now apply M_AltL | exact Hy].
    + apply IHr2 in H as [y [Hm Hy]]. exists y. split; [now apply M_AltR | exact Hy].
  - now apply (star_loop_sound r greedy _ IHr) in H.
  - now apply (rep_loop_sound r _ IHr) in H.
  - apply orelse_some in H as [H|[_ H]].
    + apply IHr in H as [y [Hm Hy]].
      destruct (pos y =? pos x) eqn:He; [discriminate|].
      apply Nat.eqb_neq in He. exists y. split; [|exact Hy].
      apply M_Opt1; auto. apply Matches_le1 in Hm. lia.
    + exists x. split; [constructor | exact H].
  - apply IHr in H as [y [Hm Hy]]. exists (set_cap i (pos x) y).
    split; [now constructor | exact Hy].
  - destruct (pos x =? 0) eqn:He; [|discriminate]. apply Nat.eqb_eq in He.
    exists x. rewrite He. split; [constructor | exact H].
  - destruct (pos x =? length s) eqn:He; [|discriminate]. apply Nat.eqb_eq in He.
    exists x. rewrite He. split; [constructor | exact H].
  - match type of H with (if ?c then _ else _) = _ => destruct c eqn:He end;
      [|discriminate].
    exists x. split; [now constructor | exact H].
Qed.

(** *** Completeness: where there is a match the matcher succeeds *)

Lemma star_loop_complete a body :
  complete_body ci s a body ->
  forall g i j, Matches ci s (Star g a) i j ->
  forall n x c, pos x = i -> length s - i <= n ->
    (forall y, pos y = j -> c y <> None) -> star_loop body g c n x <> None.
Proof.
  intros Hb g i j H. remember (Star g a) as r eqn:Er.
  induction H; inversion Er; subst; clear Er; intros n x c Hx Hn Hc.
  - destruct n; simpl; [now apply Hc|].
    destruct g; apply orelse_not_none; [right|left]; now apply Hc.
  - pose proof (Matches_le _ _ _ H) as [_ Hj].
    destruct n as [|n]; [lia|]. simpl.
    assert (Hiter :
      body x (fun y => if pos y =? pos x then None else star_loop body g c n y) <> None).
    { apply (Hb _ _ H); [exact Hx|]. intros y Hy. rewrite Hy, Hx.
      destruct (j =? i) eqn:He; [apply Nat.eqb_eq in He; lia|].
      apply IHMatches2; auto. lia. }
    destruct g; apply orelse_not_none; [left|right]; exact Hiter.
Qed.

Lemma rep_loop_complete a body :
  complete_body ci s a body ->
  forall m i j, Matches ci s (AtLeast m a) i j ->
  forall x k, pos x = i -> (forall y, pos y = j -> k y <> None) ->
    rep_loop s body k m x <> None.
Proof.
  intros Hb. induction m as [|m IH]; intros i j H x k Hx Hk; inversion H; subst; simpl.
  - eapply star_loop_complete; eauto.
  - eapply Hb; eauto; intros y Hy; eapply IH; eauto.
Qed.

Lemma step_if_not_none p x k d :
  nth_error s (pos x) = Some d -> p d = true -> k (advance x) <> None ->
  step_if s p x k <> None.
Proof. unfold step_if, char_at. intros -> -> H. exact H. Qed.

Theorem rmatch_complete r : complete_body ci s r (rmatch ci s r).
Proof.
  induction r; intros i' j' H x k Hx Hk; simpl.
  - inversion H; subst. now apply Hk.
  - inversion H; subst. eapply step_if_not_none; eauto.
  - inversion H; subst. eapply step_if_not_none; eauto.
  - inversion H; subst. eapply IHr1; eauto; intros y Hy; eapply IHr2; eauto.
  - inversion H; subst; apply orelse_not_none;
      [left; eapply IHr1 | right; eapply IHr2]; eauto.
  - subst i'. eapply star_loop_complete; eauto.
  - eapply rep_loop_complete; eauto.
  - inversion H; subst; apply orelse_not_none.
    + right. now apply Hk.
    + left. eapply IHr; eauto. intros y Hy. rewrite Hy.
      destruct (j' =? pos x) eqn:He; [apply Nat.eqb_eq in He; lia|].
      now apply Hk.
  - inversion H; subst. eapply IHr; eauto.
  - inversion H; subst.
    replace (pos x =? 0) with true by (symmetry; apply Nat.eqb_eq; congruence).
    now apply Hk.
  - inversion H; subst.
    replace (pos x =? length s) with true by (symmetry; apply Nat.eqb_eq; congruence).
    now apply Hk.
  - inversion H; subst.
    match goal with Hw : xorb _ _ = true |- _ => rewrite Hw end. now apply Hk.
Qed.

(** The two together, for one attempt at an index. *)
Lemma match_at_sound r i y :
  match_at ci s r i = Some y -> Matches ci s r i (pos y).
Proof.
  unfold match_at. intros H. apply rmatch_sound in H as [y' [Hm Hy]].
  injection Hy as ->. exact Hm.
Qed.

Lemma match_at_complete r i j :
  Matches ci s r i j -> match_at ci s r i <> None.
Proof.
  intros H. unfold match_at.
  apply (rmatch_complete r i j H); [reflexivity | discriminate].
Qed.

Lemma match_at_none r i :
  match_at ci s r i = None <-> forall j, ~ Matches ci s r i j.
Proof.
  split.
  - intros Hn j Hm. now apply match_at_complete in Hm.
  - intros Hn. destruct (match_at ci s r i) as [y|] eqn:He; [|reflexivity].
    apply match_at_sound in He. now apply Hn in He.
Qed.


End MatcherFacts.

(** ** Where the characters of a replacement come from *)

Section Origin.
Variable P : N -> Prop.

Lemma Forall_substring s from to : Forall P s -> Forall P (substring s from to).
Proof. intros H. unfold substring. now apply Forall_take, Forall_drop. Qed.

Lemma Forall_char_list s i : Forall P s -> Forall P (char_list s i).
Proof.
  intros H. unfold char_list. destruct (nth_error s i) as [c|] eqn:E; [|constructor].
  constructor; [|constructor]. rewrite Forall_forall in H. apply H.
  apply list_elem_of_In. eapply nth_error_In; eauto.
Qed.

Lemma Forall_group_text s y i : Forall P s -> Forall P (group_text s y i).
Proof.
  intros H. unfold group_text. destruct (find_cap i (caps y)) as [[from to]|];
    [now apply Forall_substring | constructor].
Qed.

Lemma replace_loop_Forall rx f s :
  keeps P f -> Forall P s -> forall n i, Forall P (replace_loop rx f s n i).
Proof.
  intros Hf Hs. induction n as [|n IH]; intros i; simpl; [constructor|].
  destruct (length s <? i); [constructor|].
  destruct (exec_at rx s i) as [y|].
  - apply Forall_app. split.
    + apply Hf; [now apply Forall_substring | intros j; now apply Forall_group_text].
    + destruct (pos y <=? i); [|apply IH].
      apply Forall_app. split; [now apply Forall_char_list | apply IH].
  - apply Forall_app. split; [now apply Forall_char_list | apply IH].
Qed.

Lemma replace_with_Forall rx f s :
  keeps P f -> Forall P s -> Forall P (replace_with rx f s).
Proof.
  intros Hf Hs. unfold replace_with. destruct (global rx).
  - now apply replace_loop_Forall.
  - destruct (search rx s) as [[i y]|]; [|exact Hs].
    apply Forall_app. split; [now apply Forall_take|].
    apply Forall_app. split; [|now apply Forall_drop].
    apply Hf; [now apply Forall_substring | intros j; now apply Forall_group_text].
Qed.

Lemma expand_keeps tmpl : Forall P (template_text tmpl) -> keeps P (expand tmpl).
Proof.
  intros Ht m g Hm Hg. induction tmpl as [|[t|i] tmpl IH]; simpl in *.
  - constructor.
  - apply Forall_app in Ht as [Ht1 Ht2]. apply Forall_app. split; auto.
  - apply Forall_app. split; auto.
Qed.

Lemma replace_Forall rx tmpl s :
  Forall P (template_text tmpl) -> Forall P s -> Forall P (replace rx tmpl s).
Proof. intros Ht Hs. apply replace_with_Forall; [now apply expand_keeps | exact Hs]. Qed.

Lemma trim_start_Forall s : Forall P s -> Forall P (trim_start s).
Proof.
  induction 1 as [|c s Hc Hs IH]; simpl; [constructor|].
  destruct (is_space c); [exact IH | now constructor].
Qed.

Lemma trim_Forall s : Forall P s -> Forall P (trim s).
Proof.
  intros H. unfold trim, trim_end.
  apply Forall_rev, trim_start_Forall, Forall_rev, trim_start_Forall, H.
Qed.
End Origin.


(** ** Patterns that cannot match *)

Lemma char_eq_LT ci d : char_eq ci LT d = true -> d = LT.
Proof.
  unfold char_eq. destruct ci; [|intros H; apply N.eqb_eq in H; congruence].
  unfold to_upper. change (is_lower LT) with false. cbv iota.
  destruct (is_lower d) eqn:E; intros H; apply N.eqb_eq in H; [|congruence].
  unfold is_lower, in_range in E. apply andb_true_iff in E as [E1 E2].
  apply N.leb_le in E1, E2. unfold LT in *. lia.
Qed.

Lemma needs_lt_sound ci s r i j :
  needs_lt r = true -> Matches ci s r i j -> In LT s.
Proof.
  intros Hn Hm. induction Hm; simpl in Hn; try discriminate;
    repeat match goal with
    | H : _ || _ = true |- _ => apply orb_true_iff in H as [H|H]
    | H : _ && _ = true |- _ => apply andb_true_iff in H as [? ?]
    end; auto.
  apply N.eqb_eq in Hn. subst c. apply char_eq_LT in H0. subst d.
  eapply nth_error_In; eauto.
Qed.

Lemma replace_loop_no_match rx f s :
  (forall i, exec_at rx s i = None) ->
  forall n i, i <= length s -> S (length s) <= n + i ->
    replace_loop rx f s n i = drop i s.
Proof.
  intros Hno. induction n as [|n IH]; intros i Hi Hn; [lia|]. simpl.
  destruct (length s <? i) eqn:Hg; [apply Nat.ltb_lt in Hg; lia|].
  rewrite Hno. unfold char_list.
  destruct (nth_error s i) as [c|] eqn:Hc.
  - rewrite IH; [| apply nth_error_lt in Hc; lia | lia].
    now rewrite (drop_nth_error _ _ _ Hc).
  - apply nth_error_None in Hc. assert (i = length s) by lia. subst i.
    rewrite drop_all. destruct n; simpl; [reflexivity|].
    now rewrite (proj2 (Nat.ltb_lt (length s) (S (length s))) (Nat.lt_succ_diag_r _)).
Qed.

Lemma search_from_no_match rx s :
  (forall i, exec_at rx s i = None) -> forall n i, search_from rx s n i = None.
Proof. intros Hno. induction n; intros i; simpl; rewrite Hno; auto. Qed.

Lemma search_from_here rx s n i y :
  exec_at rx s i = Some y -> search_from rx s n i = Some (i, y).
Proof. intros H. destruct n; simpl; now rewrite H. Qed.

Lemma replace_with_no_match rx f s :
  (forall i, exec_at rx s i = None) -> replace_with rx f s = s.
Proof.
  intros Hno. unfold replace_with. destruct (global rx).
  - rewrite replace_loop_no_match; auto; lia.
  - unfold search. now rewrite search_from_no_match.
Qed.

Lemma replace_with_needs_lt rx f s :
  needs_lt (source rx) = true -> ~ In LT s -> replace_with rx f s = s.
Proof.
  intros Hn Hs. apply replace_with_no_match. intros i.
  apply match_at_none. intros j Hm. apply Hs. eapply needs_lt_sound; eauto.
Qed.


(** ** A greedy loop over a class takes all it can *)

Lemma star_loop_class_all (s : list N) (p : N -> bool) :
  forall n x,
    pos x <= length s -> length s - pos x <= n ->
    (forall t d, pos x <= t -> nth_error s t = Some d -> p d = true) ->
    star_loop (step_if s p) true Some n x = Some (MState (length s) (caps x)).
Proof.
  induction n as [|n IH]; intros x Hx Hn Hall; simpl.
  - destruct x as [i cs]. simpl in *. f_equal. f_equal. lia.
  - unfold step_if at 1, char_at. destruct (nth_error s (pos x)) as [d|] eqn:Hd.
    + rewrite (Hall (pos x) d (Nat.le_refl _) Hd). cbv beta iota.
      change (pos (advance x)) with (S (pos x)).
      replace (S (pos x) =? pos x) with false by (symmetry; apply Nat.eqb_neq; lia).
      apply nth_error_lt in Hd.
      rewrite IH; cbn [advance pos caps]; [reflexivity | lia | lia |].
      intros t d' Ht. apply Hall. lia.
    + apply nth_error_None in Hd. simpl.
      destruct x as [i cs]. simpl in *. f_equal. f_equal. lia.
Qed.

Lemma class_mem_not1 ci c d : class_mem ci true [CChar c] d = negb (char_eq ci c d).
Proof. unfold class_mem. cbn [existsb item_mem]. now rewrite orb_false_r. Qed.

Lemma leadingPattern_all (s : list N) :
  ~ In LT s -> exec_at leadingPattern s 0 = Some (MState (length s) []).
Proof.
  intros Hs.
  change (exec_at leadingPattern s 0)
    with (star_loop (step_if s (class_mem false true [CChar LT])) true Some
            (length s - 0) (MState 0 [])).
  rewrite star_loop_class_all; [reflexivity | simpl; lia | simpl; lia |].
  intros t d _ Hd. rewrite class_mem_not1. unfold char_eq.
  apply negb_true_iff, N.eqb_neq. intros <-. apply Hs. eapply nth_error_In; eauto.
Qed.

Lemma cleanHtml_step4_no_lt (s : list N) : ~ In LT s -> cleanHtml_step4 s = [].
Proof.
  intros Hs. unfold cleanHtml_step4, replace, replace_with.
  change (global leadingPattern) with false. cbv iota.
  assert (Hsearch : search leadingPattern s = Some (0, MState (length s) [])).
  { apply search_from_here, leadingPattern_all, Hs. }
  rewrite Hsearch. cbn [pos expand take]. rewrite drop_all. reflexivity.
Qed.

(** ** Text without [<] through the steps of [cleanHtml] *)

Lemma no_lt_Forall (s : list N) : ~ In LT s <-> Forall (fun c => c <> LT) s.
Proof.
  rewrite Forall_forall. split.
  - intros H c Hc ->. apply H. now apply list_elem_of_In.
  - intros H Hin. apply (H LT); [now apply list_elem_of_In | reflexivity].
Qed.

Lemma replace_no_lt rx tmpl s :
  ~ In LT (template_text tmpl) -> ~ In LT s -> ~ In LT (replace rx tmpl s).
Proof. rewrite !no_lt_Forall. apply replace_Forall. Qed.

Lemma replace_needs_lt rx tmpl s :
  needs_lt (source rx) = true -> ~ In LT s -> replace rx tmpl s = s.
Proof. apply replace_with_needs_lt. Qed.

Lemma no_lt_nil : ~ In LT (template_text []).
Proof. intros []. Qed.

Lemma removeMetaHeading_no_lt s h : ~ In LT s -> ~ In LT (removeMetaHeading s h).
Proof.
  intros H. unfold removeMetaHeading.
  apply replace_no_lt; [exact no_lt_nil|].
  apply replace_no_lt; [exact no_lt_nil|].
  apply replace_no_lt; [exact no_lt_nil | exact H].
Qed.

Lemma fold_left_preserves {A B} (Q : A -> Prop) (f : A -> B -> A) (l : list B) :
  (forall a b, Q a -> Q (f a b)) -> forall a, Q a -> Q (fold_left f l a).
Proof.
  intros Hf. induction l as [|b l IH]; intros a Ha; simpl; auto.
Qed.

Lemma removeMetaHeadings_no_lt hs s :
  ~ In LT s -> ~ In LT (fold_left removeMetaHeading hs s).
Proof.
  apply (fold_left_preserves (fun s => ~ In LT s)). intros a b.
  apply removeMetaHeading_no_lt.
Qed.

Lemma cleanHtml_step1_no_lt s : ~ In LT s -> ~ In LT (cleanHtml_step1 s).
Proof.
  intros H. unfold cleanHtml_step1.
  apply replace_no_lt; [exact no_lt_nil|].
  apply replace_no_lt; [exact no_lt_nil|].
  apply removeMetaHeadings_no_lt.
  apply replace_no_lt; [exact no_lt_nil | exact H].
Qed.

Lemma cleanHtml_step2_no_lt s : ~ In LT s -> cleanHtml_step2 s = s.
Proof.
  intros H. unfold cleanHtml_step2.
  repeat match goal with
  | |- context [replace ?rx ?t s] =>
      rewrite (replace_needs_lt rx t s) by (reflexivity || exact H)
  end.
  now apply replace_with_needs_lt.
Qed.

Lemma cleanHtml_step3_no_lt s : ~ In LT s -> ~ In LT (cleanHtml_step3 s).
Proof.
  intros H. unfold cleanHtml_step3.
  assert (H1 : ~ In LT (replace blanksPattern [TLit (str " ")] s)).
  { apply replace_no_lt; auto. vm_compute. intuition discriminate. }
  assert (H2 : ~ In LT (replace afterTagPattern [TLit (str ">")]
                          (replace blanksPattern [TLit (str " ")] s))).
  { apply replace_no_lt; auto. vm_compute. intuition discriminate. }
  revert H2. generalize (replace afterTagPattern [TLit (str ">")]
                           (replace blanksPattern [TLit (str " ")] s)).
  intros t Ht.
  repeat match goal with
  | |- context [replace ?rx ?tm t] =>
      rewrite (replace_needs_lt rx tm t) by (reflexivity || exact Ht)
  end.
  exact Ht.
Qed.


(** ** Searching *)

Lemma search_from_none rx s n i :
  search_from rx s n i = None <-> forall t, i <= t <= i + n -> exec_at rx s t = None.
Proof.
  revert i. induction n as [|n IH]; intros i; simpl.
  - destruct (exec_at rx s i) eqn:E.
    + split; [discriminate|]. intros H.
      assert (exec_at rx s i = None) by (apply H; lia). congruence.
    + split; [|reflexivity]. intros _ t Ht. now replace t with i by lia.
  - destruct (exec_at rx s i) eqn:E.
    + split; [discriminate|]. intros H.
      assert (exec_at rx s i = None) by (apply H; lia). congruence.
    + rewrite IH. split; intros H t Ht.
      * destruct (Nat.eq_dec t i) as [->|Hne]; [exact E | apply H; lia].
      * apply H. lia.
Qed.

Lemma search_from_some rx s n i p y :
  search_from rx s n i = Some (p, y) ->
  i <= p <= i + n /\ exec_at rx s p = Some y
  /\ forall t, i <= t < p -> exec_at rx s t = None.
Proof.
  revert i. induction n as [|n IH]; intros i; simpl.
  - destruct (exec_at rx s i) eqn:E; [|discriminate].
    intros H. injection H as <- <-. repeat split; try lia; auto.
  - destruct (exec_at rx s i) eqn:E.
    + intros H. injection H as <- <-. repeat split; try lia; auto.
    + intros H. apply IH in H as [Hp [Hy Hno]]. repeat split; try lia; auto.
      intros t Ht. destruct (Nat.eq_dec t i) as [->|Hne]; [exact E | apply Hno; lia].
Qed.

Lemma search_none rx s :
  search rx s = None <-> forall t, t <= length s -> exec_at rx s t = None.
Proof.
  unfold search. rewrite search_from_none. split; intros H t Ht; apply H; lia.
Qed.

Lemma search_some rx s p y :
  search rx s = Some (p, y) ->
  p <= length s /\ exec_at rx s p = Some y /\ forall t, t < p -> exec_at rx s t = None.
Proof.
  unfold search. intros H. apply search_from_some in H as [Hp [Hy Hno]].
  repeat split; try lia; auto. intros t Ht. apply Hno. lia.
Qed.

(** ** What the pieces of the patterns match *)

Section Pieces.
Variable ci : bool.
Variable s : list N.

Lemma Matches_Seq_iff a b i k :
  Matches ci s (Seq a b) i k <-> exists j, Matches ci s a i j /\ Matches ci s b j k.
Proof.
  split; [intros H; inversion H; subst; eauto | intros [j [Ha Hb]]; econstructor; eauto].
Qed.

Lemma Matches_Group_iff n a i j : Matches ci s (Group n a) i j <-> Matches ci s a i j.
Proof. split; [intros H; now inversion H | now constructor]. Qed.

Lemma Matches_Bol_iff i j : Matches ci s Bol i j <-> i = 0 /\ j = 0.
Proof. split; [intros H; now inversion H | intros [-> ->]; constructor]. Qed.

Lemma Matches_Eol_iff i j : Matches ci s Eol i j <-> i = length s /\ j = length s.
Proof. split; [intros H; now inversion H | intros [-> ->]; constructor]. Qed.

Lemma Matches_Chr_iff c i j :
  Matches ci s (Chr c) i j <->
  j = S i /\ exists d, nth_error s i = Some d /\ char_eq ci c d = true.
Proof.
  split; [intros H; inversion H; subst; eauto | intros [-> [d [Hd He]]]; econstructor; eauto].
Qed.

Lemma Matches_Cls_iff neg items i j :
  Matches ci s (Cls neg items) i j <->
  j = S i /\ exists d, nth_error s i = Some d /\ class_mem ci neg items d = true.
Proof.
  split; [intros H; inversion H; subst; eauto | intros [-> [d [Hd He]]]; econstructor; eauto].
Qed.

Lemma class_mem_any d : class_mem ci false [CSpace; CNotSpace] d = true.
Proof. unfold class_mem. cbn [existsb item_mem xorb]. now destruct (is_space d). Qed.

(** [[\s\S]*], greedy or not, matches any stretch of the input. *)
Lemma Matches_any_star g i j :
  Matches ci s (Star g any) i j <-> i = j \/ (i < j /\ j <= length s).
Proof.
  split.
  - intros H. apply Matches_le in H. lia.
  - intros [->|[Hij Hj]]; [constructor|].
    remember (j - i) as n eqn:En. revert i Hij En.
    induction n as [|n IH]; intros i Hij En; [lia|].
    destruct (nth_error s i) as [d|] eqn:Hd;
      [| apply nth_error_None in Hd; lia].
    apply M_StarS with (S i); [| lia |].
    + econstructor; eauto. apply class_mem_any.
    + destruct (Nat.eq_dec (S i) j) as [<-|Hne]; [constructor | apply IH; lia].
Qed.
End Pieces.


(** ** Literal text *)

Lemma lit_prefix_false cs t : lit_prefix false cs t = is_prefix cs t.
Proof.
  revert t. induction cs as [|c cs IH]; intros [|d t]; simpl; auto.
  now rewrite IH.
Qed.

Lemma Matches_lit ci s cs i j :
  Matches ci s (lit cs) i j <-> j = i + length cs /\ lit_prefix ci cs (drop i s) = true.
Proof.
  revert i. induction cs as [|c cs IH]; intros i; simpl.
  - split; [intros H; inversion H; subst; split; [lia | reflexivity]|].
    intros [-> _]. rewrite Nat.add_0_r. constructor.
  - rewrite Matches_Seq_iff. setoid_rewrite Matches_Chr_iff. setoid_rewrite IH.
    split.
    + intros [k [[-> [d [Hd He]]] [-> Hp]]]. split; [lia|].
      rewrite (drop_nth_error _ _ _ Hd). now rewrite He, Hp.
    + intros [-> Hp]. destruct (drop i s) as [|d t] eqn:Ed; [discriminate|].
      apply andb_true_iff in Hp as [He Hp].
      assert (Hd : nth_error s i = Some d).
      { rewrite <- (take_drop i s) at 1. rewrite Ed.
        assert (Hlen : length (take i s) = i).
        { rewrite length_take. apply Nat.min_l.
          destruct (Nat.le_gt_cases i (length s)) as [Hle|Hgt]; [exact Hle|].
          rewrite drop_ge in Ed by lia. discriminate. }
        rewrite nth_error_app2 by lia. now rewrite Hlen, Nat.sub_diag. }
      exists (S i). split; [split; [reflexivity | eauto]|]. split; [lia|].
      rewrite (drop_nth_error _ _ _ Hd) in Ed. injection Ed as <-. exact Hp.
Qed.

(** The text [cs] stands at index [i] of [s]. *)
Lemma is_prefix_drop cs s i :
  i <= length s ->
  (is_prefix cs (drop i s) = true <->
   exists pre post, s = pre ++ cs ++ post /\ length pre = i).
Proof.
  intros Hi. rewrite is_prefix_spec. split.
  - intros [t Ht]. exists (take i s), t. split.
    + now rewrite <- Ht, take_drop.
    + rewrite length_take. lia.
  - intros [pre [post [-> <-]]]. exists post. now rewrite drop_app_length.
Qed.


(** ** Substrings *)

Lemma substring_nil (s : list N) i : substring s i i = [].
Proof. unfold substring. now rewrite Nat.sub_diag. Qed.

Lemma substring_length (s : list N) i j :
  i <= j -> j <= length s -> length (substring s i j) = j - i.
Proof. intros Hij Hj. unfold substring. rewrite length_take, length_drop. lia. Qed.

Lemma substring_app (s : list N) i j k :
  i <= j -> j <= k -> k <= length s ->
  substring s i k = substring s i j ++ substring s j k.
Proof.
  intros Hij Hjk Hk. unfold substring.
  replace (k - i) with ((j - i) + (k - j)) by lia.
  rewrite <- take_take_drop. rewrite drop_drop. do 3 f_equal. lia.
Qed.

Lemma substring_split (s : list N) i j :
  i <= j -> s = take i s ++ substring s i j ++ drop j s.
Proof.
  intros Hij. unfold substring.
  assert (H : drop j s = drop (j - i) (drop i s)).
  { rewrite drop_drop. f_equal. lia. }
  rewrite H, take_drop. now rewrite take_drop.
Qed.

Lemma substring_middle (pre w post : list N) :
  substring (pre ++ w ++ post) (length pre) (length pre + length w) = w.
Proof.
  unfold substring. rewrite drop_app_length.
  replace (length pre + length w - length pre) with (length w) by lia.
  now rewrite take_app_length.
Qed.

Lemma substring_one (s : list N) i d :
  nth_error s i = Some d -> substring s i (S i) = [d].
Proof.
  intros H. unfold substring. rewrite (drop_nth_error _ _ _ H).
  replace (S i - i) with 1 by lia. reflexivity.
Qed.

Lemma substring_one_inv (s : list N) i j d :
  i <= j -> (i < j -> j <= length s) -> substring s i j = [d] ->
  j = S i /\ nth_error s i = Some d.
Proof.
  intros Hij Hj H.
  assert (Hlen : length (substring s i j) = 1) by now rewrite H.
  destruct (Nat.eq_dec i j) as [->|Hne]; [rewrite substring_nil in Hlen; discriminate|].
  rewrite substring_length in Hlen by lia.
  assert (j = S i) by lia. subst j. split; [reflexivity|].
  destruct (nth_error s i) as [d'|] eqn:Hd; [| apply nth_error_None in Hd; lia].
  rewrite (substring_one _ _ _ Hd) in H. congruence.
Qed.


Lemma substring_app' (s : list N) i j k :
  i <= j -> j <= k -> (i < k -> k <= length s) ->
  substring s i k = substring s i j ++ substring s j k.
Proof.
  intros Hij Hjk Hk. destruct (Nat.eq_dec i k) as [<-|Hne].
  - assert (j = i) by lia. subst j. now rewrite substring_nil.
  - apply substring_app; lia.
Qed.

Lemma substring_nil_inv (s : list N) i j :
  i <= j -> (i < j -> j <= length s) -> substring s i j = [] -> i = j.
Proof.
  intros Hij Hj H. destruct (Nat.eq_dec i j) as [|Hne]; [assumption|].
  assert (Hlen : length (substring s i j) = j - i) by (apply substring_length; lia).
  rewrite H in Hlen. simpl in Hlen. lia.
Qed.

Lemma substring_app_inv (s : list N) i j u v :
  i <= j -> (i < j -> j <= length s) -> substring s i j = u ++ v ->
  exists m, i <= m /\ m <= j /\ substring s i m = u /\ substring s m j = v.
Proof.
  intros Hij Hj H. destruct (Nat.eq_dec i j) as [<-|Hne].
  - rewrite substring_nil in H. symmetry in H. apply app_eq_nil in H as [-> ->].
    exists i. rewrite substring_nil. repeat split; lia.
  - assert (Hlen : length (substring s i j) = j - i) by (apply substring_length; lia).
    rewrite H, length_app in Hlen.
    exists (i + length u). split; [lia|]. split; [lia|].
    rewrite (substring_app s i (i + length u) j) in H by lia.
    apply app_inj_1 in H; [exact H|].
    rewrite substring_length; lia.
Qed.

(** ** Matches and words *)

Theorem Matches_Word ci s r i j :
  local r = true -> Matches ci s r i j -> Word ci r (substring s i j).
Proof.
  intros Hl H. induction H; simpl in Hl; try discriminate;
    try (apply andb_true_iff in Hl as [Hl1 Hl2]).
  - rewrite substring_nil. constructor.
  - rewrite (substring_one _ _ _ H). now constructor.
  - rewrite (substring_one _ _ _ H). now constructor.
  - pose proof (Matches_le _ _ _ _ _ H) as [? ?].
    pose proof (Matches_le _ _ _ _ _ H0) as [? ?].
    rewrite (substring_app' s i j k) by lia. constructor; auto.
  - apply W_AltL; auto.
  - apply W_AltR; auto.
  - rewrite substring_nil. constructor.
  - pose proof (Matches_le _ _ _ _ _ H) as [? ?].
    pose proof (Matches_le _ _ _ _ _ H1) as [? ?].
    rewrite (substring_app' s i j k) by lia. constructor; auto.
    intros E. apply substring_nil_inv in E; lia.
  - constructor; auto.
  - pose proof (Matches_le _ _ _ _ _ H) as [? ?].
    pose proof (Matches_le _ _ _ _ _ H0) as [? ?].
    rewrite (substring_app' s i j k) by lia. constructor; auto.
  - rewrite substring_nil. constructor.
  - pose proof (Matches_le _ _ _ _ _ H) as [? ?]. constructor; auto.
    intros E. apply substring_nil_inv in E; lia.
  - constructor; auto.
Qed.

Theorem Word_Matches ci s r w :
  Word ci r w ->
  forall i j, i <= j -> (i < j -> j <= length s) -> substring s i j = w ->
    Matches ci s r i j.
Proof.
  induction 1; intros i j Hij Hj Hs.
  - apply substring_nil_inv in Hs; auto. subst j. constructor.
  - apply substring_one_inv in Hs as [-> Hd]; auto. econstructor; eauto.
  - apply substring_one_inv in Hs as [-> Hd]; auto. econstructor; eauto.
  - apply substring_app_inv in Hs as [m [H1 [H2 [Hu Hv]]]]; auto.
    apply M_Seq with m; [apply IHWord1 | apply IHWord2]; auto; lia.
  - apply M_AltL; auto.
  - apply M_AltR; auto.
  - apply substring_nil_inv in Hs; auto. subst j. constructor.
  - apply substring_app_inv in Hs as [m [H2 [H3 [Hu Hv]]]]; auto.
    assert (i <> m) by (intros ->; rewrite substring_nil in Hu; congruence).
    apply M_StarS with m; [apply IHWord1 | | apply IHWord2]; auto; lia.
  - constructor; auto.
  - apply substring_app_inv in Hs as [m [H1 [H2 [Hu Hv]]]]; auto.
    apply M_AtLeastS with m; [apply IHWord1 | apply IHWord2]; auto; lia.
  - apply substring_nil_inv in Hs; auto. subst j. constructor.
  - assert (i <> j) by (intros ->; rewrite substring_nil in Hs; congruence).
    apply M_Opt1; auto. lia.
  - constructor; auto.
Qed.


(** ** Words of the pieces *)

Lemma Word_lit ci cs w :
  Word ci (lit cs) w <-> length w = length cs /\ lit_prefix ci cs w = true.
Proof.
  revert w. induction cs as [|c cs IH]; intros w; simpl.
  - split.
    + intros H. inversion H. now split.
    + intros [Hlen _]. destruct w; [constructor | discriminate].
  - split.
    + intros H. inversion H as [| | |a b u v Hu Hv| | | | | | | | |]; subst.
      inversion Hu; subst. apply IH in Hv as [Hlen Hp]. simpl.
      split; [now rewrite Hlen | now apply andb_true_iff].
    + intros [Hlen Hp]. destruct w as [|d w]; [discriminate|].
      apply andb_true_iff in Hp as [He Hp]. simpl in Hlen.
      change (d :: w) with ([d] ++ w). constructor; [now constructor|].
      apply IH. split; [lia | exact Hp].
Qed.

Lemma lit_prefix_exact cs w :
  length w = length cs -> lit_prefix false cs w = true -> w = cs.
Proof.
  rewrite lit_prefix_false, is_prefix_spec. intros Hlen [t ->].
  rewrite length_app in Hlen. destruct t; [now rewrite app_nil_r | simpl in Hlen; lia].
Qed.

Lemma Word_lit_exact cs w : Word false (lit cs) w <-> w = cs.
Proof.
  rewrite Word_lit. split.
  - intros [Hlen Hp]. now apply lit_prefix_exact.
  - intros ->. split; [reflexivity|].
    rewrite lit_prefix_false. apply is_prefix_spec. exists []. now rewrite app_nil_r.
Qed.

Lemma Word_any_star ci g w : Word ci (Star g any) w.
Proof.
  induction w as [|d w IH]; [constructor|].
  change (d :: w) with ([d] ++ w). constructor; [| discriminate | exact IH].
  constructor. apply class_mem_any.
Qed.

Lemma Word_Seq_inv ci a b w :
  Word ci (Seq a b) w -> exists u v, w = u ++ v /\ Word ci a u /\ Word ci b v.
Proof. intros H. inversion H; subst. eauto. Qed.

Lemma Word_Chr_inv ci c w :
  Word ci (Chr c) w -> exists d, w = [d] /\ char_eq ci c d = true.
Proof. intros H. inversion H; subst. eauto. Qed.

Lemma Word_Group_inv ci n a w : Word ci (Group n a) w -> Word ci a w.
Proof. intros H. now inversion H. Qed.

Lemma Word_Eps_inv ci w : Word ci Eps w -> w = [].
Proof. intros H. now inversion H. Qed.

(** ** Patterns that start with [^] *)

Lemma after_bol_local r r' : after_bol r = Some r' -> forall ci s i j,
  Matches ci s r i j <-> i = 0 /\ Matches ci s r' 0 j.
Proof.
  revert r'. induction r; intros r' H ci s i' j'; simpl in H; try discriminate.
  - destruct (after_bol r1) as [a'|] eqn:E; [|discriminate]. injection H as <-.
    rewrite !Matches_Seq_iff. split.
    + intros [m [H1 H2]]. apply (IHr1 _ eq_refl) in H1 as [-> H1]. eauto.
    + intros [-> [m [H1 H2]]]. exists m. split; [|exact H2].
      apply (IHr1 _ eq_refl). now split.
  - injection H as <-. rewrite Matches_Bol_iff. split.
    + intros [-> ->]. split; [reflexivity | constructor].
    + intros [-> H]. inversion H. now split.
Qed.

Lemma search_not_none rx s :
  search rx s <> None <->
  exists i j, i <= length s /\ Matches (ignoreCase rx) s (source rx) i j.
Proof.
  split.
  - destruct (search rx s) as [[p y]|] eqn:E; [|congruence]. intros _.
    apply search_some in E as [Hp [Hy _]]. apply match_at_sound in Hy. eauto.
  - intros [i [j [Hi Hm]]] Hn. rewrite search_none in Hn.
    apply match_at_complete in Hm. apply Hm, Hn, Hi.
Qed.


(** ** The two frontmatter patterns *)

Ltac word_inv :=
  repeat match goal with
  | H : Word _ (Seq _ _) _ |- _ => apply Word_Seq_inv in H as [? [? [-> [? ?]]]]
  | H : Word _ (Group _ _) _ |- _ => apply Word_Group_inv in H
  | H : Word _ Eps _ |- _ => apply Word_Eps_inv in H; subst
  | H : Word false (lit _) _ |- _ => apply Word_lit_exact in H; subst
  | H : Word false (Chr _) _ |- _ =>
      apply Word_Chr_inv in H as [? [-> H]]; apply N.eqb_eq in H; subst
  end.

Lemma Word_Chr_exact c : Word false (Chr c) [c].
Proof. constructor. apply N.eqb_refl. Qed.

Lemma front_block_match (r r' : regex) (closing : list N) :
  after_bol r = Some r' -> local r' = true ->
  (forall w, Word false r' w <->
             exists inner, w = str "---" ++ nl ++ inner ++ nl ++ str "---" ++ closing) ->
  forall s,
    search (re_ r) s <> None <->
    exists inner rest, s = str "---" ++ nl ++ inner ++ nl ++ str "---" ++ closing ++ rest.
Proof.
  intros Hab Hloc Hword s. rewrite search_not_none. simpl ignoreCase. simpl source.
  split.
  - intros [i [j [Hi Hm]]]. apply (after_bol_local _ _ Hab) in Hm as [-> Hm].
    pose proof (Matches_le _ _ _ _ _ Hm) as [Hle _].
    apply Matches_Word in Hm; [|exact Hloc]. apply Hword in Hm as [inner Hw].
    exists inner, (drop j s). rewrite (substring_split s 0 j Hle) at 1.
    rewrite Hw, take_0. simpl. now rewrite <- !app_assoc.
  - intros [inner [rest ->]].
    set (w := str "---" ++ nl ++ inner ++ nl ++ str "---" ++ closing).
    exists 0, (length w). split; [lia|].
    apply (after_bol_local _ _ Hab). split; [reflexivity|].
    assert (Hs : str "---" ++ nl ++ inner ++ nl ++ str "---" ++ closing ++ rest
                 = [] ++ w ++ rest).
    { unfold w. simpl. now rewrite <- !app_assoc. }
    rewrite Hs. apply Word_Matches with w.
    + apply Hword. now exists inner.
    + lia.
    + intros _. rewrite !length_app. simpl. lia.
    + apply (substring_middle [] w rest).
Qed.

Lemma extract_block (s : list N) :
  search frontmatterRegex_extract s <> None <->
  exists inner rest, s = str "---" ++ nl ++ inner ++ nl ++ str "---" ++ rest.
Proof.
  apply (front_block_match (source frontmatterRegex_extract)
           (Eps ⋅ l "---" ⋅ LF ⋅ Group 1 (Star false any) ⋅ LF ⋅ l "---")
           [] eq_refl eq_refl).
  intros w. unfold l, LF. split.
  - intros H. remember w as w' eqn:E in H. word_inv.
    match goal with Hs : Word false (Star false any) ?u |- _ => exists u end.
    subst. cbn [app]. now rewrite <- !app_assoc.
  - intros [inner ->].
    replace (str "---" ++ nl ++ inner ++ nl ++ str "---" ++ [])
      with ((((([] ++ str "---") ++ [10%N]) ++ inner) ++ [10%N]) ++ str "---")
      by (simpl; now rewrite <- !app_assoc).
    repeat apply W_Seq; try apply W_Group; try apply Word_any_star;
      try apply Word_Chr_exact; try (now apply Word_lit_exact); constructor.
Qed.

Lemma strip_block (s : list N) :
  search frontmatterRegex_strip s <> None <->
  exists inner rest, s = str "---" ++ nl ++ inner ++ nl ++ str "---" ++ nl ++ rest.
Proof.
  apply (front_block_match (source frontmatterRegex_strip)
           (Eps ⋅ l "---" ⋅ LF ⋅ Star false any ⋅ LF ⋅ l "---" ⋅ LF)
           nl eq_refl eq_refl).
  intros w. unfold l, LF. split.
  - intros H. remember w as w' eqn:E in H. word_inv.
    match goal with Hs : Word false (Star false any) ?u |- _ => exists u end.
    subst. cbn [app]. now rewrite <- !app_assoc.
  - intros [inner ->].
    replace (str "---" ++ nl ++ inner ++ nl ++ str "---" ++ nl)
      with (((((([] ++ str "---") ++ [10%N]) ++ inner) ++ [10%N]) ++ str "---") ++ [10%N])
      by (simpl; now rewrite <- !app_assoc).
    repeat apply W_Seq; try apply W_Group; try apply Word_any_star;
      try apply Word_Chr_exact; try (now apply Word_lit_exact); constructor.
Qed.


(** ** The first occurrence of a text *)

Lemma index_of_some p s i :
  index_of p s = Some i ->
  i <= length s /\ is_prefix p (drop i s) = true
  /\ forall t, t < i -> is_prefix p (drop t s) = false.
Proof.
  revert i. induction s as [|c s IH]; intros i; simpl.
  - destruct (is_prefix p []) eqn:E; [|discriminate].
    intros H. injection H as <-. repeat split; auto. intros t Ht. lia.
  - destruct (is_prefix p (c :: s)) eqn:E.
    + intros H. injection H as <-. repeat split; auto; [lia|]. intros t Ht. lia.
    + destruct (index_of p s) as [i'|] eqn:E'; [|discriminate].
      intros H. injection H as <-. destruct (IH i' eq_refl) as [Hi [Hp Hno]].
      repeat split; [lia | exact Hp |].
      intros [|t] Ht; [exact E | apply Hno; lia].
Qed.

Lemma index_of_first p s i :
  i <= length s -> is_prefix p (drop i s) = true ->
  exists i', index_of p s = Some i' /\ i' <= i.
Proof.
  revert i. induction s as [|c s IH]; intros i Hi Hp; simpl in *.
  - assert (i = 0) by lia. subst i. simpl in Hp. rewrite Hp. exists 0. split; [reflexivity | lia].
  - destruct (is_prefix p (c :: s)) eqn:E; [exists 0; split; [reflexivity | lia]|].
    destruct i as [|i]; [simpl in Hp; congruence|]. simpl in Hp.
    destruct (IH i) as [i' [Hi' Hle]]; [lia | exact Hp |].
    rewrite Hi'. exists (S i'). split; [reflexivity | lia].
Qed.

Lemma is_prefix_take (s : list N) n : is_prefix (take n s) s = true.
Proof. apply is_prefix_spec. exists (drop n s). now rewrite take_drop. Qed.

Lemma is_prefix_length p s : is_prefix p s = true -> take (length p) s = p.
Proof.
  intros H. apply is_prefix_spec in H as [t ->]. now rewrite take_app_length.
Qed.

(** A pattern that does not look around its match is found no earlier as
    a text than as a pattern: the text of the first match does not occur
    before the match. *)
Lemma first_occurrence_of_match rx s p y :
  local (source rx) = true -> search rx s = Some (p, y) ->
  index_of (substring s p (pos y)) s = Some p.
Proof.
  intros Hloc Hsearch. apply search_some in Hsearch as [Hp [Hy Hno]].
  apply match_at_sound in Hy.
  pose proof (Matches_le _ _ _ _ _ Hy) as [Hle Hq].
  remember (substring s p (pos y)) as m eqn:Em.
  destruct (index_of_first m s p Hp) as [p' [Hidx Hp']].
  { subst m. apply is_prefix_take. }
  rewrite Hidx. f_equal.
  destruct (Nat.eq_dec p' p) as [|Hne]; [assumption|]. exfalso.
  apply index_of_some in Hidx as [_ [Hpre _]].
  assert (Hlen : length m = pos y - p).
  { subst m. destruct (Nat.eq_dec p (pos y)) as [E|E].
    - rewrite <- E, substring_nil. simpl. lia.
    - apply substring_length; lia. }
  assert (Hsub : substring s p' (p' + length m) = m).
  { unfold substring at 1. replace (p' + length m - p') with (length m) by lia.
    now apply is_prefix_length. }
  assert (Hm : Matches (ignoreCase rx) s (source rx) p' (p' + length m)).
  { apply Word_Matches with m; [subst m; now apply Matches_Word | lia | lia | exact Hsub]. }
  apply match_at_complete in Hm. apply Hm. apply Hno. lia.
Qed.

(** ** Removing the matched heading *)

Lemma js_match_some rx s m :
  js_match rx s = Some m ->
  exists p y, search rx s = Some (p, y)
    /\ m = JsMatch p (substring s p (pos y)) (group_text s y).
Proof.
  unfold js_match. destruct (search rx s) as [[p y]|]; [|discriminate].
  intros H. injection H as <-. eauto.
Qed.

Lemma js_match_first_occurrence rx s m :
  local (source rx) = true -> js_match rx s = Some m ->
  index_of (mstr m) s = Some (mindex m).
Proof.
  intros Hloc Hm. apply js_match_some in Hm as [p [y [Hs ->]]]. cbn [mstr mindex].
  now apply (first_occurrence_of_match rx).
Qed.

Lemma replace_str_match rx s m :
  local (source rx) = true -> js_match rx s = Some m ->
  replace_str (mstr m) [] s = take (mindex m) s ++ drop (mindex m + length (mstr m)) s
  /\ forall t, t < mindex m -> exec_at rx s t = None.
Proof.
  intros Hloc Hm. apply js_match_some in Hm as [p [y [Hs ->]]]. simpl.
  unfold replace_str. rewrite (first_occurrence_of_match _ _ _ _ Hloc Hs).
  split; [reflexivity|]. now apply search_some in Hs.
Qed.

Lemma extractTitle_of_match html m :
  orelse (js_match h1Pattern html) (js_match h2Pattern html) = Some m ->
  extractTitleFromContent html =
    {| title := or_null (titleText (mgroup m 1));
       contentWithoutTitle := trim (replace_str (mstr m) [] html) |}.
Proof. unfold extractTitleFromContent. now intros ->. Qed.


(** ** The first step, marker by marker *)

Lemma fold_left_step {A B} (f : A -> B -> A) (b : B) (l : list B) (a : A) :
  fold_left f (b :: l) a = fold_left f l (f a b).
Proof. reflexivity. Qed.

Lemma fold_left_flat_map3 {A B C} (f : A -> B -> A) (g1 g2 g3 : C -> B)
    (l : list C) (a : A) :
  fold_left f (flat_map (fun c => [g1 c; g2 c; g3 c]) l) a
  = fold_left (fun a c => f (f (f a (g1 c)) (g2 c)) (g3 c)) l a.
Proof. revert a. induction l as [|c l IH]; intros a; simpl; auto. Qed.

Lemma cleanHtml_step1_markers (s : list N) :
  cleanHtml_step1 s = fold_left (fun t m => replace (passPattern m) [] t) markers s.
Proof.
  unfold markers.
  rewrite (fold_left_step (fun t m => replace (passPattern m) [] t)).
  rewrite fold_left_app.
  rewrite (fold_left_flat_map3 (fun t m => replace (passPattern m) [] t)).
  rewrite !fold_left_step. cbn [fold_left]. reflexivity.
Qed.

(** ** What the matcher answers on literal text and on loops over a class *)

Lemma mstate_eta (x : mstate) : MState (pos x) (caps x) = x.
Proof. now destruct x. Qed.

Lemma drop_nth_error_none (s : list N) i : nth_error s i = None -> drop i s = [].
Proof. intros H. apply nth_error_None in H. now apply drop_ge. Qed.

Lemma rmatch_lit ci s cs x k :
  rmatch ci s (lit cs) x k
  = if lit_prefix ci cs (drop (pos x) s)
    then k (MState (pos x + length cs) (caps x)) else None.
Proof.
  revert x. induction cs as [|c cs IH]; intros x.
  - cbn [lit rmatch lit_prefix length]. now rewrite Nat.add_0_r, mstate_eta.
  - cbn [lit rmatch length]. unfold step_if, char_at.
    destruct (nth_error s (pos x)) as [d|] eqn:Hd.
    + rewrite (drop_nth_error _ _ _ Hd). cbn [lit_prefix].
      destruct (char_eq ci c d); [|reflexivity]. cbn [andb].
      rewrite IH. cbn [advance pos caps].
      now replace (S (pos x) + length cs) with (pos x + S (length cs)) by lia.
    + rewrite (drop_nth_error_none _ _ Hd). reflexivity.
Qed.

Lemma star_loop_class_greedy s p k z :
  forall n x,
    length s - pos x <= n ->
    k (MState (pos x + run p (drop (pos x) s)) (caps x)) = Some z ->
    star_loop (step_if s p) true k n x = Some z.
Proof.
  induction n as [|n IH]; intros x Hn Hk.
  - rewrite drop_ge in Hk by lia. cbn [run] in Hk.
    rewrite Nat.add_0_r, mstate_eta in Hk. exact Hk.
  - cbn [star_loop]. unfold step_if at 1, char_at.
    destruct (nth_error s (pos x)) as [d|] eqn:Hd.
    + rewrite (drop_nth_error _ _ _ Hd) in Hk. cbn [run] in Hk.
      destruct (p d).
      * change (pos (advance x)) with (S (pos x)).
        replace (S (pos x) =? pos x) with false by (symmetry; apply Nat.eqb_neq; lia).
        rewrite (IH (advance x)); [reflexivity | cbn [advance pos]; lia |].
        cbn [advance pos caps].
        now replace (S (pos x) + run p (drop (S (pos x)) s))
          with (pos x + S (run p (drop (S (pos x)) s))) by lia.
      * rewrite Nat.add_0_r, mstate_eta in Hk. cbn [orelse]. exact Hk.
    + rewrite (drop_nth_error_none _ _ Hd) in Hk. cbn [run] in Hk.
      rewrite Nat.add_0_r, mstate_eta in Hk. cbn [orelse]. exact Hk.
Qed.

Lemma rep_loop_class_greedy s p k z :
  forall m x,
    m <= run p (drop (pos x) s) ->
    k (MState (pos x + run p (drop (pos x) s)) (caps x)) = Some z ->
    rep_loop s (step_if s p) k m x = Some z.
Proof.
  induction m as [|m IH]; intros x Hm Hk.
  - cbn [rep_loop]. now apply star_loop_class_greedy.
  - cbn [rep_loop]. unfold step_if at 1, char_at.
    destruct (nth_error s (pos x)) as [d|] eqn:Hd.
    + rewrite (drop_nth_error _ _ _ Hd) in Hk, Hm. cbn [run] in Hk, Hm.
      destruct (p d); [|lia].
      apply IH; cbn [advance pos caps]; [lia|].
      now replace (S (pos x) + run p (drop (S (pos x)) s))
        with (pos x + S (run p (drop (S (pos x)) s))) by lia.
    + rewrite (drop_nth_error_none _ _ Hd) in Hm. cbn [run] in Hm. lia.
Qed.

(** A lazy loop over [[\s\S]] stops at the first index where what follows
    succeeds. *)
Lemma star_loop_any_lazy ci s (p : list N) (g : nat -> list (nat * (nat * nat)) -> mstate)
    (k : mstate -> option mstate) :
  (forall y, k y = if is_prefix p (drop (pos y) s) then Some (g (pos y) (caps y)) else None) ->
  forall n x,
    length s - pos x <= n ->
    star_loop (rmatch ci s any) false k n x
    = match index_of p (drop (pos x) s) with
      | Some j => Some (g (pos x + j) (caps x))
      | None => None
      end.
Proof.
  intros Hk. induction n as [|n IH]; intros x Hn.
  - cbn [star_loop]. rewrite Hk. rewrite drop_ge by lia. cbn [index_of].
    destruct (is_prefix p []); [now rewrite Nat.add_0_r | reflexivity].
  - cbn [star_loop]. rewrite Hk.
    destruct (drop (pos x) s) as [|d t] eqn:Hd.
    + cbn [index_of]. destruct (is_prefix p []); cbn [orelse]; [now rewrite Nat.add_0_r|].
      cbn [any rmatch]. unfold step_if, char_at.
      assert (Hnone : nth_error s (pos x) = None).
      { apply nth_error_None. destruct (Nat.le_gt_cases (length s) (pos x)) as [|Hlt]; [assumption|].
        assert (length (drop (pos x) s) = 0) by now rewrite Hd.
        rewrite length_drop in H. lia. }
      now rewrite Hnone.
    + cbn [index_of]. destruct (is_prefix p (d :: t)); cbn [orelse]; [now rewrite Nat.add_0_r|].
      cbn [any rmatch]. unfold step_if, char_at.
      assert (Hsome : nth_error s (pos x) = Some d /\ drop (S (pos x)) s = t).
      { destruct (nth_error s (pos x)) as [d'|] eqn:E.
        - rewrite (drop_nth_error _ _ _ E) in Hd. injection Hd as -> ->. now split.
        - rewrite (drop_nth_error_none _ _ E) in Hd. discriminate. }
      destruct Hsome as [Hsome Ht]. rewrite Hsome, class_mem_any.
      change (pos (advance x)) with (S (pos x)).
      replace (S (pos x) =? pos x) with false by (symmetry; apply Nat.eqb_neq; lia).
      rewrite IH by (cbn [advance pos]; lia). cbn [advance pos caps]. rewrite Ht.
      destruct (index_of p t) as [j|]; cbn [option_map]; [|reflexivity].
      now replace (S (pos x) + j) with (pos x + S j) by lia.
Qed.

(** ** [processMarkdown] without patterns *)

Lemma strip_exec_0 (s : list N) :
  exec_at frontmatterRegex_strip s 0
  = match frontmatterEnd s with
    | Some e => Some (MState e [])
    | None => None
    end.
Proof.
  change (exec_at frontmatterRegex_strip s 0)
    with (rmatch false s (lit OPENING) (MState 0 [])
            (fun y => star_loop (rmatch false s any) false
                        (fun y' => rmatch false s (lit CLOSING) y' Some)
                        (length s - pos y) y)).
  rewrite rmatch_lit, lit_prefix_false. cbn [pos caps]. change (drop 0 s) with s.
  unfold frontmatterEnd.
  destruct (is_prefix OPENING s); [|reflexivity].
  rewrite (star_loop_any_lazy false s CLOSING (fun j c => MState (j + length CLOSING) c)).
  - cbn [pos caps]. change (0 + length OPENING) with (length OPENING).
    destruct (index_of CLOSING (drop (length OPENING) s)); reflexivity.
  - intros y. now rewrite rmatch_lit, lit_prefix_false.
  - cbn [pos]. lia.
Qed.

Lemma strip_exec_later (s : list N) i : 0 < i -> exec_at frontmatterRegex_strip s i = None.
Proof.
  intros Hi. apply match_at_none. intros j Hm.
  apply (after_bol_local (source frontmatterRegex_strip)
           (Eps ⋅ l "---" ⋅ LF ⋅ Star false any ⋅ LF ⋅ l "---" ⋅ LF) eq_refl) in Hm.
  lia.
Qed.

Lemma strip_search (s : list N) :
  search frontmatterRegex_strip s
  = match frontmatterEnd s with
    | Some e => Some (0, MState e [])
    | None => None
    end.
Proof.
  destruct (frontmatterEnd s) as [e|] eqn:He.
  - apply search_from_here. now rewrite strip_exec_0, He.
  - apply search_none. intros t _. destruct t as [|t].
    + now rewrite strip_exec_0, He.
    + apply strip_exec_later. lia.
Qed.

(** * The claims *)

(** ** The dispatcher *)

Section DispatcherClaims.
Variable E : Type.
Variable mammoth_convertToHtml : content -> E + list N.
Variable pdfParse : content -> E + list N.
Variable Buffer_toString : list N -> list N.

Local Abbreviation process :=
  (processDocument mammoth_convertToHtml pdfParse Buffer_toString).
Local Abbreviation text_of := (toString Buffer_toString).

(** Claim C6, as amended: for the content types [text/markdown] and
    [text/x-markdown] the dispatcher strips a leading frontmatter block,
    from the opening line of three hyphens to the end of the first
    closing line of three hyphens after it, and returns the rest
    trimmed, or the whole text trimmed when there is no such block; for
    [text/plain] it returns the content as it is, with no stripping and
    no trimming. *)
Theorem C6_markdown_stripped_plain_verbatim (c : content) (fileName : list N) :
  process c (str "text/markdown") fileName
  = inr (trim (match frontmatterEnd (text_of c) with
               | Some e => drop e (text_of c)
               | None => text_of c
               end))
  /\ process c (str "text/x-markdown") fileName
     = inr (trim (match frontmatterEnd (text_of c) with
                  | Some e => drop e (text_of c)
                  | None => text_of c
                  end))
  /\ process c (str "text/plain") fileName = inr (text_of c).
Proof.
  assert (H : processMarkdown (text_of c)
              = trim (match frontmatterEnd (text_of c) with
                      | Some e => drop e (text_of c)
                      | None => text_of c
                      end)).
  { unfold processMarkdown, replace, replace_with.
    change (global frontmatterRegex_strip) with false. cbv iota.
    rewrite strip_search. destruct (frontmatterEnd (text_of c)); reflexivity. }
  rewrite <- H. repeat split.
Qed.

Lemma recognized_case (R : failure E + list N) (mimeType fileName : list N)
    (P : Prop) (Q : failure E + list N) :
  In mimeType recognizedTypes ->
  (forall message, R <> inl (Error message)) ->
  (R = inl (UnsupportedFormat mimeType) <-> ~ In mimeType recognizedTypes /\ P)
  /\ ((exists message, R = inl (Error message)) <-> ~ In mimeType recognizedTypes /\ P)
  /\ (~ In mimeType recognizedTypes -> ends_with fileName (str ".md") = true -> R = Q).
Proof.
  intros Hin Hne. split; [|split].
  - split; [intros H; now apply Hne in H | tauto].
  - split; [intros [message H]; now apply Hne in H | tauto].
  - tauto.
Qed.

(** Claim C7: the dispatcher fails with [UnsupportedFormat] exactly when
    the content type is none of the seven recognized strings and the
    file name does not end in [.md]; it makes no other [Error] of its
    own; and an unrecognized type with a name that ends in [.md] is
    processed as markdown. *)
Theorem C7_unsupported_format (c : content) (mimeType fileName : list N) :
  (process c mimeType fileName = inl (UnsupportedFormat mimeType)
     <-> ~ In mimeType recognizedTypes /\ ends_with fileName (str ".md") = false)
  /\ ((exists message, process c mimeType fileName = inl (Error message))
     <-> ~ In mimeType recognizedTypes /\ ends_with fileName (str ".md") = false)
  /\ (~ In mimeType recognizedTypes -> ends_with fileName (str ".md") = true ->
      process c mimeType fileName = inr (processMarkdown (text_of c))).
Proof.
  unfold processDocument, processWordDocument, processPdfDocument.
  repeat match goal with
  | |- context [string_eqb mimeType ?t] =>
      let H := fresh "Hne" in
      destruct (string_eqb mimeType t) eqn:H;
      [ apply string_eqb_eq in H; subst mimeType; simpl orb; cbv iota;
        apply recognized_case;
        [ simpl; tauto
        | intros message;
          try destruct c; try destruct (mammoth_convertToHtml _);
          try destruct (pdfParse _); discriminate ]
      | apply string_eqb_neq in H; simpl orb; cbv iota ]
  end.
  assert (Hnot : ~ In mimeType recognizedTypes).
  { unfold recognizedTypes. simpl. intros [?|[?|[?|[?|[?|[?|[?|[]]]]]]]]; congruence. }
  destruct (ends_with fileName (str ".md")) eqn:Hmd.
  - split; [|split].
    + split; [discriminate | intros [_ ?]; discriminate].
    + split; [intros [? ?]; discriminate | intros [_ ?]; discriminate].
    + reflexivity.
  - split; [|split].
    + split; [intros _; now split | reflexivity].
    + split; [intros _; now split | intros _; eexists; reflexivity].
    + intros _ ?; discriminate.
Qed.
End DispatcherClaims.

Lemma C7_unsupported_format_witness :
  processDocument noConverter noConverter id (CString (str "x"))
    (str "image/png") (str "a.png") = inl (UnsupportedFormat (str "image/png"))
  /\ processDocument noConverter noConverter id (CString (str " x"))
       (str "image/png") (str "a.md") = inr (str "x").
Proof.
  split.
  - apply (proj1 (C7_unsupported_format _ noConverter noConverter id
                    (CString (str "x")) (str "image/png") (str "a.png"))).
    split; [| reflexivity].
    vm_compute. intros H. repeat destruct H as [H|H]; try discriminate H. exact H.
  - apply (proj2 (proj2 (C7_unsupported_format _ noConverter noConverter id
                           (CString (str " x")) (str "image/png") (str "a.md")))).
    + vm_compute. intros H. repeat destruct H as [H|H]; try discriminate H. exact H.
    + reflexivity.
Defined.

(** Claim C6, as stated, fails: with the content type [text/plain] the
    frontmatter example comes back whole, where stripping the frontmatter
    would leave [Body]. *)
Lemma C6_plain_text_counterexample :
  processDocument noConverter noConverter id (CString frontmatterExample)
    (str "text/plain") (str "post.txt") = inr frontmatterExample
  /\ processDocument noConverter noConverter id (CString frontmatterExample)
       (str "text/plain") (str "post.txt")
     <> inr (processMarkdown (toString id (CString frontmatterExample))).
Proof. split; [reflexivity | vm_compute; discriminate]. Qed.

(** ** Frontmatter *)

(** Claim C8: on the frontmatter example [processMarkdown] returns [Body]
    and [extractFrontmatter] returns the mapping of [key] to [v]. *)
Theorem C8_frontmatter_round_trip :
  processMarkdown frontmatterExample = str "Body"
  /\ extractFrontmatter frontmatterExample = Some {[ str "key" := str "v" ]}.
Proof. split; vm_compute; reflexivity. Qed.

(** ** The normalizer *)

(** Claim C1 at two inputs the code can receive: an anchor without [href]
    keeps its other attributes, and a tag that is put together by the
    removal of a disallowed tag stays in the output. *)
Theorem C1_allow_list_escapes :
  cleanHtml (str "<a onclick='x'>t</a>") = str "<a onclick='x'>t</a>"
  /\ cleanHtml (str "<<x>script>alert(1)<<x>/script>") = str "<script>alert(1)</script>".
Proof. split; vm_compute; reflexivity. Qed.


(** Claim C10: an input without the character [<] is emptied by the
    normalizer, whatever else it holds. *)
Theorem C10_text_without_tags_is_emptied (html : list N) :
  ~ In LT html -> cleanHtml html = [].
Proof.
  intros H. unfold cleanHtml. apply cleanHtml_step4_no_lt.
  rewrite cleanHtml_step2_no_lt by now apply cleanHtml_step1_no_lt.
  now apply cleanHtml_step3_no_lt, cleanHtml_step1_no_lt.
Qed.

Lemma C10_text_without_tags_is_emptied_witness :
  cleanHtml (str "Quarterly report, page 1 of 3. Revenue > costs.") = [].
Proof.
  apply (C10_text_without_tags_is_emptied
           (str "Quarterly report, page 1 of 3. Revenue > costs.")).
  vm_compute. intros H. repeat destruct H as [H|H]; try discriminate H. exact H.
Defined.

(** Claim C9, as stated, fails: after the closing hyphens of a block
    [extractFrontmatter] does not ask for a line feed, [processMarkdown]
    does.  A text that ends with the closing hyphens is parsed by the one
    and left alone by the other. *)
Lemma C9_same_block_counterexample :
  ~ (extractFrontmatter frontmatterOnly = None <-> stripsBlock frontmatterOnly = false)
  /\ extractFrontmatter frontmatterOnly = Some {[ str "key" := str "v" ]}
  /\ processMarkdown frontmatterOnly = frontmatterOnly.
Proof.
  split; [|split]; [| vm_compute; reflexivity | vm_compute; reflexivity].
  intros [_ H]. assert (Hs : stripsBlock frontmatterOnly = false) by (vm_compute; reflexivity).
  apply H in Hs. vm_compute in Hs. discriminate Hs.
Qed.

(** Claim C9, as amended: [extractFrontmatter] returns a mapping exactly
    when the text begins with three hyphens and a line feed and holds,
    later, a line feed and three hyphens; [processMarkdown] finds a block
    to remove exactly when, in addition, a line feed follows these closing
    hyphens.  So whenever [processMarkdown] removes a block,
    [extractFrontmatter] returns a mapping; and where it finds no block,
    [processMarkdown] only trims. *)
Theorem C9_frontmatter_blocks (s : list N) :
  (extractFrontmatter s <> None <->
     exists inner rest, s = str "---" ++ nl ++ inner ++ nl ++ str "---" ++ rest)
  /\ (stripsBlock s = true <->
     exists inner rest, s = str "---" ++ nl ++ inner ++ nl ++ str "---" ++ nl ++ rest)
  /\ (stripsBlock s = true -> extractFrontmatter s <> None)
  /\ (stripsBlock s = false -> processMarkdown s = trim s).
Proof.
  assert (He : extractFrontmatter s <> None <-> search frontmatterRegex_extract s <> None).
  { unfold extractFrontmatter, js_match.
    destruct (search frontmatterRegex_extract s) as [[i y]|]; split; congruence. }
  assert (Hs : stripsBlock s = true <-> search frontmatterRegex_strip s <> None).
  { unfold stripsBlock.
    destruct (search frontmatterRegex_strip s); split; congruence. }
  rewrite He, Hs, extract_block, strip_block. repeat split; auto.
  - intros [inner [rest ->]]. now exists inner, (nl ++ rest).
  - unfold stripsBlock, processMarkdown, replace, replace_with. simpl global. cbv iota.
    destruct (search frontmatterRegex_strip s) as [[i y]|]; [discriminate | reflexivity].
Qed.

Lemma C9_frontmatter_blocks_witness : extractFrontmatter frontmatterExample <> None.
Proof.
  apply (proj1 (proj2 (proj2 (C9_frontmatter_blocks frontmatterExample)))).
  vm_compute. reflexivity.
Defined.

(** ** The title extractor *)

(** Claim C4: the title comes from the first [h1] element whenever there
    is one, wherever the [h2] elements are, and from the first [h2]
    element only when there is no [h1]; the content is the input with the
    text of that one element cut out where it was found, which is where
    that text first occurs (and trimmed), so that everything else stays;
    without [h1] and [h2] the input comes back with no title.  On the example the title is [A], the [h1]
    element is gone and the [h2] element stays. *)
Theorem C4_title_precedence (html : list N) :
  (forall m, js_match h1Pattern html = Some m ->
     title (extractTitleFromContent html) = or_null (titleText (mgroup m 1))
     /\ contentWithoutTitle (extractTitleFromContent html)
        = trim (take (mindex m) html ++ drop (mindex m + length (mstr m)) html)
     /\ index_of (mstr m) html = Some (mindex m)
     /\ forall t, t < mindex m -> exec_at h1Pattern html t = None)
  /\ (js_match h1Pattern html = None ->
      forall m, js_match h2Pattern html = Some m ->
        title (extractTitleFromContent html) = or_null (titleText (mgroup m 1))
        /\ contentWithoutTitle (extractTitleFromContent html)
           = trim (take (mindex m) html ++ drop (mindex m + length (mstr m)) html)
        /\ index_of (mstr m) html = Some (mindex m)
        /\ forall t, t < mindex m -> exec_at h2Pattern html t = None)
  /\ (js_match h1Pattern html = None -> js_match h2Pattern html = None ->
      extractTitleFromContent html = {| title := None; contentWithoutTitle := html |})
  /\ extractTitleFromContent (str "<h2>B</h2><h1>A</h1>")
     = {| title := Some (str "A"); contentWithoutTitle := str "<h2>B</h2>" |}.
Proof.
  split; [|split; [|split]].
  - intros m Hm.
    destruct (replace_str_match h1Pattern html m eq_refl Hm) as [Hr Hfirst].
    pose proof (js_match_first_occurrence h1Pattern html m eq_refl Hm) as Hidx.
    rewrite (extractTitle_of_match html m) by now rewrite Hm.
    simpl. now rewrite Hr.
  - intros Hn m Hm.
    destruct (replace_str_match h2Pattern html m eq_refl Hm) as [Hr Hfirst].
    pose proof (js_match_first_occurrence h2Pattern html m eq_refl Hm) as Hidx.
    rewrite (extractTitle_of_match html m) by now rewrite Hn, Hm.
    simpl. now rewrite Hr.
  - intros H1 H2. unfold extractTitleFromContent. now rewrite H1, H2.
  - vm_compute. reflexivity.
Qed.

Lemma C4_title_precedence_witness :
  title (extractTitleFromContent (str "<p>x</p><h2>B</h2><h1 id='t'>A</h1><h1>C</h1>"))
  = Some (str "A")
  /\ contentWithoutTitle
       (extractTitleFromContent (str "<p>x</p><h2>B</h2><h1 id='t'>A</h1><h1>C</h1>"))
     = str "<p>x</p><h2>B</h2><h1>C</h1>".
Proof.
  destruct (js_match h1Pattern (str "<p>x</p><h2>B</h2><h1 id='t'>A</h1><h1>C</h1>"))
    as [m|] eqn:E; [| vm_compute in E; discriminate E].
  destruct (proj1 (C4_title_precedence (str "<p>x</p><h2>B</h2><h1 id='t'>A</h1><h1>C</h1>"))
              m E) as [Ht [Hc _]].
  rewrite Ht, Hc. vm_compute in E. injection E as <-.
  split; vm_compute; reflexivity.
Defined.

(** * Further properties of the code *)

(** ** [processMarkdown] without patterns *)

(** [processMarkdown] told without patterns: a leading frontmatter block,
    from the opening line to the end of the first closing line after it,
    is dropped, and the rest is trimmed; without such a block the text is
    trimmed only. *)
Theorem processMarkdown_plain (content : list N) :
  processMarkdown content
  = trim (match frontmatterEnd content with
          | Some e => drop e content
          | None => content
          end).
Proof.
  unfold processMarkdown, replace, replace_with.
  change (global frontmatterRegex_strip) with false. cbv iota.
  rewrite strip_search. destruct (frontmatterEnd content); reflexivity.
Qed.

(** ** [trim] *)

Lemma trim_start_head (s : list N) :
  trim_start s = [] \/ exists c t, trim_start s = c :: t /\ is_space c = false.
Proof.
  induction s as [|c s IH]; [now left|]. cbn [trim_start].
  destruct (is_space c) eqn:E; [exact IH|]. right. now exists c, s.
Qed.

Lemma trim_start_suffix (s : list N) : exists n, trim_start s = drop n s.
Proof.
  induction s as [|c s [n IH]]; [now exists 0|]. cbn [trim_start].
  destruct (is_space c); [exists (S n); exact IH | now exists 0].
Qed.

Lemma trim_start_keeps (c : N) (t : list N) :
  is_space c = false -> trim_start (c :: t) = c :: t.
Proof. intros H. cbn [trim_start]. now rewrite H. Qed.

Lemma trim_start_app_keeps (s : list N) (c : N) :
  is_space c = false -> exists t, trim_start (s ++ [c]) = t ++ [c].
Proof.
  intros Hc. induction s as [|d s [t IH]].
  - exists []. cbn [app trim_start]. now rewrite Hc.
  - cbn [app trim_start]. destruct (is_space d); [now exists t|].
    now exists (d :: s).
Qed.

Lemma trim_end_keeps_head (c : N) (t : list N) :
  is_space c = false -> exists t', trim_end (c :: t) = c :: t'.
Proof.
  intros Hc. unfold trim_end. cbn [rev].
  destruct (trim_start_app_keeps (rev t) c Hc) as [u Hu].
  rewrite Hu, rev_app_distr. now exists (rev u).
Qed.

Lemma trim_end_last (s : list N) :
  trim_end s = [] \/ exists t c, trim_end s = t ++ [c] /\ is_space c = false.
Proof.
  unfold trim_end. destruct (trim_start_head (rev s)) as [->|[c [t [-> Hc]]]].
  - now left.
  - right. exists (rev t), c. now split.
Qed.

(** The result of [trim] neither starts nor ends with white space. *)
Lemma trim_trimmed (s : list N) :
  trim s = []
  \/ (exists c t, trim s = c :: t /\ is_space c = false)
     /\ (exists t c, trim s = t ++ [c] /\ is_space c = false).
Proof.
  unfold trim. destruct (trim_start_head s) as [->|[c [t [-> Hc]]]]; [now left|].
  right. split.
  - destruct (trim_end_keeps_head c t Hc) as [t' ->]. now exists c, t'.
  - destruct (trim_end_last (c :: t)) as [E|H]; [|exact H].
    destruct (trim_end_keeps_head c t Hc) as [t' Ht']. congruence.
Qed.

Lemma trim_start_no_space (s : list N) :
  Forall (fun c => is_space c = false) s -> trim_start s = s.
Proof. intros [|c t Hc _]; [reflexivity | now apply trim_start_keeps]. Qed.

Lemma trim_no_space (s : list N) :
  Forall (fun c => is_space c = false) s -> trim s = s.
Proof.
  intros H. unfold trim, trim_end. rewrite (trim_start_no_space s H).
  rewrite trim_start_no_space; [apply rev_involutive | now apply Forall_rev].
Qed.

(** ** The last step of [cleanHtml] *)

Lemma drop_run_head (p : N -> bool) (s : list N) :
  drop (run p s) s = [] \/ exists c t, drop (run p s) s = c :: t /\ p c = false.
Proof.
  induction s as [|c s IH]; [now left|]. cbn [run].
  destruct (p c) eqn:E; [exact IH|]. right. now exists c, s.
Qed.

Lemma run_ext (p q : N -> bool) (s : list N) :
  (forall c, p c = q c) -> run p s = run q s.
Proof.
  intros H. induction s as [|c s IH]; [reflexivity|]. cbn [run].
  now rewrite H, IH.
Qed.

Lemma leadingPattern_exec (s : list N) :
  exec_at leadingPattern s 0 = Some (MState (run not_lt s) []).
Proof.
  change (exec_at leadingPattern s 0)
    with (star_loop (step_if s (class_mem false true [CChar LT])) true Some
            (length s - 0) (MState 0 [])).
  apply star_loop_class_greedy; [cbn [pos]; lia|]. cbn [pos caps Nat.add].
  change (drop 0 s) with s. rewrite (run_ext _ not_lt); [reflexivity|].
  intros c. now rewrite class_mem_not1.
Qed.

Lemma cleanHtml_step4_plain (s : list N) :
  cleanHtml_step4 s = trim (drop (run not_lt s) s).
Proof.
  unfold cleanHtml_step4, replace, replace_with.
  change (global leadingPattern) with false. cbv iota.
  assert (Hsearch : search leadingPattern s = Some (0, MState (run not_lt s) [])).
  { apply search_from_here, leadingPattern_exec. }
  rewrite Hsearch. cbn [pos expand take app]. reflexivity.
Qed.

Lemma cleanHtml_head (html : list N) :
  cleanHtml html = [] \/ exists rest, cleanHtml html = LT :: rest.
Proof.
  unfold cleanHtml. rewrite cleanHtml_step4_plain.
  destruct (drop_run_head not_lt (cleanHtml_step3 (cleanHtml_step2 (cleanHtml_step1 html))))
    as [->|[c [t [-> Hc]]]]; [now left|].
  right. unfold not_lt in Hc. apply negb_false_iff, N.eqb_eq in Hc. subst c.
  unfold trim. rewrite trim_start_keeps by reflexivity.
  now apply trim_end_keeps_head.
Qed.

(** What [cleanHtml] returns is empty, or starts with [<] and does not
    end with white space. *)
Theorem cleanHtml_starts_with_tag (html : list N) :
  cleanHtml html = []
  \/ (exists rest, cleanHtml html = LT :: rest)
     /\ (exists t c, cleanHtml html = t ++ [c] /\ is_space c = false).
Proof.
  destruct (cleanHtml_head html) as [H|H]; [now left|]. right. split; [exact H|].
  destruct H as [rest H]. revert H. unfold cleanHtml. rewrite cleanHtml_step4_plain.
  intros H.
  destruct (trim_trimmed
              (drop (run not_lt (cleanHtml_step3 (cleanHtml_step2 (cleanHtml_step1 html))))
                 (cleanHtml_step3 (cleanHtml_step2 (cleanHtml_step1 html)))))
    as [H0|[_ He]]; [congruence | exact He].
Qed.

(** ** Global replacements over one class *)

Lemma exec_class rx s i neg items :
  source rx = Cls neg items ->
  exec_at rx s i
  = match nth_error s i with
    | Some c => if class_mem (ignoreCase rx) neg items c then Some (MState (S i) []) else None
    | None => None
    end.
Proof. intros H. unfold exec_at, match_at. rewrite H. reflexivity. Qed.

(** Removing every character of a class is a filter. *)
Lemma replace_class_remove rx s neg items :
  source rx = Cls neg items -> global rx = true ->
  replace rx [] s
  = List.filter (fun c => negb (class_mem (ignoreCase rx) neg items c)) s.
Proof.
  intros Hsrc Hg. unfold replace, replace_with. rewrite Hg.
  assert (H : forall f, (forall m g, f m g = []) ->
    forall n i, i <= length s -> S (length s) <= n + i ->
    replace_loop rx f s n i
    = List.filter (fun c => negb (class_mem (ignoreCase rx) neg items c)) (drop i s)).
  { intros f Hf. induction n as [|n IH]; intros i Hi Hn; [lia|]. cbn [replace_loop].
    destruct (length s <? i) eqn:Hg'; [apply Nat.ltb_lt in Hg'; lia|].
    rewrite (exec_class rx s i neg items Hsrc). unfold char_list.
    destruct (nth_error s i) as [c|] eqn:Hc.
    - pose proof (nth_error_lt _ _ _ Hc) as Hlt.
      rewrite (drop_nth_error _ _ _ Hc). cbn [List.filter].
      destruct (class_mem (ignoreCase rx) neg items c); cbn [negb pos].
      + rewrite Hf. cbn [app].
        replace (S i <=? i) with false by (symmetry; apply Nat.leb_gt; lia).
        apply IH; lia.
      + rewrite IH by lia. reflexivity.
    - rewrite (drop_nth_error_none _ _ Hc). cbn [app List.filter].
      apply nth_error_None in Hc. destruct n; [reflexivity|]. cbn [replace_loop].
      now replace (length s <? S i) with true by (symmetry; apply Nat.ltb_lt; lia). }
  rewrite (H (expand [])); [reflexivity | reflexivity | lia | lia].
Qed.

Lemma squeeze_true_run p d s :
  squeeze p d true s = squeeze p d false (drop (run p s) s).
Proof.
  induction s as [|c s IH]; [reflexivity|]. cbn [squeeze run].
  destruct (p c) eqn:E; [exact IH|]. cbn [drop squeeze]. now rewrite E.
Qed.

Lemma exec_plus_class (rx : regexp) (s : list N) (p : N -> bool) (m i : nat) :
  (forall x k, rep_loop s (step_if s p) k m x
               = rmatch (ignoreCase rx) s (source rx) x k) ->
  m <= run p (drop i s) ->
  exec_at rx s i = Some (MState (i + run p (drop i s)) []).
Proof.
  intros Hrx Hm. unfold exec_at, match_at. rewrite <- Hrx.
  now apply rep_loop_class_greedy.
Qed.

Lemma rep_loop_class_none s p k :
  forall m x, run p (drop (pos x) s) < m -> rep_loop s (step_if s p) k m x = None.
Proof.
  induction m as [|m IH]; intros x Hm; [lia|]. cbn [rep_loop].
  unfold step_if at 1, char_at.
  destruct (nth_error s (pos x)) as [d|] eqn:Hd; [|reflexivity].
  rewrite (drop_nth_error _ _ _ Hd) in Hm. cbn [run] in Hm.
  destruct (p d); [|reflexivity]. apply IH. cbn [advance pos]. lia.
Qed.

Lemma exec_plus_class_none (rx : regexp) (s : list N) (p : N -> bool) (m i : nat) :
  (forall x k, rep_loop s (step_if s p) k m x
               = rmatch (ignoreCase rx) s (source rx) x k) ->
  run p (drop i s) < m ->
  exec_at rx s i = None.
Proof.
  intros Hrx Hm. unfold exec_at, match_at. rewrite <- Hrx.
  now apply rep_loop_class_none.
Qed.

Lemma run_length p (t : list N) : run p t <= length t.
Proof.
  induction t as [|c t IH]; cbn [run length]; [lia|]. destruct (p c); lia.
Qed.

Lemma run_le p (s : list N) i : i <= length s -> i + run p (drop i s) <= length s.
Proof.
  intros Hi. pose proof (run_length p (drop i s)) as H. rewrite length_drop in H. lia.
Qed.

(** Replacing every run of a class by one character squeezes the runs. *)
Lemma replace_plus_squeeze rx s p d :
  (forall x k, rep_loop s (step_if s p) k 1 x
               = rmatch (ignoreCase rx) s (source rx) x k) ->
  global rx = true ->
  replace rx [TLit [d]] s = squeeze p d false s.
Proof.
  intros Hrx Hg. unfold replace, replace_with. rewrite Hg.
  assert (H : forall f, (forall m g, f m g = [d]) ->
    forall n i, i <= length s -> S (length s) <= n + i ->
    replace_loop rx f s n i = squeeze p d false (drop i s)).
  { intros f Hf. induction n as [|n IH]; intros i Hi Hn; [lia|]. cbn [replace_loop].
    destruct (length s <? i) eqn:Hg'; [apply Nat.ltb_lt in Hg'; lia|].
    destruct (nth_error s i) as [c|] eqn:Hc.
    - pose proof (nth_error_lt _ _ _ Hc) as Hlt.
      destruct (p c) eqn:Hp.
      + assert (Hrun : 1 <= run p (drop i s)).
        { rewrite (drop_nth_error _ _ _ Hc). cbn [run]. rewrite Hp. lia. }
        pose proof (run_le p s i Hi) as Hle.
        rewrite (exec_plus_class rx s p 1 i Hrx Hrun). cbn [pos]. rewrite Hf.
        replace (i + run p (drop i s) <=? i) with false by (symmetry; apply Nat.leb_gt; lia).
        rewrite IH by lia.
        rewrite (drop_nth_error _ _ _ Hc) at 2. cbn [squeeze app]. rewrite Hp.
        rewrite squeeze_true_run. do 2 f_equal.
        rewrite (drop_nth_error _ _ _ Hc). cbn [run]. rewrite Hp.
        rewrite drop_drop. f_equal. lia.
      + assert (Hrun : run p (drop i s) < 1).
        { rewrite (drop_nth_error _ _ _ Hc). cbn [run]. rewrite Hp. lia. }
        rewrite (exec_plus_class_none rx s p 1 i Hrx Hrun).
        unfold char_list. rewrite Hc, IH by lia.
        rewrite (drop_nth_error _ _ _ Hc). cbn [squeeze app]. now rewrite Hp.
    - assert (Hrun : run p (drop i s) < 1).
      { rewrite (drop_nth_error_none _ _ Hc). cbn [run]. lia. }
      rewrite (exec_plus_class_none rx s p 1 i Hrx Hrun).
      unfold char_list. rewrite Hc, (drop_nth_error_none _ _ Hc). cbn [app squeeze].
      apply nth_error_None in Hc. destruct n; [reflexivity|]. cbn [replace_loop].
      now replace (length s <? S i) with true by (symmetry; apply Nat.ltb_lt; lia). }
  rewrite (H (expand [TLit [d]])); [reflexivity | reflexivity | lia | lia].
Qed.

(** ** Squeezed runs *)

Lemma squeeze_ext p q d b s :
  (forall c, p c = q c) -> squeeze p d b s = squeeze q d b s.
Proof.
  intros H. revert b. induction s as [|c s IH]; intros b; [reflexivity|].
  cbn [squeeze]. now rewrite H, !IH.
Qed.

Lemma squeeze_Forall (Q : N -> Prop) p d b s :
  Q d -> Forall (fun c => p c = false -> Q c) s -> Forall Q (squeeze p d b s).
Proof.
  intros Hd Hs. revert b. induction Hs as [|c s Hc Hs IH]; intros b; [constructor|].
  cbn [squeeze]. destruct (p c) eqn:E.
  - destruct b; [apply IH | constructor; [exact Hd | apply IH]].
  - constructor; [now apply Hc | apply IH].
Qed.

Lemma squeeze_true_head p d s :
  match squeeze p d true s with c :: _ => p c = false | [] => True end.
Proof.
  induction s as [|c s IH]; [exact I|]. cbn [squeeze].
  destruct (p c) eqn:E; [exact IH | exact E].
Qed.

Lemma no_adjacent_cons p c t :
  no_adjacent p (c :: t)
  = match t with c' :: _ => negb (p c && p c') | [] => true end && no_adjacent p t.
Proof. reflexivity. Qed.

Lemma squeeze_no_adjacent p d b s : no_adjacent p (squeeze p d b s) = true.
Proof.
  revert b. induction s as [|c s IH]; intros b; [reflexivity|]. cbn [squeeze].
  destruct (p c) eqn:E.
  - destruct b; [apply IH|]. rewrite no_adjacent_cons, IH.
    pose proof (squeeze_true_head p d s) as H.
    destruct (squeeze p d true s) as [|c' u]; [reflexivity|].
    now rewrite H, andb_false_r.
  - rewrite no_adjacent_cons, IH, E.
    destruct (squeeze p d false s); reflexivity.
Qed.

Lemma squeeze_none p d s :
  Forall (fun c => p c = false) s -> forall b, squeeze p d b s = s.
Proof.
  induction 1 as [|c s Hc Hs IH]; intros b; [reflexivity|]. cbn [squeeze].
  now rewrite Hc, IH.
Qed.

Lemma squeeze_id p d s :
  (forall c, p c = true -> c = d) -> no_adjacent p s = true ->
  squeeze p d false s = s
  /\ match s with c :: _ => p c = false -> squeeze p d true s = s | [] => True end.
Proof.
  intros Hp. induction s as [|c s IH]; intros Hn; [now split|].
  rewrite no_adjacent_cons in Hn. apply andb_true_iff in Hn as [Hh Hn].
  destruct (IH Hn) as [IH1 IH2]. cbn [squeeze]. destruct (p c) eqn:E.
  - split; [|discriminate]. rewrite (Hp c E). f_equal.
    destruct s as [|c' u]; [reflexivity|]. apply IH2.
    cbn [andb] in Hh. now apply negb_true_iff in Hh.
  - split; [now rewrite IH1 | intros _; now rewrite IH1].
Qed.

Lemma filter_all (p : N -> bool) s :
  Forall (fun c => p c = true) s -> List.filter p s = s.
Proof.
  induction 1 as [|c s Hc Hs IH]; [reflexivity|]. cbn [List.filter].
  now rewrite Hc, IH.
Qed.

Lemma filter_Forall (p : N -> bool) s : Forall (fun c => p c = true) (List.filter p s).
Proof.
  induction s as [|c s IH]; [constructor|]. cbn [List.filter].
  destruct (p c) eqn:E; [now constructor | exact IH].
Qed.

(** ** [generateSlug] and [normalizeForComparison] *)

Lemma spaces_squeeze d s :
  replace spacesPattern [TLit [d]] s = squeeze is_space d false s.
Proof.
  rewrite (replace_plus_squeeze spacesPattern s (class_mem false false [CSpace]) d);
    [| reflexivity | reflexivity].
  apply squeeze_ext. intros c. unfold class_mem. cbn [existsb item_mem].
  now destruct (is_space c).
Qed.

Lemma hyphens_squeeze s :
  replace hyphensPattern [TLit (str "-")] s = squeeze is_hyphen 45 false s.
Proof.
  exact (replace_plus_squeeze hyphensPattern s (char_eq false 45) 45
           (fun x k => eq_refl) eq_refl).
Qed.

Lemma slug_char_not_space c : slug_char c = true -> is_space c = false.
Proof.
  unfold slug_char, is_lower, is_digit, is_space, in_range. intros H.
  repeat match goal with
  | H : _ || _ = true |- _ => apply orb_true_iff in H as [H|H]
  | H : _ && _ = true |- _ => apply andb_true_iff in H as [? ?]
  | H : N.leb _ _ = true |- _ => apply N.leb_le in H
  | H : N.eqb _ _ = true |- _ => apply N.eqb_eq in H
  end;
  repeat (apply orb_false_iff; split);
  try (apply andb_false_iff; (left; apply N.leb_gt; lia) || (right; apply N.leb_gt; lia));
  try (apply N.eqb_neq; lia).
Qed.

Lemma slug_class_char c :
  class_mem false true slugClass c = false -> is_space c = false -> slug_char c = true.
Proof.
  unfold class_mem, slugClass, slug_char. cbn [existsb item_mem andb orb].
  intros H Hs. rewrite Hs in H. unfold char_eq in H.
  unfold is_lower, is_digit. rewrite (N.eqb_sym c 45).
  destruct (in_range 97 122 c), (in_range 48 57 c), (N.eqb 45 c); try reflexivity.
  discriminate H.
Qed.

(** ** Groups, runs of a class and first matches *)

Lemma search_first rx s p y :
  p <= length s -> (forall t, t < p -> exec_at rx s t = None) ->
  exec_at rx s p = Some y -> search rx s = Some (p, y).
Proof.
  intros Hp Hno Hy. destruct (search rx s) as [[p' y']|] eqn:E.
  - apply search_some in E as [Hp' [Hy' Hno']].
    destruct (Nat.lt_trichotomy p p') as [Hlt|[->|Hgt]].
    + rewrite (Hno' p Hlt) in Hy. discriminate.
    + congruence.
    + rewrite (Hno p' Hgt) in Hy'. discriminate.
  - rewrite search_none in E. rewrite (E p Hp) in Hy. discriminate.
Qed.

(** A pattern that ends with its only group: the text of the group is a
    match of the pattern inside the group. *)
Lemma last_group_text ci s a b i y :
  match_at ci s (Seq a (Group 1 b)) i = Some y ->
  exists from to,
    Matches ci s b from to /\ group_text s y 1 = substring s from to.
Proof.
  unfold match_at. cbn [rmatch]. intros H.
  apply rmatch_sound in H as [y1 [_ H]].
  apply rmatch_sound in H as [y2 [Hb H]].
  injection H as <-. exists (pos y1), (pos y2). split; [exact Hb|].
  unfold group_text, set_cap. cbn [caps find_cap Nat.eqb]. reflexivity.
Qed.

Lemma Word_Star_class ci g neg items w :
  Word ci (Star g (Cls neg items)) w ->
  Forall (fun c => class_mem ci neg items c = true) w.
Proof.
  intros H. remember (Star g (Cls neg items)) as r eqn:Er.
  induction H; inversion Er; subst; [constructor|].
  apply Forall_app. split; [|auto].
  match goal with Hu : Word _ (Cls _ _) _ |- _ => inversion Hu; subst end.
  now repeat constructor.
Qed.

Lemma Word_AtLeast_class ci neg items m w :
  Word ci (AtLeast m (Cls neg items)) w ->
  m <= length w /\ Forall (fun c => class_mem ci neg items c = true) w.
Proof.
  revert w. induction m as [|m IH]; intros w H; inversion H; subst.
  - split; [lia | eapply Word_Star_class; eauto].
  - match goal with Hu : Word _ (Cls _ _) _ |- _ => inversion Hu; subst end.
    match goal with Hv : Word _ (AtLeast m _) _ |- _ => apply IH in Hv as [Hlen Hall] end.
    split; [cbn [app length]; lia | now constructor].
Qed.

Lemma class_AtLeast_Word ci neg items m w :
  m <= length w -> Forall (fun c => class_mem ci neg items c = true) w ->
  Word ci (AtLeast m (Cls neg items)) w.
Proof.
  revert w. induction m as [|m IH]; intros w Hlen Hall.
  - constructor. induction Hall as [|c w Hc Hw IHw]; [constructor|].
    change (c :: w) with ([c] ++ w). constructor; [now constructor | discriminate |].
    apply IHw. lia.
  - destruct Hall as [|c w Hc Hw]; [cbn [length] in Hlen; lia|].
    change (c :: w) with ([c] ++ w). constructor; [now constructor|].
    apply IH; [cbn [length] in Hlen; lia | exact Hw].
Qed.

Lemma id_class_char c : class_mem false false idClass c = id_char c.
Proof.
  unfold class_mem, idClass, id_char, is_lower, is_upper, is_digit.
  cbn [existsb item_mem andb orb xorb]. unfold char_eq.
  rewrite (N.eqb_sym 95 c), (N.eqb_sym 45 c).
  destruct (in_range 97 122 c), (in_range 65 90 c), (in_range 48 57 c),
    (N.eqb c 95), (N.eqb c 45); reflexivity.
Qed.

Lemma needs_outside_sound p s r i j :
  needs_outside p r = true -> Matches false s r i j ->
  exists c, In c s /\ p c = false.
Proof.
  intros Hn Hm. induction Hm; cbn [needs_outside] in Hn; try discriminate;
    repeat match goal with
    | H : _ || _ = true |- _ => apply orb_true_iff in H as [H|H]
    | H : _ && _ = true |- _ => apply andb_true_iff in H as [? ?]
    end; auto.
  - unfold char_eq in H0. apply N.eqb_eq in H0. subst d.
    exists c. split; [eapply nth_error_In; eauto | now apply negb_true_iff].
  - destruct neg; [discriminate|]. exists d. split; [eapply nth_error_In; eauto|].
    unfold class_mem in H0. cbn [xorb] in H0.
    assert (Hex : existsb (fun it => item_mem false it d) items = true)
      by (now destruct (existsb (fun it => item_mem false it d) items)).
    apply existsb_exists in Hex as [it [Hin Hit]].
    rewrite forallb_forall in Hn. specialize (Hn it Hin).
    destruct it; try discriminate. cbn [item_mem] in Hit. unfold char_eq in Hit.
    apply N.eqb_eq in Hit. subst d. now apply negb_true_iff.
Qed.

Lemma no_match_inside p rx s :
  ignoreCase rx = false -> needs_outside p (source rx) = true ->
  Forall (fun c => p c = true) s -> js_match rx s = None.
Proof.
  intros Hci Hn Hs. unfold js_match.
  destruct (search rx s) as [[i y]|] eqn:E; [|reflexivity].
  apply search_some in E as [_ [Hy _]]. unfold exec_at in Hy. rewrite Hci in Hy.
  apply match_at_sound in Hy.
  destruct (needs_outside_sound p s _ _ _ Hn Hy) as [c [Hin Hc]].
  rewrite Forall_forall in Hs. apply list_elem_of_In in Hin.
  rewrite (Hs c Hin) in Hc. discriminate.
Qed.

Lemma run_all_then_stop p (w t : list N) :
  Forall (fun c => p c = true) w ->
  match t with c :: _ => p c = false | [] => True end ->
  run p (w ++ t) = length w.
Proof.
  intros Hw Ht. induction Hw as [|c w Hc Hw IH]; cbn [app run length].
  - destruct t as [|c t]; [reflexivity | cbn [run]; now rewrite Ht].
  - now rewrite Hc, IH.
Qed.

(** ** Markers: what one replacement of the first step does *)

Lemma nonnull_sound ci s r i j :
  nonnull r = true -> Matches ci s r i j -> i < j.
Proof.
  intros Hn Hm. induction Hm; cbn [nonnull] in Hn; try discriminate;
    repeat match goal with
    | H : _ || _ = true |- _ => apply orb_true_iff in H as [H|H]
    | H : _ && _ = true |- _ => apply andb_true_iff in H as [? ?]
    end;
    repeat match goal with
    | H : Matches _ _ _ _ _ |- _ => apply Matches_le1 in H
    | H : ?A -> _, H' : ?A |- _ => specialize (H H')
    end; lia.
Qed.

Lemma substring_take (t : list N) c p q :
  q <= c -> substring (take c t) p q = substring t p q.
Proof.
  intros Hq. unfold substring. destruct (q - p) as [|n] eqn:E; [reflexivity|].
  rewrite !take_drop_commute, take_take. do 2 f_equal. lia.
Qed.

(** A match in a prefix is a match in the whole, and a match in the whole
    that ends inside a prefix is a match in the prefix. *)
Lemma Matches_take ci (t : list N) r c p q :
  local r = true -> q <= c ->
  (Matches ci (take c t) r p q <-> Matches ci t r p q).
Proof.
  intros Hloc Hq. split; intros H.
  - pose proof (Matches_le _ _ _ _ _ H) as [Hle Hlen].
    apply Matches_Word in H; [|exact Hloc]. rewrite substring_take in H by exact Hq.
    apply Word_Matches with (substring t p q); [exact H | exact Hle | | reflexivity].
    intros Hlt. specialize (Hlen Hlt). rewrite length_take in Hlen. lia.
  - pose proof (Matches_le _ _ _ _ _ H) as [Hle Hlen].
    apply Matches_Word in H; [|exact Hloc].
    apply Word_Matches with (substring t p q);
      [exact H | exact Hle | | now apply substring_take].
    intros Hlt. specialize (Hlen Hlt). rewrite length_take. lia.
Qed.

Lemma Matches_take_up ci (t : list N) r c p q :
  local r = true -> Matches ci (take c t) r p q -> Matches ci t r p q.
Proof.
  intros Hloc H. pose proof (Matches_le _ _ _ _ _ H) as [Hle Hlen].
  destruct (Nat.eq_dec p q) as [<-|Hne].
  - apply (Matches_take ci t r p p p Hloc (Nat.le_refl _)).
    apply Matches_Word in H; [|exact Hloc].
    apply Word_Matches with (substring (take c t) p p); [exact H | lia | lia |].
    now rewrite !substring_nil.
  - apply (Matches_take ci t r c p q Hloc); [|exact H].
    assert (q <= length (take c t)) by (apply Hlen; lia).
    rewrite length_take in H0. lia.
Qed.

Lemma marker_at_true s m p :
  marker_at s m p = true <-> exists q, Matches (fst m) s (snd m) p q.
Proof.
  unfold marker_at. destruct (match_at (fst m) s (snd m) p) as [y|] eqn:E.
  - split; [intros _ | reflexivity]. exists (pos y). now apply match_at_sound.
  - split; [discriminate|]. intros [q Hq]. apply match_at_complete in Hq. congruence.
Qed.

Lemma marker_at_take s m c p :
  local (snd m) = true -> marker_at (take c s) m p = true -> marker_at s m p = true.
Proof.
  intros Hloc H. apply marker_at_true in H as [q Hq]. apply marker_at_true.
  exists q. now apply Matches_take_up in Hq.
Qed.

Lemma pass_exec_end m t i y :
  exec_at (passPattern m) t i = Some y -> pos y = length t.
Proof.
  intros H. apply match_at_sound in H.
  change (source (passPattern m)) with (snd m ⋅ Star true any ⋅ Eol)%re in H.
  apply Matches_Seq_iff in H as [j [_ He]]. now apply Matches_Eol_iff in He.
Qed.

Lemma pass_exec_marker m t i :
  i <= length t ->
  (exec_at (passPattern m) t i <> None <-> marker_at t m i = true).
Proof.
  intros Hi. rewrite marker_at_true. split.
  - destruct (exec_at (passPattern m) t i) as [y|] eqn:E; [intros _ | congruence].
    apply match_at_sound in E.
    change (source (passPattern m)) with (snd m ⋅ Star true any ⋅ Eol)%re in E.
    apply Matches_Seq_iff in E as [j [E _]]. apply Matches_Seq_iff in E as [q [E _]].
    now exists q.
  - intros [q Hq]. apply (match_at_complete _ _ _ _ (length t)).
    change (source (passPattern m)) with (snd m ⋅ Star true any ⋅ Eol)%re.
    apply M_Seq with (length t); [|constructor]. apply M_Seq with q; [exact Hq|].
    apply Matches_any_star. pose proof (Matches_le2 _ _ _ _ _ Hq Hi). lia.
Qed.

Lemma first_index_spec f n i :
  i <= first_index f n i <= i + n
  /\ (first_index f n i < i + n -> f (first_index f n i) = true)
  /\ forall t, i <= t < first_index f n i -> f t = false.
Proof.
  revert i. induction n as [|n IH]; intros i; cbn [first_index].
  - repeat split; lia.
  - destruct (f i) eqn:E.
    + repeat split; try lia. intros _. exact E.
    + destruct (IH (S i)) as [H1 [H2 H3]]. repeat split; try lia.
      * intros Hlt. apply H2. lia.
      * intros t Ht. destruct (Nat.eq_dec t i) as [->|Hne]; [exact E | apply H3; lia].
Qed.

(** One replacement cuts the text at the first index where its marker
    matches. *)
Lemma pass_cut m t :
  replace (passPattern m) [] t = take (first_index (marker_at t m) (length t) 0) t.
Proof.
  unfold replace, replace_with. change (global (passPattern m)) with true. cbv iota.
  assert (Hend : forall f, (forall a g, f a g = []) -> forall n,
            replace_loop (passPattern m) f t n (length t) = []).
  { intros f Hf [|n]; [reflexivity|]. cbn [replace_loop].
    rewrite Nat.ltb_irrefl. unfold char_list.
    assert (Hc : nth_error t (length t) = None) by (apply nth_error_None; lia).
    rewrite Hc. assert (Hnext : replace_loop (passPattern m) f t n (S (length t)) = []).
    { destruct n; [reflexivity|]. cbn [replace_loop].
      now replace (length t <? S (length t)) with true by (symmetry; apply Nat.ltb_lt; lia). }
    rewrite Hnext.
    destruct (exec_at (passPattern m) t (length t)) as [y|] eqn:E; [|reflexivity].
    rewrite Hf, (pass_exec_end _ _ _ _ E), Nat.leb_refl. reflexivity. }
  assert (H : forall f, (forall a g, f a g = []) ->
    forall n i, i <= length t -> S (length t) <= n + i ->
    replace_loop (passPattern m) f t n i
    = substring t i (first_index (marker_at t m) (length t - i) i)).
  { intros f Hf. induction n as [|n IH]; intros i Hi Hn; [lia|].
    destruct (Nat.eq_dec i (length t)) as [->|Hne].
    { rewrite Hend by exact Hf. rewrite Nat.sub_diag. cbn [first_index].
      now rewrite substring_nil. }
    assert (Hlt : i < length t) by lia.
    destruct (length t - i) as [|k] eqn:Ek; [lia|]. cbn [replace_loop first_index].
    replace (length t <? i) with false by (symmetry; apply Nat.ltb_ge; lia).
    pose proof (pass_exec_marker m t i Hi) as Hiff.
    destruct (exec_at (passPattern m) t i) as [y|] eqn:E.
    - rewrite (proj1 Hiff) by congruence. rewrite Hf, (pass_exec_end _ _ _ _ E).
      replace (length t <=? i) with false by (symmetry; apply Nat.leb_gt; lia).
      rewrite Hend by exact Hf. now rewrite substring_nil.
    - destruct (marker_at t m i) eqn:Em; [destruct (proj2 Hiff eq_refl); reflexivity|].
      destruct (nth_error t i) as [c|] eqn:Hc; [| apply nth_error_None in Hc; lia].
      unfold char_list. rewrite Hc, IH by lia.
      replace (length t - S i) with k by lia.
      destruct (first_index_spec (marker_at t m) k (S i)) as [[Hlo Hhi] _].
      rewrite (substring_app' t i (S i) _) by lia.
      now rewrite (substring_one _ _ _ Hc). }
  rewrite (H (expand [])); [| reflexivity | lia | lia].
  rewrite Nat.sub_0_r. unfold substring. now rewrite Nat.sub_0_r.
Qed.

(** ** Slugs and normalized names *)

Section CaseMappingFacts.
Variable String_toLowerCase : list N -> list N.

Lemma generateSlug_steps (title : list N) :
  generateSlug String_toLowerCase title
  = trim (squeeze is_hyphen 45 false
            (squeeze is_space 45 false
               (List.filter (fun c => negb (class_mem false true slugClass c))
                  (String_toLowerCase title)))).
Proof.
  unfold generateSlug.
  rewrite (replace_class_remove nonSlugPattern _ true slugClass eq_refl eq_refl).
  now rewrite (spaces_squeeze 45), hyphens_squeeze.
Qed.

Lemma slug_before_trim (t : list N) :
  Forall (fun c => slug_char c = true)
    (squeeze is_hyphen 45 false
       (squeeze is_space 45 false
          (List.filter (fun c => negb (class_mem false true slugClass c)) t))).
Proof.
  apply squeeze_Forall; [reflexivity|].
  apply List.Forall_impl with (P := fun c => slug_char c = true); [auto|].
  apply squeeze_Forall; [reflexivity|].
  apply List.Forall_impl
    with (P := fun c => negb (class_mem false true slugClass c) = true);
    [| apply filter_Forall].
  intros c Hc Hs. apply slug_class_char; [now apply negb_true_iff | exact Hs].
Qed.

(** The final [trim] of [generateSlug] removes nothing: by then every
    blank has become a hyphen. *)
Theorem generateSlug_trim_removes_nothing (title : list N) :
  generateSlug String_toLowerCase title
  = replace hyphensPattern [TLit (str "-")]
      (replace spacesPattern [TLit (str "-")]
         (replace nonSlugPattern [] (String_toLowerCase title))).
Proof.
  rewrite generateSlug_steps.
  rewrite (replace_class_remove nonSlugPattern _ true slugClass eq_refl eq_refl).
  rewrite (spaces_squeeze 45), hyphens_squeeze.
  apply trim_no_space.
  apply List.Forall_impl with (P := fun c => slug_char c = true);
    [apply slug_char_not_space | apply slug_before_trim].
Qed.

Lemma generateSlug_chars (title : list N) :
  Forall (fun c => slug_char c = true) (generateSlug String_toLowerCase title)
  /\ no_adjacent is_hyphen (generateSlug String_toLowerCase title) = true.
Proof.
  rewrite generateSlug_steps. rewrite trim_no_space.
  - split; [apply slug_before_trim | apply squeeze_no_adjacent].
  - apply List.Forall_impl with (P := fun c => slug_char c = true);
      [apply slug_char_not_space | apply slug_before_trim].
Qed.

(** A slug holds nothing but lower-case letters, digits and hyphens, and
    never two hyphens in a row. *)
Theorem generateSlug_alphabet (title : list N) :
  Forall (fun c => slug_char c = true) (generateSlug String_toLowerCase title)
  /\ no_adjacent is_hyphen (generateSlug String_toLowerCase title) = true.
Proof.
  rewrite generateSlug_steps. rewrite trim_no_space.
  - split; [apply slug_before_trim | apply squeeze_no_adjacent].
  - apply List.Forall_impl with (P := fun c => slug_char c = true);
      [apply slug_char_not_space | apply slug_before_trim].
Qed.

(** The slug of a slug is the slug itself, as soon as lower-casing leaves
    the slug as it is. *)
Theorem generateSlug_idempotent (title : list N) :
  String_toLowerCase (generateSlug String_toLowerCase title)
    = generateSlug String_toLowerCase title ->
  generateSlug String_toLowerCase (generateSlug String_toLowerCase title)
    = generateSlug String_toLowerCase title.
Proof.
  intros Hlow. destruct (generateSlug_chars title) as [Hall Hadj].
  rewrite (generateSlug_steps (generateSlug String_toLowerCase title)), Hlow.
  set (u := generateSlug String_toLowerCase title) in *.
  rewrite filter_all.
  - rewrite (squeeze_none is_space 45 u).
    + destruct (squeeze_id is_hyphen 45 u) as [-> _]; [| exact Hadj |].
      * intros c Hc. unfold is_hyphen in Hc. now apply N.eqb_eq in Hc.
      * apply trim_no_space.
        apply List.Forall_impl with (P := fun c => slug_char c = true);
          [apply slug_char_not_space | exact Hall].
    + apply List.Forall_impl with (P := fun c => slug_char c = true);
        [apply slug_char_not_space | exact Hall].
  - apply List.Forall_impl with (P := fun c => slug_char c = true); [|exact Hall].
    intros c Hc. apply negb_true_iff.
    pose proof (slug_char_not_space c Hc) as Hs.
    unfold class_mem, slugClass. cbn [existsb item_mem andb orb xorb].
    unfold slug_char, is_lower, is_digit in Hc. unfold char_eq.
    rewrite (N.eqb_sym c 45) in Hc.
    destruct (in_range 97 122 c), (in_range 48 57 c), (N.eqb 45 c), (is_space c);
      try reflexivity; discriminate.
Qed.
End CaseMappingFacts.

Lemma generateSlug_idempotent_witness :
  generateSlug toLowerCase (generateSlug toLowerCase (str " Hello  World! -- 2024 "))
  = generateSlug toLowerCase (str " Hello  World! -- 2024 ").
Proof.
  apply (generateSlug_idempotent toLowerCase (str " Hello  World! -- 2024 ")).
  vm_compute. reflexivity.
Defined.

(** ** File ids *)

Lemma id_char_not_space c : id_char c = true -> is_space c = false.
Proof.
  unfold id_char, is_lower, is_upper, is_digit, is_space, in_range. intros H.
  repeat match goal with
  | H : _ || _ = true |- _ => apply orb_true_iff in H as [H|H]
  | H : _ && _ = true |- _ => apply andb_true_iff in H as [? ?]
  | H : N.leb _ _ = true |- _ => apply N.leb_le in H
  | H : N.eqb _ _ = true |- _ => apply N.eqb_eq in H
  end;
  repeat (apply orb_false_iff; split);
  try (apply andb_false_iff; (left; apply N.leb_gt; lia) || (right; apply N.leb_gt; lia));
  try (apply N.eqb_neq; lia).
Qed.

Lemma id_of_match rx a s m :
  source rx = Seq a (Group 1 (AtLeast 1 (Cls false idClass))) ->
  ignoreCase rx = false ->
  js_match rx s = Some m ->
  mgroup m 1 <> [] /\ Forall (fun c => id_char c = true) (mgroup m 1).
Proof.
  intros Hsrc Hci Hm. apply js_match_some in Hm as [p [y [Hs ->]]]. cbn [mgroup].
  apply search_some in Hs as [_ [Hy _]]. unfold exec_at in Hy. rewrite Hsrc, Hci in Hy.
  apply last_group_text in Hy as [from [to [Hb ->]]].
  apply Matches_Word in Hb; [|reflexivity].
  apply Word_AtLeast_class in Hb as [Hlen Hall]. split.
  - intros E. rewrite E in Hlen. cbn [length] in Hlen. lia.
  - apply List.Forall_impl with (P := fun c => class_mem false false idClass c = true);
      [| exact Hall].
    intros c Hc. now rewrite <- id_class_char.
Qed.

Lemma raw_id_test (t : list N) :
  test rawIdPattern t = true <->
  20 <= length t /\ Forall (fun c => id_char c = true) t.
Proof.
  assert (Hsub : substring t 0 (length t) = t).
  { unfold substring. rewrite Nat.sub_0_r. change (drop 0 t) with t. apply take_ge. lia. }
  unfold test. split.
  - destruct (search rawIdPattern t) as [[p y]|] eqn:E; [intros _ | discriminate].
    apply search_some in E as [_ [Hy _]]. apply match_at_sound in Hy.
    change (source rawIdPattern) with (Bol ⋅ AtLeast 20 (Cls false idClass) ⋅ Eol)%re in Hy.
    apply Matches_Seq_iff in Hy as [j [Hy He]].
    apply Matches_Seq_iff in Hy as [j0 [Hb Ha]].
    apply Matches_Bol_iff in Hb as [-> ->]. apply Matches_Eol_iff in He as [-> _].
    apply Matches_Word in Ha; [|reflexivity]. rewrite Hsub in Ha.
    apply Word_AtLeast_class in Ha as [Hlen Hall]. split; [exact Hlen|].
    apply List.Forall_impl with (P := fun c => class_mem false false idClass c = true);
      [| exact Hall].
    intros c Hc. now rewrite <- id_class_char.
  - intros [Hlen Hall].
    assert (Hm : Matches false t (source rawIdPattern) 0 (length t)).
    { change (source rawIdPattern) with (Bol ⋅ AtLeast 20 (Cls false idClass) ⋅ Eol)%re.
      apply M_Seq with (length t); [|constructor].
      apply M_Seq with 0; [constructor|].
      apply Word_Matches with t; [| lia | lia | exact Hsub].
      apply class_AtLeast_Word; [exact Hlen|].
      apply List.Forall_impl with (P := fun c => id_char c = true); [| exact Hall].
      intros c Hc. now rewrite id_class_char. }
    destruct (search rawIdPattern t) eqn:E; [reflexivity|].
    exfalso. apply (proj2 (search_not_none rawIdPattern t)); [|exact E].
    exists 0, (length t). split; [lia | exact Hm].
Qed.

(** Whatever [extractDriveFileId] returns is a file id in form: not
    empty, and made of letters, digits, [_] and [-] only. *)
Theorem extractDriveFileId_well_formed (driveUrl id : list N) :
  extractDriveFileId driveUrl = Some id ->
  id <> [] /\ Forall (fun c => id_char c = true) id.
Proof.
  unfold extractDriveFileId. destruct driveUrl as [|c0 u]; [discriminate|].
  set (url := c0 :: u).
  destruct (js_match fileIdPattern url) as [m|] eqn:E1.
  { intros H. injection H as <-. exact (id_of_match fileIdPattern _ _ _ eq_refl eq_refl E1). }
  destruct (js_match openIdPattern url) as [m|] eqn:E2.
  { intros H. injection H as <-. exact (id_of_match openIdPattern _ _ _ eq_refl eq_refl E2). }
  destruct (js_match queryIdPattern url) as [m|] eqn:E3.
  { intros H. injection H as <-. exact (id_of_match queryIdPattern _ _ _ eq_refl eq_refl E3). }
  destruct (test rawIdPattern (trim url)) eqn:E4; [|discriminate].
  intros H. injection H as <-. apply raw_id_test in E4 as [Hlen Hall].
  split; [|exact Hall]. intros E. rewrite E in Hlen. cbn [length] in Hlen. lia.
Qed.

(** A text made of id characters only is a file id when it has twenty
    characters or more, and is refused otherwise. *)
Theorem extractDriveFileId_raw (id : list N) :
  Forall (fun c => id_char c = true) id ->
  extractDriveFileId id = if 20 <=? length id then Some id else None.
Proof.
  intros Hall. unfold extractDriveFileId. destruct id as [|c0 u]; [reflexivity|].
  set (s := c0 :: u) in *.
  rewrite (no_match_inside id_char fileIdPattern s eq_refl eq_refl Hall).
  rewrite (no_match_inside id_char openIdPattern s eq_refl eq_refl Hall).
  rewrite (no_match_inside id_char queryIdPattern s eq_refl eq_refl Hall).
  rewrite trim_no_space
    by (apply List.Forall_impl with (P := fun c => id_char c = true);
        [apply id_char_not_space | exact Hall]).
  destruct (20 <=? length s) eqn:Hlen.
  - apply Nat.leb_le in Hlen.
    now rewrite (proj2 (raw_id_test s) (conj Hlen Hall)).
  - apply Nat.leb_gt in Hlen. destruct (test rawIdPattern s) eqn:E; [|reflexivity].
    apply raw_id_test in E as [Hlen' _]. lia.
Qed.

Lemma extractDriveFileId_well_formed_witness :
  str "1AbC_dEf-123" <> [] /\ Forall (fun c => id_char c = true) (str "1AbC_dEf-123").
Proof.
  apply (extractDriveFileId_well_formed
           (str "https://drive.google.com/open?id=1AbC_dEf-123&usp=drive_fs")
           (str "1AbC_dEf-123")).
  vm_compute. reflexivity.
Defined.

Lemma extractDriveFileId_raw_witness :
  extractDriveFileId (str "1L5KUiI3d0Wx-drx17Jq_xBSTUTSI9rqIxvAxnFrjCpo")
  = Some (str "1L5KUiI3d0Wx-drx17Jq_xBSTUTSI9rqIxvAxnFrjCpo")
  /\ extractDriveFileId (str "0123456789abcdefghi") = None.
Proof.
  split.
  - apply (extractDriveFileId_raw (str "1L5KUiI3d0Wx-drx17Jq_xBSTUTSI9rqIxvAxnFrjCpo")).
    vm_compute. repeat constructor.
  - apply (extractDriveFileId_raw (str "0123456789abcdefghi")).
    vm_compute. repeat constructor.
Defined.

Lemma exec_file_id (s : list N) (i : nat) :
  exec_at fileIdPattern s i
  = if lit_prefix false (str "/file/d/") (drop i s)
    then rep_loop s (step_if s (class_mem false false idClass))
           (fun z => Some (set_cap 1 (i + 8) z)) 1 (MState (i + 8) [])
    else None.
Proof.
  change (exec_at fileIdPattern s i)
    with (rmatch false s (lit (str "/file/d/")) (MState i [])
            (fun y => rep_loop s (step_if s (class_mem false false idClass))
                        (fun z => Some (set_cap 1 (pos y) z)) 1 y)).
  now rewrite rmatch_lit.
Qed.

Lemma file_link_no_earlier (rest : list N) (t : nat) :
  t < 24 -> lit_prefix false (str "/file/d/") (drop t (driveFileLink ++ rest)) = false.
Proof.
  intros Ht. do 24 (destruct t as [|t]; [reflexivity|]). lia.
Qed.

(** The usual link to a file gives the id back: the id is what stands
    after [/file/d/], up to the first character that cannot be part of an
    id. *)
Theorem extractDriveFileId_file_link (id tail : list N) :
  id <> [] ->
  Forall (fun c => id_char c = true) id ->
  match tail with c :: _ => id_char c = false | [] => True end ->
  extractDriveFileId (driveFileLink ++ id ++ tail) = Some id.
Proof.
  intros Hne Hall Htail.
  set (url := driveFileLink ++ id ++ tail).
  assert (Hrun : run (class_mem false false idClass) (id ++ tail) = length id).
  { apply run_all_then_stop.
    - apply List.Forall_impl with (P := fun c => id_char c = true); [| exact Hall].
      intros c Hc. now rewrite id_class_char.
    - destruct tail as [|c tl]; [exact I | now rewrite id_class_char]. }
  assert (Hexec : exec_at fileIdPattern url 24
                  = Some (MState (32 + length id) [(1, (32, 32 + length id))])).
  { rewrite exec_file_id.
    change (lit_prefix false (str "/file/d/") (drop 24 url)) with true. cbv iota.
    change (24 + 8) with 32.
    apply rep_loop_class_greedy; cbn [pos caps];
      change (drop 32 url) with (id ++ tail); rewrite Hrun.
    - destruct id; [congruence | cbn [length]; lia].
    - reflexivity. }
  assert (Hlen : 24 <= length url).
  { unfold url. rewrite length_app. change (length driveFileLink) with 32. lia. }
  assert (Hsearch : search fileIdPattern url
                    = Some (24, MState (32 + length id) [(1, (32, 32 + length id))])).
  { apply search_first; [exact Hlen | | exact Hexec].
    intros t Ht. rewrite exec_file_id. unfold url.
    now rewrite (file_link_no_earlier (id ++ tail) t Ht). }
  assert (Hmatch : exists m, js_match fileIdPattern url = Some m /\ mgroup m 1 = id).
  { unfold js_match. rewrite Hsearch. eexists. split; [reflexivity|].
    cbn [mgroup]. unfold group_text. cbn [caps find_cap Nat.eqb].
    exact (substring_middle driveFileLink id tail). }
  destruct Hmatch as [m [Hm Hid]].
  unfold extractDriveFileId. rewrite Hm, Hid.
  destruct url as [|c u] eqn:Eu; [|reflexivity].
  unfold url in Eu. discriminate Eu.
Qed.

Lemma extractDriveFileId_file_link_witness :
  extractDriveFileId (driveFileLink ++ str "1AbC_dEf-123" ++ str "/view?usp=sharing")
  = Some (str "1AbC_dEf-123").
Proof.
  apply (extractDriveFileId_file_link (str "1AbC_dEf-123") (str "/view?usp=sharing")).
  - vm_compute. discriminate.
  - vm_compute. repeat constructor.
  - vm_compute. reflexivity.
Defined.

(** ** The first step of [cleanHtml] *)

Lemma pass_no_marker m t p :
  marker_ok m = true -> marker_at (replace (passPattern m) [] t) m p = false.
Proof.
  intros Hok. apply andb_true_iff in Hok as [Hloc Hnn]. rewrite pass_cut.
  set (c := first_index (marker_at t m) (length t) 0).
  destruct (marker_at (take c t) m p) eqn:E; [|reflexivity]. exfalso.
  apply marker_at_true in E as [q Hq].
  pose proof (nonnull_sound _ _ _ _ _ Hnn Hq) as Hpq.
  pose proof (Matches_le _ _ _ _ _ Hq) as [_ Hlen]. specialize (Hlen Hpq).
  rewrite length_take in Hlen.
  apply Matches_take_up in Hq; [|exact Hloc].
  destruct (first_index_spec (marker_at t m) (length t) 0) as [_ [_ Hno]].
  assert (Hf : marker_at t m p = false) by (apply Hno; fold c; lia).
  assert (Ht : marker_at t m p = true) by (apply marker_at_true; eauto).
  congruence.
Qed.

Lemma passes_facts (ms : list marker) :
  Forall (fun m => marker_ok m = true) ms ->
  forall t,
    (exists n, fold_left (fun t m => replace (passPattern m) [] t) ms t = take n t)
    /\ (forall m p, In m ms ->
          marker_at (fold_left (fun t m => replace (passPattern m) [] t) ms t) m p = false)
    /\ (fold_left (fun t m => replace (passPattern m) [] t) ms t <> t ->
        exists m, In m ms
          /\ marker_at t m
               (length (fold_left (fun t m => replace (passPattern m) [] t) ms t)) = true).
Proof.
  induction 1 as [|m0 ms Hok Hms IH]; intros t.
  - cbn [fold_left]. split; [|split].
    + exists (length t). now rewrite take_ge.
    + intros m p [].
    + congruence.
  - rewrite fold_left_step.
    set (t1 := replace (passPattern m0) [] t).
    destruct (IH t1) as [[n Hn] [Hno Hcut]].
    assert (Ht1 : t1 = take (first_index (marker_at t m0) (length t) 0) t)
      by apply pass_cut.
    set (c := first_index (marker_at t m0) (length t) 0) in *.
    pose proof (proj1 (andb_true_iff _ _) Hok) as [Hloc0 _].
    split; [|split].
    + exists (min n c). now rewrite Hn, Ht1, take_take.
    + intros m p [<-|Hin]; [|now apply Hno].
      rewrite Hn. destruct (marker_at (take n t1) m0 p) eqn:E; [|reflexivity].
      apply marker_at_take in E; [|exact Hloc0].
      unfold t1 in E. now rewrite pass_no_marker in E.
    + intros Hne.
      destruct (List.list_eq_dec N.eq_dec
                  (fold_left (fun t m => replace (passPattern m) [] t) ms t1) t1)
        as [Heq|Hneq].
      * rewrite Heq in *. exists m0. split; [now left|].
        destruct (first_index_spec (marker_at t m0) (length t) 0) as [[_ Hhi] [Hfound _]].
        fold c in Hhi, Hfound.
        assert (Hc : c < length t).
        { destruct (Nat.eq_dec c (length t)) as [Ec|]; [|lia].
          exfalso. apply Hne. rewrite Ht1, Ec. now apply take_ge. }
        rewrite Ht1, length_take. replace (min c (length t)) with c by lia.
        apply Hfound. lia.
      * destruct (Hcut Hneq) as [m [Hin Hm]]. exists m. split; [now right|].
        apply (marker_at_take t m c); [| rewrite <- Ht1; exact Hm].
        rewrite Forall_forall in Hms. apply list_elem_of_In in Hin.
        specialize (Hms m Hin). now apply andb_true_iff in Hms.
Qed.

Lemma markers_ok : Forall (fun m => marker_ok m = true) markers.
Proof.
  apply Forall_forall. intros m Hm. apply list_elem_of_In in Hm.
  assert (H : forallb marker_ok markers = true) by (vm_compute; reflexivity).
  rewrite forallb_forall in H. now apply H.
Qed.

Lemma any_marker_at_true s p :
  any_marker_at s p = true <-> exists m, In m markers /\ marker_at s m p = true.
Proof. unfold any_marker_at. apply existsb_exists. Qed.

(** The first step only ever removes an end of the text, and in what it
    returns no marker matches any more. *)
Theorem cleanHtml_step1_prefix_without_markers (html : list N) :
  (exists n, cleanHtml_step1 html = take n html)
  /\ forall p, any_marker_at (cleanHtml_step1 html) p = false.
Proof.
  rewrite cleanHtml_step1_markers.
  destruct (passes_facts markers markers_ok html) as [Hpre [Hno _]].
  split; [exact Hpre|]. intros p.
  destruct (any_marker_at _ p) eqn:E; [|reflexivity].
  apply any_marker_at_true in E as [m [Hin Hm]]. now rewrite Hno in Hm.
Qed.

Lemma cleanHtml_step1_cut (html : list N) :
  cleanHtml_step1 html <> html ->
  any_marker_at html (length (cleanHtml_step1 html)) = true.
Proof.
  rewrite cleanHtml_step1_markers. intros Hne.
  destruct (passes_facts markers markers_ok html) as [_ [_ Hcut]].
  destruct (Hcut Hne) as [m [Hin Hm]]. apply any_marker_at_true. eauto.
Qed.

Lemma cleanHtml_step1_whole (html : list N) :
  (forall p, any_marker_at html p = false) -> cleanHtml_step1 html = html.
Proof.
  intros Hnone.
  destruct (List.list_eq_dec N.eq_dec (cleanHtml_step1 html) html) as [|Hne]; [assumption|].
  pose proof (cleanHtml_step1_cut html Hne) as H. now rewrite Hnone in H.
Qed.

(** Where the first step removes something, the cut is at an index of the
    input where a marker matches; an input in which no marker matches is
    returned whole. *)
Theorem cleanHtml_step1_cuts_at_marker (html : list N) :
  (cleanHtml_step1 html <> html ->
   any_marker_at html (length (cleanHtml_step1 html)) = true)
  /\ ((forall p, any_marker_at html p = false) -> cleanHtml_step1 html = html).
Proof.
  assert (H : cleanHtml_step1 html <> html ->
              any_marker_at html (length (cleanHtml_step1 html)) = true).
  { rewrite cleanHtml_step1_markers. intros Hne.
    destruct (passes_facts markers markers_ok html) as [_ [_ Hcut]].
    destruct (Hcut Hne) as [m [Hin Hm]]. apply any_marker_at_true. eauto. }
  split; [exact H|]. intros Hnone.
  destruct (List.list_eq_dec N.eq_dec (cleanHtml_step1 html) html) as [|Hne]; [assumption|].
  specialize (H Hne). now rewrite Hnone in H.
Qed.

Lemma cleanHtml_step1_cuts_at_marker_witness :
  any_marker_at (str "<p>a</p><h2>Notes:</h2><p>b</p>")
    (length (cleanHtml_step1 (str "<p>a</p><h2>Notes:</h2><p>b</p>"))) = true.
Proof.
  apply (proj1 (cleanHtml_step1_cuts_at_marker (str "<p>a</p><h2>Notes:</h2><p>b</p>"))).
  vm_compute. discriminate.
Defined.

(** ** [extractFrontmatter] without patterns *)

Lemma extract_exec_0 (s : list N) :
  exec_at frontmatterRegex_extract s 0
  = if is_prefix OPENING s then
      match index_of (nl ++ str "---") (drop (length OPENING) s) with
      | Some j =>
          Some (MState (length OPENING + j + 4)
                  [(1, (length OPENING, length OPENING + j))])
      | None => None
      end
    else None.
Proof.
  change (exec_at frontmatterRegex_extract s 0)
    with (rmatch false s (lit OPENING) (MState 0 [])
            (fun y => star_loop (rmatch false s any) false
                        (fun z => rmatch false s (lit (nl ++ str "---"))
                                    (set_cap 1 (pos y) z) Some)
                        (length s - pos y) y)).
  rewrite rmatch_lit, lit_prefix_false. cbn [pos caps]. change (drop 0 s) with s.
  destruct (is_prefix OPENING s); [|reflexivity].
  change (0 + length OPENING) with (length OPENING).
  rewrite (star_loop_any_lazy false s (nl ++ str "---")
             (fun j c => MState (j + 4) ((1, (length OPENING, j)) :: c))).
  - cbn [pos caps]. destruct (index_of (nl ++ str "---") (drop (length OPENING) s));
      reflexivity.
  - intros z. rewrite rmatch_lit, lit_prefix_false. reflexivity.
  - cbn [pos]. lia.
Qed.

Lemma extract_exec_later (s : list N) i : 0 < i -> exec_at frontmatterRegex_extract s i = None.
Proof.
  intros Hi. apply match_at_none. intros j Hm.
  apply (after_bol_local (source frontmatterRegex_extract)
           (Eps ⋅ l "---" ⋅ LF ⋅ Group 1 (Star false any) ⋅ LF ⋅ l "---") eq_refl) in Hm.
  lia.
Qed.

(** [extractFrontmatter] reads the lines between the opening line and the
    first later line feed that three hyphens follow, and nothing when the
    text does not start with the opening line or has no such line feed. *)
Theorem extractFrontmatter_plain (content : list N) :
  extractFrontmatter content
  = match frontmatterInner content with
    | Some inner => Some (fold_left frontmatterLine (split_on 10 inner) ∅)
    | None => None
    end.
Proof.
  unfold extractFrontmatter, js_match, frontmatterInner.
  pose proof (extract_exec_0 content) as H0.
  destruct (is_prefix OPENING content).
  - destruct (index_of (nl ++ str "---") (drop (length OPENING) content)) as [j|].
    + rewrite (search_from_here _ _ _ _ _ H0 : search _ _ = _).
      cbn [mgroup]. unfold group_text. cbn [caps find_cap Nat.eqb]. unfold substring.
      now replace (length OPENING + j - length OPENING) with j by lia.
    + assert (Hs : search frontmatterRegex_extract content = None).
      { apply search_none. intros [|t] _; [exact H0 | apply extract_exec_later; lia]. }
      now rewrite Hs.
  - assert (Hs : search frontmatterRegex_extract content = None).
    { apply search_none. intros [|t] _; [exact H0 | apply extract_exec_later; lia]. }
    now rewrite Hs.
Qed.

(** ** [normalizeForComparison] *)

Lemma plain_class_char c :
  class_mem false true plainClass c = false -> is_space c = false -> plain_char c = true.
Proof.
  unfold class_mem, plainClass, plain_char. cbn [existsb item_mem andb orb].
  intros H Hs. rewrite Hs in H. unfold is_lower, is_digit.
  destruct (in_range 97 122 c), (in_range 48 57 c); try reflexivity.
  discriminate H.
Qed.

Section NormalizeFacts.
Variable String_toLowerCase : list N -> list N.

(** A normalized name holds nothing but lower-case letters, digits and
    blanks, and never two blanks in a row. *)
Theorem normalizeForComparison_alphabet (s : list N) :
  Forall (fun c => plain_char c = true) (normalizeForComparison String_toLowerCase s)
  /\ no_adjacent is_space (normalizeForComparison String_toLowerCase s) = true.
Proof.
  unfold normalizeForComparison.
  rewrite (replace_class_remove nonPlainPattern _ true plainClass eq_refl eq_refl).
  rewrite (spaces_squeeze 32). split; [|apply squeeze_no_adjacent].
  apply squeeze_Forall; [reflexivity|].
  apply List.Forall_impl
    with (P := fun c => negb (class_mem false true plainClass c) = true);
    [| apply filter_Forall].
  intros c Hc Hs. apply plain_class_char; [now apply negb_true_iff | exact Hs].
Qed.
End NormalizeFacts.

(** ** The first step and the earliest marker *)

Lemma earliest_spec (s : list N) :
  earliest s <= length s
  /\ (earliest s < length s -> any_marker_at s (earliest s) = true)
  /\ forall p, p < earliest s -> any_marker_at s p = false.
Proof.
  unfold earliest.
  destruct (first_index_spec (any_marker_at s) (length s) 0) as [[_ Hhi] [Hf Hno]].
  repeat split; [lia | intros H; apply Hf; lia | intros p Hp; apply Hno; lia].
Qed.

Lemma marker_in_any s m p :
  In m markers -> marker_at s m p = true -> any_marker_at s p = true.
Proof. intros Hin Hm. apply any_marker_at_true. eauto. Qed.

Lemma marker_ok_of m : In m markers -> local (snd m) = true /\ nonnull (snd m) = true.
Proof.
  intros Hin. pose proof markers_ok as H. rewrite Forall_forall in H.
  apply list_elem_of_In in Hin. specialize (H m Hin). now apply andb_true_iff in H.
Qed.

(** The index where one replacement cuts a prefix of the input. *)
Lemma pass_on_prefix (s : list N) m c :
  In m markers -> c <= length s ->
  exists c', c' <= c
    /\ replace (passPattern m) [] (take c s) = take c' s
    /\ (c' < c -> marker_at s m c' = true)
    /\ forall p, p < c' -> marker_at (take c s) m p = false.
Proof.
  intros Hin Hc. destruct (marker_ok_of m Hin) as [Hloc _].
  rewrite pass_cut. set (t := take c s).
  assert (Hlen : length t = c) by (unfold t; rewrite length_take; lia).
  destruct (first_index_spec (marker_at t m) (length t) 0) as [[_ Hhi] [Hf Hno]].
  set (c' := first_index (marker_at t m) (length t) 0) in *.
  exists c'. split; [lia|]. split; [|split].
  - unfold t. rewrite take_take. f_equal. lia.
  - intros Hlt. apply (marker_at_take s m c); [exact Hloc|]. apply Hf. lia.
  - intros p Hp. apply Hno. lia.
Qed.

Section ClearSpan.
Variable s : list N.
Variable M : marker.
Variable q : nat.
Hypothesis M_in : In M markers.
Hypothesis M_here : Matches (fst M) s (snd M) (earliest s) q.
Hypothesis M_clear : forall t, earliest s < t < q -> any_marker_at s t = false.

Lemma clear_pass_at_earliest m :
  In m markers ->
  replace (passPattern m) [] (take (earliest s) s) = take (earliest s) s.
Proof.
  intros Hin. destruct (earliest_spec s) as [Hle [_ Hno]].
  destruct (pass_on_prefix s m (earliest s) Hin Hle) as [c' [Hc' [-> [Hm _]]]].
  destruct (Nat.eq_dec c' (earliest s)) as [->|Hne]; [reflexivity|].
  assert (Hlt : c' < earliest s) by lia.
  pose proof (marker_in_any s m c' Hin (Hm Hlt)) as Ha.
  rewrite (Hno c' Hlt) in Ha. discriminate.
Qed.

Lemma clear_pass_beyond m c :
  In m markers -> q <= c -> c <= length s ->
  exists c', replace (passPattern m) [] (take c s) = take c' s
    /\ (c' = earliest s \/ (q <= c' /\ c' <= length s))
    /\ (m = M -> c' = earliest s).
Proof.
  intros Hin Hq Hc. destruct (earliest_spec s) as [Hle [_ Hno]].
  destruct (pass_on_prefix s m c Hin Hc) as [c' [Hc' [Heq [Hm Hfirst]]]].
  exists c'. split; [exact Heq|].
  assert (Hpos : c' = c \/ (c' < c /\ earliest s <= c' /\ ~ (earliest s < c' < q))).
  { destruct (Nat.eq_dec c' c) as [|Hne]; [now left|]. right.
    assert (Hlt : c' < c) by lia. split; [exact Hlt|].
    pose proof (marker_in_any s m c' Hin (Hm Hlt)) as Ha. split.
    - destruct (Nat.le_gt_cases (earliest s) c') as [|Hgt]; [assumption|].
      rewrite (Hno c' Hgt) in Ha. discriminate.
    - intros Hin'. rewrite (M_clear c' Hin') in Ha. discriminate. }
  split.
  - destruct Hpos as [->|[Hlt [Hge Hout]]]; [right; lia|].
    destruct (Nat.eq_dec c' (earliest s)) as [|Hne]; [now left | right; lia].
  - intros ->. destruct (marker_ok_of M M_in) as [Hloc Hnn].
    pose proof (nonnull_sound _ _ _ _ _ Hnn M_here) as Hlt.
    assert (Hat : marker_at (take c s) M (earliest s) = true).
    { apply marker_at_true. exists q. now apply (Matches_take (fst M) s (snd M) c). }
    destruct (Nat.le_gt_cases c' (earliest s)) as [Hle'|Hgt].
    + destruct Hpos as [->|[_ [Hge _]]]; lia.
    + rewrite (Hfirst (earliest s) Hgt) in Hat. discriminate.
Qed.

Lemma clear_fold (ms : list marker) :
  (forall m, In m ms -> In m markers) ->
  forall t,
    (t = take (earliest s) s
     \/ exists c, q <= c /\ c <= length s /\ t = take c s /\ In M ms) ->
    fold_left (fun t m => replace (passPattern m) [] t) ms t = take (earliest s) s.
Proof.
  induction ms as [|m ms IH]; intros Hsub t Ht.
  - destruct Ht as [->|[c [_ [_ [_ []]]]]]. reflexivity.
  - rewrite fold_left_step. apply IH; [intros m' Hm'; apply Hsub; now right|].
    assert (Hm : In m markers) by (apply Hsub; now left).
    destruct Ht as [->|[c [Hq [Hc [-> HM]]]]].
    + left. now apply clear_pass_at_earliest.
    + destruct (clear_pass_beyond m c Hm Hq Hc) as [c' [-> [Hc' HisM]]].
      destruct HM as [->|HM]; [left; now rewrite (HisM eq_refl)|].
      destruct Hc' as [->|[Hq' Hlen']]; [now left|].
      right. exists c'. repeat split; assumption.
Qed.
End ClearSpan.

Lemma clear_span_true (s : list N) :
  clear_span s = true ->
  earliest s = length s
  \/ exists M q, In M markers /\ Matches (fst M) s (snd M) (earliest s) q
       /\ forall t, earliest s < t < q -> any_marker_at s t = false.
Proof.
  unfold clear_span. intros H. apply orb_true_iff in H as [H|H].
  - left. now apply Nat.eqb_eq.
  - right. apply existsb_exists in H as [M [Hin HM]].
    destruct (match_at (fst M) s (snd M) (earliest s)) as [y|] eqn:E; [|discriminate].
    exists M, (pos y). split; [exact Hin|]. split; [now apply match_at_sound|].
    intros t Ht. rewrite forallb_forall in HM.
    apply negb_true_iff. apply HM. apply in_seq. lia.
Qed.

(** Where the earliest marker is in the clear, the first step returns
    exactly the text before the earliest marker. *)
Theorem cleanHtml_step1_truncates_at_earliest (html : list N) :
  clear_span html = true -> cleanHtml_step1 html = truncate_at_earliest html.
Proof.
  intros H. unfold truncate_at_earliest.
  apply clear_span_true in H as [He|[M [q [Hin [Hm Hclear]]]]].
  - rewrite He, take_ge by lia.
    apply cleanHtml_step1_whole. intros p.
    destruct (earliest_spec html) as [_ [_ Hno]].
    destruct (Nat.lt_ge_cases p (length html)) as [Hlt|Hge]; [apply Hno; lia|].
    destruct (any_marker_at html p) eqn:E; [|reflexivity].
    apply any_marker_at_true in E as [m [Hmin Hmat]].
    apply marker_at_true in Hmat as [j Hj].
    destruct (marker_ok_of m Hmin) as [_ Hnn].
    pose proof (nonnull_sound _ _ _ _ _ Hnn Hj).
    pose proof (Matches_le _ _ _ _ _ Hj) as [_ Hlen]. lia.
  - rewrite cleanHtml_step1_markers.
    apply (clear_fold html M q Hin Hm Hclear markers (fun m Hm' => Hm')).
    destruct (marker_ok_of M Hin) as [_ Hnn].
    pose proof (nonnull_sound _ _ _ _ _ Hnn Hm) as Hlt.
    pose proof (Matches_le _ _ _ _ _ Hm) as [_ Hlen].
    right. exists (length html). repeat split; [lia | lia | | exact Hin].
    now rewrite take_ge.
Qed.

Lemma cleanHtml_step1_truncates_at_earliest_witness :
  cleanHtml_step1 (str "<p>a</p><hr class='x'><p>Tags: b</p>")
  = truncate_at_earliest (str "<p>a</p><hr class='x'><p>Tags: b</p>").
Proof.
  apply (cleanHtml_step1_truncates_at_earliest (str "<p>a</p><hr class='x'><p>Tags: b</p>")).
  vm_compute. reflexivity.
Defined.

(** ** The rows of the sheet *)

Lemma map_index_length {A B} (f : A -> nat -> B) i xs :
  length (Sheets.map_index f i xs) = length xs.
Proof. revert i. induction xs as [|x xs IH]; intros i; cbn; [reflexivity | now rewrite IH]. Qed.

Lemma map_index_nth {A B} (f : A -> nat -> B) i xs k x :
  nth_error xs k = Some x -> nth_error (Sheets.map_index f i xs) k = Some (f x (i + k)).
Proof.
  revert i k. induction xs as [|y xs IH]; intros i [|k] H; cbn in *; try discriminate.
  - injection H as ->. now rewrite Nat.add_0_r.
  - rewrite (IH (S i) k H). do 2 f_equal. lia.
Qed.

(** Every row that [getContentRepoData] returns carries the number of the
    sheet line it was read from, counted from 1 as the sheet counts: the
    line at index [k + 1] of the values, the one after the header and [k]
    more, becomes the row at index [k], with [rowIndex] [k + 2].  A sheet
    with the header line only, or with no values, has no rows. *)
Theorem getContentRepoData_row_numbers {E} (values : option (list (list (list N)))) :
  exists rows,
    Sheets.getContentRepoData (E := E) (inr values) = inr rows
    /\ length rows = length (match values with Some v => v | None => [] end) - 1
    /\ forall k line,
         nth_error (match values with Some v => v | None => [] end) (S k) = Some line ->
         exists row,
           nth_error rows k = Some row
           /\ Sheets.rowIndex row = k + 2
           /\ Sheets.blogPost row = Sheets.cell line 0
           /\ Sheets.status row = Sheets.cell line 8
           /\ Sheets.blogLink row = Sheets.cell line 10
           /\ Sheets.wordpressId row = Sheets.cell line 12.
Proof.
  unfold Sheets.getContentRepoData.
  set (v := match values with Some v => v | None => [] end).
  destruct (length v <=? 1) eqn:Hlen.
  - apply Nat.leb_le in Hlen. exists []. split; [reflexivity|]. split; [cbn; lia|].
    intros k line Hk.
    assert (S k < length v) by (apply List.nth_error_Some; rewrite Hk; discriminate). lia.
  - apply Nat.leb_gt in Hlen. eexists. split; [reflexivity|]. split.
    + rewrite map_index_length, length_drop. reflexivity.
    + intros k line Hk.
      assert (Hd : nth_error (drop 1 v) k = Some line).
      { destruct v as [|h v']; [discriminate | exact Hk]. }
      rewrite (map_index_nth Sheets.toSheetRow 0 _ k line Hd).
      eexists. split; [reflexivity|]. repeat split.
Qed.

Lemma getContentRepoData_row_numbers_witness :
  exists rows row,
    Sheets.getContentRepoData (E := unit)
      (inr (Some [[str "Blog Post"; str "Title"]; [str "post-a"]; [str "post-b"; str "B"]]))
    = inr rows
    /\ nth_error rows 1 = Some row
    /\ Sheets.rowIndex row = 3
    /\ Sheets.blogPost row = str "post-b".
Proof.
  destruct (getContentRepoData_row_numbers (E := unit)
              (Some [[str "Blog Post"; str "Title"]; [str "post-a"]; [str "post-b"; str "B"]]))
    as [rows [H1 [_ H3]]].
  destruct (H3 1 [str "post-b"; str "B"] eq_refl) as [row [Ha [Hb [Hc _]]]].
  exists rows, row. repeat split; assumption.
Defined.

Lemma contains_empty (s : list N) : contains s [] = true.
Proof. unfold contains. destruct s; reflexivity. Qed.

Ltac found_row F :=
  match type of F with
  | find _ _ = Some ?r => exists r; split; [reflexivity | exact (proj1 (find_some _ _ F))]
  end.

Section FindRowFacts.
Variable String_toLowerCase : list N -> list N.

(** [findRowByDocumentName] gives up only on a sheet without blank cells:
    a row whose name or title is empty once normalized is contained in
    every document name, so as soon as the sheet has one such row the
    lookup returns a row for every name, whatever it is. *)
Theorem findRowByDocumentName_blank_cell {E}
    (response : E + option (list (list (list N)))) rows row documentName :
  Sheets.getContentRepoData response = inr rows ->
  In row rows ->
  Sheets.normalize String_toLowerCase (Sheets.blogPost row) = []
  \/ Sheets.normalize String_toLowerCase (Sheets.title row) = [] ->
  exists found,
    Sheets.findRowByDocumentName String_toLowerCase response documentName
    = inr (Some found)
    /\ In found rows.
Proof.
  intros Hrows Hin Hblank. unfold Sheets.findRowByDocumentName. rewrite Hrows. cbv zeta.
  destruct (find (fun row => string_eqb (Sheets.normalize _ (Sheets.blogPost row)) _) rows)
    as [r|] eqn:F1; [found_row F1|].
  destruct (find (fun row => string_eqb (Sheets.normalize _ (Sheets.title row)) _) rows)
    as [r|] eqn:F2; [found_row F2|].
  destruct (find (fun row => contains (Sheets.normalize _ (Sheets.blogPost row)) _ || _) rows)
    as [r|] eqn:F3; [found_row F3|].
  destruct (find (fun row => contains (Sheets.normalize _ (Sheets.title row)) _ || _) rows)
    as [r|] eqn:F4.
  - found_row F4.
  - exfalso. destruct Hblank as [Hb | Hb].
    + pose proof (find_none _ _ F3 row Hin) as H. cbv beta in H.
      rewrite Hb, contains_empty, orb_true_r in H. discriminate.
    + pose proof (find_none _ _ F4 row Hin) as H. cbv beta in H.
      rewrite Hb, contains_empty, orb_true_r in H. discriminate.
Qed.

(** A document name without a letter or digit left after normalization
    is contained in every cell: on a sheet with at least one row the
    lookup then returns a row. *)
Theorem findRowByDocumentName_blank_name {E}
    (response : E + option (list (list (list N)))) rows documentName :
  Sheets.getContentRepoData response = inr rows ->
  rows <> [] ->
  Sheets.normalize String_toLowerCase documentName = [] ->
  exists found,
    Sheets.findRowByDocumentName String_toLowerCase response documentName
    = inr (Some found)
    /\ In found rows.
Proof.
  intros Hrows Hne Hblank. unfold Sheets.findRowByDocumentName. rewrite Hrows. cbv zeta.
  rewrite Hblank.
  destruct (find (fun row => string_eqb (Sheets.normalize _ (Sheets.blogPost row)) _) rows)
    as [r|] eqn:F1; [found_row F1|].
  destruct (find (fun row => string_eqb (Sheets.normalize _ (Sheets.title row)) _) rows)
    as [r|] eqn:F2; [found_row F2|].
  destruct (find (fun row => contains (Sheets.normalize _ (Sheets.blogPost row)) _ || _) rows)
    as [r|] eqn:F3; [found_row F3|].
  destruct rows as [|row rows']; [congruence|]. exfalso.
  pose proof (find_none _ _ F3 row (or_introl eq_refl)) as H. cbv beta in H.
  rewrite contains_empty in H. discriminate.
Qed.

End FindRowFacts.

Lemma findRowByDocumentName_blank_cell_witness :
  exists found,
    Sheets.findRowByDocumentName (E := unit) toLowerCase
      (inr (Some [[str "Blog Post"; str "Title"]; [str "savings tips"]]))
      (str "Quarterly report.docx")
    = inr (Some found)
    /\ In found [Sheets.toSheetRow [str "savings tips"] 0].
Proof.
  apply (findRowByDocumentName_blank_cell toLowerCase (E := unit)
           (inr (Some [[str "Blog Post"; str "Title"]; [str "savings tips"]]))
           [Sheets.toSheetRow [str "savings tips"] 0]
           (Sheets.toSheetRow [str "savings tips"] 0)
           (str "Quarterly report.docx")).
  - reflexivity.
  - left. reflexivity.
  - right. vm_compute. reflexivity.
Defined.

Lemma findRowByDocumentName_blank_name_witness :
  exists found,
    Sheets.findRowByDocumentName (E := unit) toLowerCase
      (inr (Some [[str "Blog Post"; str "Title"]; [str "savings tips"; str "Savings"]]))
      (str "???")
    = inr (Some found)
    /\ In found [Sheets.toSheetRow [str "savings tips"; str "Savings"] 0].
Proof.
  apply (findRowByDocumentName_blank_name toLowerCase (E := unit)
           (inr (Some [[str "Blog Post"; str "Title"]; [str "savings tips"; str "Savings"]]))
           [Sheets.toSheetRow [str "savings tips"; str "Savings"] 0]
           (str "???")).
  - reflexivity.
  - discriminate.
  - vm_compute. reflexivity.
Defined.

(** ** The dispatcher on documents that become HTML *)

Lemma inr_eq {A B} (x y : B) : @inr A B x = inr y -> x = y.
Proof. intros H. injection H. auto. Qed.

(** For a Google document and for the two Word types, whatever
    [processDocument] returns went through [cleanHtml]: the result is
    empty or starts with [<]. *)
Theorem processDocument_html_starts_with_tag {E}
    (mammoth_convertToHtml pdfParse : content -> E + list N)
    (Buffer_toString : list N -> list N)
    (c : content) (mimeType fileName out : list N) :
  In mimeType
     (map str ["application/vnd.google-apps.document";
               "application/vnd.openxmlformats-officedocument.wordprocessingml.document";
               "application/msword"]%string) ->
  processDocument mammoth_convertToHtml pdfParse Buffer_toString c mimeType fileName
    = inr out ->
  out = [] \/ exists rest, out = LT :: rest.
Proof.
  intros Hin. unfold processDocument.
  destruct (string_eqb mimeType (str "application/vnd.google-apps.document")) eqn:H1.
  - destruct c as [html|bytes]; [|discriminate]. intros H. apply inr_eq in H. subst out.
    unfold cleanGoogleDocsHtml. cbv zeta.
    apply (cleanHtml_head
                (replace docContentPattern []
                   (replace titleHeadPattern []
                      (replace titleParaPattern []
                         match js_match bodyPattern html with
                         | Some m => mgroup m 1
                         | None => html
                         end)))).
  - destruct (string_eqb mimeType
                (str "application/vnd.openxmlformats-officedocument.wordprocessingml.document")
              || string_eqb mimeType (str "application/msword")) eqn:H2.
    + unfold processWordDocument.
      destruct (mammoth_convertToHtml c) as [e|value]; [discriminate|].
      intros H. apply inr_eq in H. subst out.
      apply cleanHtml_head.
    + exfalso. apply orb_false_iff in H2 as [H2 H3].
      apply string_eqb_neq in H1, H2, H3.
      cbn [map In] in Hin. destruct Hin as [H|[H|[H|[]]]]; congruence.
Qed.

Lemma processDocument_html_starts_with_tag_witness :
  str "<p>Body</p>" = [] \/ exists rest, str "<p>Body</p>" = LT :: rest.
Proof.
  apply (processDocument_html_starts_with_tag (E := unit)
           (fun _ => inr (str "Intro <p class='x'>Body</p>")) noConverter id
           (CBuffer []) (str "application/msword") (str "a.doc") (str "<p>Body</p>")).
  - vm_compute. right. right. left. reflexivity.
  - vm_compute. reflexivity.
Defined.

(** * The claims on the first step and on the title text *)

(** ** The first step and the order of its replacements *)

Lemma free_between_false s before e q m t :
  free_between s before e q = true -> In m before -> e < t < q ->
  marker_at s m t = false.
Proof.
  unfold free_between. intros H Hin Ht. rewrite forallb_forall in H.
  assert (Hseq : In t (seq (S e) (q - S e))) by (apply in_seq; lia).
  specialize (H t Hseq). apply negb_true_iff in H.
  destruct (marker_at s m t) eqn:E; [|reflexivity].
  assert (Hex : existsb (fun m => marker_at s m t) before = true)
    by (apply existsb_exists; eauto).
  congruence.
Qed.

Lemma unobstructed_in_true s e before ms :
  unobstructed_in s e before ms = true ->
  exists ahead M after q,
    before ++ ms = ahead ++ M :: after
    /\ Matches (fst M) s (snd M) e q
    /\ forall m t, In m ahead -> e < t < q -> marker_at s m t = false.
Proof.
  revert before. induction ms as [|M rest IH]; intros before H; [discriminate|].
  cbn [unobstructed_in] in H. apply orb_true_iff in H as [H|H].
  - destruct (match_at (fst M) s (snd M) e) as [y|] eqn:E; [|discriminate].
    exists before, M, rest, (pos y). split; [reflexivity|].
    split; [now apply match_at_sound|].
    intros m t Hin Ht. now apply (free_between_false s before e (pos y)).
  - destruct (IH (before ++ [M]) H) as [ahead [M' [after [q [Heq Hrest]]]]].
    exists ahead, M', after, q. split; [|exact Hrest].
    rewrite <- Heq, <- app_assoc. reflexivity.
Qed.

Section Ordered.
Variable s : list N.
Variable ahead : list marker.
Variable M : marker.
Variable after : list marker.
Variable q : nat.
Hypothesis order : markers = ahead ++ M :: after.
Hypothesis M_here : Matches (fst M) s (snd M) (earliest s) q.
Hypothesis M_free :
  forall m t, In m ahead -> earliest s < t < q -> marker_at s m t = false.

Lemma ahead_in m : In m ahead -> In m markers.
Proof. intros H. rewrite order. apply in_or_app. now left. Qed.

Lemma M_in : In M markers.
Proof. rewrite order. apply in_or_app. right. now left. Qed.

Lemma after_in m : In m after -> In m markers.
Proof. intros H. rewrite order. apply in_or_app. right. now right. Qed.

(** A replacement that runs ahead of [M] leaves the text at the earliest
    marker, or at or beyond the end of the match of [M]. *)
Lemma ordered_pass_ahead m c :
  In m ahead -> q <= c -> c <= length s ->
  exists c', replace (passPattern m) [] (take c s) = take c' s
    /\ (c' = earliest s \/ (q <= c' /\ c' <= length s)).
Proof.
  intros Hin Hq Hc. destruct (earliest_spec s) as [Hle [_ Hno]].
  destruct (pass_on_prefix s m c (ahead_in m Hin) Hc) as [c' [Hc' [Heq [Hm _]]]].
  exists c'. split; [exact Heq|].
  destruct (Nat.eq_dec c' c) as [->|Hne]; [right; lia|].
  assert (Hlt : c' < c) by lia. specialize (Hm Hlt).
  pose proof (marker_in_any s m c' (ahead_in m Hin) Hm) as Ha.
  assert (Hge : earliest s <= c').
  { destruct (Nat.le_gt_cases (earliest s) c') as [|Hgt]; [assumption|].
    rewrite (Hno c' Hgt) in Ha. discriminate. }
  destruct (Nat.eq_dec c' (earliest s)) as [|Hne']; [now left|].
  destruct (Nat.le_gt_cases q c') as [|Hgt]; [right; lia|].
  rewrite (M_free m c' Hin) in Hm by lia. discriminate.
Qed.

(** The replacement of [M] itself, on a text that still holds its match,
    cuts at the earliest marker. *)
Lemma ordered_pass_M c :
  q <= c -> c <= length s ->
  replace (passPattern M) [] (take c s) = take (earliest s) s.
Proof.
  intros Hq Hc. destruct (earliest_spec s) as [Hle [_ Hno]].
  destruct (pass_on_prefix s M c M_in Hc) as [c' [Hc' [-> [Hm Hfirst]]]].
  destruct (marker_ok_of M M_in) as [Hloc Hnn].
  pose proof (nonnull_sound _ _ _ _ _ Hnn M_here) as Hlt.
  assert (Hat : marker_at (take c s) M (earliest s) = true).
  { apply marker_at_true. exists q. now apply (Matches_take (fst M) s (snd M) c). }
  destruct (Nat.le_gt_cases c' (earliest s)) as [Hle'|Hgt].
  - assert (Hc'' : c' < c) by lia. specialize (Hm Hc'').
    pose proof (marker_in_any s M c' M_in Hm) as Ha.
    destruct (Nat.eq_dec c' (earliest s)) as [->|Hne]; [reflexivity|].
    rewrite (Hno c') in Ha by lia. discriminate.
  - rewrite (Hfirst (earliest s) Hgt) in Hat. discriminate.
Qed.

Lemma ordered_fold_ahead (ms : list marker) :
  (forall m, In m ms -> In m ahead) ->
  forall t,
    (t = take (earliest s) s \/ exists c, q <= c /\ c <= length s /\ t = take c s) ->
    fold_left (fun t m => replace (passPattern m) [] t) ms t = take (earliest s) s
    \/ exists c, q <= c /\ c <= length s
         /\ fold_left (fun t m => replace (passPattern m) [] t) ms t = take c s.
Proof.
  induction ms as [|m ms IH]; intros Hsub t Ht.
  - cbn [fold_left]. exact Ht.
  - rewrite fold_left_step. apply IH; [intros m' Hm'; apply Hsub; now right|].
    assert (Hm : In m ahead) by (apply Hsub; now left).
    destruct Ht as [->|[c [Hq [Hc ->]]]].
    + left. apply clear_pass_at_earliest. now apply ahead_in.
    + destruct (ordered_pass_ahead m c Hm Hq Hc) as [c' [-> [->|[Hq' Hc']]]];
        [now left | right; now exists c'].
Qed.

Lemma ordered_fold_after (ms : list marker) :
  (forall m, In m ms -> In m markers) ->
  fold_left (fun t m => replace (passPattern m) [] t) ms (take (earliest s) s)
  = take (earliest s) s.
Proof.
  induction ms as [|m ms IH]; intros Hsub; [reflexivity|].
  rewrite fold_left_step, clear_pass_at_earliest by (apply Hsub; now left).
  apply IH. intros m' Hm'. apply Hsub. now right.
Qed.

Lemma ordered_fold :
  fold_left (fun t m => replace (passPattern m) [] t) markers s = take (earliest s) s.
Proof.
  rewrite order, fold_left_app, fold_left_step.
  destruct (marker_ok_of M M_in) as [_ Hnn].
  pose proof (nonnull_sound _ _ _ _ _ Hnn M_here) as Hlt.
  pose proof (Matches_le _ _ _ _ _ M_here) as [_ Hlen].
  destruct (ordered_fold_ahead ahead (fun m H => H) s) as [->|[c [Hq [Hc ->]]]].
  - right. exists (length s). repeat split; [lia | lia |]. now rewrite take_ge.
  - rewrite clear_pass_at_earliest by exact M_in. apply ordered_fold_after, after_in.
  - rewrite (ordered_pass_M c Hq Hc). apply ordered_fold_after, after_in.
Qed.
End Ordered.

Lemma no_marker_beyond (s : list N) p :
  length s <= p -> any_marker_at s p = false.
Proof.
  intros Hp. destruct (any_marker_at s p) eqn:E; [|reflexivity].
  apply any_marker_at_true in E as [m [Hmin Hmat]].
  apply marker_at_true in Hmat as [j Hj].
  destruct (marker_ok_of m Hmin) as [_ Hnn].
  pose proof (nonnull_sound _ _ _ _ _ Hnn Hj).
  pose proof (Matches_le _ _ _ _ _ Hj) as [_ Hlen]. lia.
Qed.

Lemma cleanHtml_step1_unobstructed (html : list N) :
  unobstructed html = true -> cleanHtml_step1 html = take (earliest html) html.
Proof.
  unfold unobstructed. intros H. apply orb_true_iff in H as [H|H].
  - apply Nat.eqb_eq in H. rewrite H, take_ge by lia.
    apply cleanHtml_step1_whole. intros p.
    destruct (earliest_spec html) as [_ [_ Hno]].
    destruct (Nat.lt_ge_cases p (length html)) as [Hlt|Hge]; [apply Hno; lia|].
    now apply no_marker_beyond.
  - apply unobstructed_in_true in H as [ahead [M [after [q [Heq [Hm Hfree]]]]]].
    rewrite cleanHtml_step1_markers.
    apply (ordered_fold html ahead M after q); [exact Heq | exact Hm | exact Hfree].
Qed.

Lemma cleanHtml_step1_not_before (html : list N) :
  exists n, earliest html <= n /\ cleanHtml_step1 html = take n html.
Proof.
  destruct (earliest_spec html) as [Hle [_ Hno]].
  destruct (List.list_eq_dec N.eq_dec (cleanHtml_step1 html) html) as [Heq|Hne].
  - exists (length html). split; [exact Hle|]. now rewrite take_ge.
  - pose proof (cleanHtml_step1_cut html Hne) as Hat.
    assert (Hpre : exists n, cleanHtml_step1 html = take n html).
    { rewrite cleanHtml_step1_markers.
      now destruct (passes_facts markers markers_ok html) as [Hpre _]. }
    destruct Hpre as [n Hn].
    exists (length (cleanHtml_step1 html)). split.
    + destruct (Nat.le_gt_cases (earliest html) (length (cleanHtml_step1 html)))
        as [|Hgt]; [assumption|].
      rewrite (Hno _ Hgt) in Hat. discriminate Hat.
    + rewrite Hn at 2. rewrite Hn, length_take.
      destruct (Nat.le_gt_cases n (length html)) as [Hn'|Hn'].
      * now rewrite Nat.min_l.
      * rewrite Nat.min_r by lia. now rewrite !take_ge by lia.
Qed.

(** Claim C2, as stated, fails: the replacements of the first step run
    one after another, each on what the ones before it left.  In the
    example a paragraph with the label [Notes] starts at index 8, and
    inside its opening tag, at index 18, an [hr] tag starts; the
    replacement of [hr] runs first and cuts at 18, and the paragraph,
    now cut off, is no marker any more.  Truncation at the earliest
    marker would leave the first paragraph only. *)
Lemma C2_earliest_marker_counterexample :
  earliest obstructedExample = 8
  /\ truncate_at_earliest obstructedExample = str "<p>a</p>"
  /\ cleanHtml_step1 obstructedExample = str "<p>a</p><p title='"
  /\ cleanHtml_step1 obstructedExample <> truncate_at_earliest obstructedExample.
Proof.
  assert (H1 : truncate_at_earliest obstructedExample = str "<p>a</p>")
    by (vm_compute; reflexivity).
  assert (H2 : cleanHtml_step1 obstructedExample = str "<p>a</p><p title='")
    by (vm_compute; reflexivity).
  split; [vm_compute; reflexivity|]. split; [exact H1|]. split; [exact H2|].
  rewrite H1, H2. intros H. apply (f_equal (@length N)) in H. discriminate H.
Qed.

(** Claim C2, as amended: the first step never removes anything before
    the earliest marker, and it removes everything from the earliest
    marker on whenever that marker is not obstructed, that is, whenever
    a marker matches there and no marker whose replacement runs before
    its own matches strictly inside that match (or there is no marker at
    all, and nothing is removed).  On the example of the specification
    the whole normalizer keeps [Intro] and drops [SEO Title]. *)
Theorem C2_truncates_at_earliest_marker (html : list N) :
  (exists n, earliest html <= n /\ cleanHtml_step1 html = take n html)
  /\ (unobstructed html = true -> cleanHtml_step1 html = truncate_at_earliest html)
  /\ unobstructed metaExample = true
  /\ contains (cleanHtml metaExample) (str "Intro") = true
  /\ contains (cleanHtml metaExample) (str "SEO Title") = false.
Proof.
  split; [apply cleanHtml_step1_not_before|].
  split; [apply cleanHtml_step1_unobstructed|].
  repeat split; vm_compute; reflexivity.
Qed.

Lemma C2_truncates_at_earliest_marker_witness :
  cleanHtml_step1 (str "<p>a</p>----<hr><p>b</p>") = str "<p>a</p>".
Proof.
  apply (proj1 (proj2 (C2_truncates_at_earliest_marker (str "<p>a</p>----<hr><p>b</p>")))).
  vm_compute. reflexivity.
Defined.

(** ** Global replacements as one scan *)





(** ** A greedy loop over a class before a text that the class excludes *)



(** ** Tags *)







(** ** A second pass of the normalizer *)

(** [cleanHtml] is not idempotent, even on markup that holds no tag but
    [p]: the third step removes the empty paragraph and so joins the
    hyphens to a separator, which the first step of a second pass
    removes. *)
Lemma cleanHtml_second_pass_differs :
  cleanHtml (str "<p>a</p>-<p></p>--") = str "<p>a</p>---"
  /\ cleanHtml (cleanHtml (str "<p>a</p>-<p></p>--")) = str "<p>a</p>".
Proof. split; vm_compute; reflexivity. Qed.
